(** * The embed builder of [src/main/lib/builder.py]

    A shallow embedding of the class [Builder]: the flag parser
    ([Builder.parse]), the placeholder table ([Builder.mapping]) and the
    recursive substitution ([Builder.replace_placeholders]), together with
    the Python string built-ins these methods call.

    Python strings are modelled as lists of characters.  A character is a
    code point below 256 (type [ascii]); the whitespace and lower-casing
    tables below are those of Python on that range. *)

From Stdlib Require Import Ascii String List ZArith Lia Bool Permutation.
From Stdlib Require Import DecimalString.
Import ListNotations.

Local Open Scope char_scope.
Local Open Scope list_scope.

Definition str := list ascii.

(** String literals of the source. *)
Definition py (s : string) : str := list_ascii_of_string s.

Definition str_eqb (a b : str) : bool :=
  if list_eq_dec ascii_dec a b then true else false.

(** ** Python string built-ins *)

Module PyStr.

(** [s.startswith(p)] *)
Fixpoint starts_with (p s : str) : bool :=
  match p, s with
  | [], _ => true
  | _ :: _, [] => false
  | a :: p', b :: s' => if ascii_dec a b then starts_with p' s' else false
  end.

(** [p in s]: [p] occurs in [s] as a contiguous substring. *)
Fixpoint contains (p s : str) : bool :=
  starts_with p s
  || match s with
     | [] => false
     | _ :: s' => contains p s'
     end.

(** The scan behind [s.replace(old, new)] for a non-empty [old]: the
    occurrences of [old] are found from left to right, the search resuming
    right after each occurrence.  [skip] counts the characters of the
    current occurrence that are still to be passed over. *)
Fixpoint replace_scan (old new : str) (skip : nat) (s : str) : str :=
  match s with
  | [] => []
  | c :: r =>
      match skip with
      | S k => replace_scan old new k r
      | O =>
          if starts_with old s
          then new ++ replace_scan old new (length old - 1) r
          else c :: replace_scan old new 0 r
      end
  end.

(** [s.replace(old, new)].  With an empty [old] Python inserts [new] before
    every character and at the end. *)
Definition replace (old new s : str) : str :=
  match old with
  | [] => new ++ flat_map (fun c => c :: new) s
  | _ :: _ => replace_scan old new 0 s
  end.

(** The scan behind [s.split(sep)] for a non-empty [sep]; the result always
    has at least one piece. *)
Fixpoint split_scan (sep : str) (skip : nat) (s : str) : list str :=
  match s with
  | [] => [[]]
  | c :: r =>
      match skip with
      | S k => split_scan sep k r
      | O =>
          if starts_with sep s
          then [] :: split_scan sep (length sep - 1) r
          else match split_scan sep 0 r with
               | piece :: pieces => (c :: piece) :: pieces
               | [] => [[c]]
               end
      end
  end.

(** [s.split(sep)], for the non-empty separators the source uses. *)
Definition split (sep s : str) : list str := split_scan sep 0 s.

(** [s.split(c, 1)] for a one-character separator: at most one cut, at the
    first occurrence of [c]. *)
Fixpoint split_once (c : ascii) (s : str) : list str :=
  match s with
  | [] => [[]]
  | a :: r =>
      if ascii_dec a c then [[]; r]
      else match split_once c r with
           | piece :: pieces => (a :: piece) :: pieces
           | [] => [[a]]
           end
  end.

(** [sep.join(pieces)] *)
Fixpoint join (sep : str) (pieces : list str) : str :=
  match pieces with
  | [] => []
  | [p] => p
  | p :: ps => p ++ sep ++ join sep ps
  end.

Definition code (c : ascii) : N := N_of_ascii c.

Definition between (lo hi : N) (c : ascii) : bool :=
  ((lo <=? code c) && (code c <=? hi))%N.

(** [c.isspace()] for a code point below 256: the characters that
    [str.strip()] removes. *)
Definition isspace (c : ascii) : bool :=
  between 9 13 c || between 28 32 c
  || (code c =? 133)%N || (code c =? 160)%N.

(** [c.lower()] for a code point below 256. *)
Definition lower_char (c : ascii) : ascii :=
  if between 65 90 c
     || (between 192 222 c && negb (code c =? 215)%N)
  then ascii_of_N (code c + 32)
  else c.

(** [s.lower()] *)
Definition lower (s : str) : str := map lower_char s.

(** [s.lstrip(chars)], [s.rstrip(chars)] and [s.strip(chars)], the set
    [chars] given by its membership test: every leading (trailing)
    character of the set is removed, not only the first. *)
Fixpoint lstrip_set (f : ascii -> bool) (s : str) : str :=
  match s with
  | [] => []
  | c :: r => if f c then lstrip_set f r else s
  end.

Definition rstrip_set (f : ascii -> bool) (s : str) : str :=
  rev (lstrip_set f (rev s)).

Definition strip_set (f : ascii -> bool) (s : str) : str :=
  rstrip_set f (lstrip_set f s).

(** [s.strip()] *)
Definition strip (s : str) : str := strip_set isspace s.

(** Membership of a character in the argument of [strip("{}")] and of
    [rstrip("}")]. *)
Definition in_chars (chars : str) (c : ascii) : bool :=
  existsb (fun a => if ascii_dec a c then true else false) chars.

(** *** [int(s, 16)] *)

Definition hex_digit (c : ascii) : option Z :=
  if between 48 57 c then Some (Z.of_N (code c) - 48)%Z
  else if between 97 102 c then Some (Z.of_N (code c) - 87)%Z
  else if between 65 70 c then Some (Z.of_N (code c) - 55)%Z
  else None.

(** The blanks [int] accepts around a literal. *)
Definition int_space (c : ascii) : bool :=
  between 9 13 c || (code c =? 32)%N
  || (code c =? 133)%N || (code c =? 160)%N.

(** The digits after the first one: single underscores may separate digits,
    and only blanks may follow the last digit. *)
Fixpoint int16_digits (acc : Z) (s : str) : option Z :=
  match s with
  | [] => Some acc
  | c :: r =>
      match hex_digit c with
      | Some d => int16_digits (16 * acc + d) r
      | None =>
          if ascii_dec c "_"
          then match r with
               | c' :: r' =>
                   match hex_digit c' with
                   | Some d => int16_digits (16 * acc + d) r'
                   | None => None
                   end
               | [] => None
               end
          else if forallb int_space s then Some acc else None
      end
  end.

(** The optional base prefix [0x] or [0X], after which one underscore is
    allowed. *)
Definition skip_base_prefix (s : str) : str :=
  match s with
  | c :: x :: r =>
      if (if ascii_dec c "0" then true else false) && in_chars ["x"; "X"] x
      then match r with
           | u :: r' => if ascii_dec u "_" then r' else r
           | [] => r
           end
      else s
  | _ => s
  end.

(** The literal after its sign: the prefix, then at least one digit. *)
Definition int16_unsigned (s : str) : option Z :=
  match skip_base_prefix s with
  | c :: r =>
      match hex_digit c with
      | Some d => int16_digits d r
      | None => None
      end
  | [] => None
  end.

(** [int(s, 16)]: [None] stands for the [ValueError] Python raises on an
    invalid literal.  The result is an unbounded integer. *)
Definition int16 (s : str) : option Z :=
  match lstrip_set int_space s with
  | c :: r =>
      if ascii_dec c "-" then option_map Z.opp (int16_unsigned r)
      else if ascii_dec c "+" then int16_unsigned r
      else int16_unsigned (c :: r)
  | [] => None
  end.

(** [str(n)] for an integer. *)
Definition str_of_int (n : Z) : str :=
  list_ascii_of_string (NilZero.string_of_int (Z.to_int n)).

End PyStr.

Import PyStr.

(** ** The builder object *)

(** The eight attributes [Builder.__init__] sets to [None]. *)
Record Builder : Type := mkBuilder {
  title : option str;
  description : option str;
  color : option Z;
  url : option str;
  author : option str;
  footer : option str;
  thumbnail : option str;
  image : option str
}.

(** The state of a builder right after the assignments of [__init__]. *)
Definition unset : Builder :=
  mkBuilder None None None None None None None None.

(** The two [ValueError]s [parse] can raise: the unpacking
    [key, value = attribute.split(":", 1)] of a one-element list, and
    [int(value, 16)] on an invalid literal. *)
Inductive ValueError : Type :=
| NotEnoughValues
| InvalidLiteral (literal : str).

(** How a method that mutates [self] ends: normally, or by raising; the
    attributes assigned before the exception stay assigned. *)
Inductive outcome : Type :=
| Return (self : Builder)
| Raise (e : ValueError) (self : Builder).

Definition raised (o : outcome) : option ValueError :=
  match o with
  | Return _ => None
  | Raise e _ => Some e
  end.

Definition state_of (o : outcome) : Builder :=
  match o with
  | Return self => self
  | Raise _ self => self
  end.

(** [attribute.strip().lower() == "{embed}"] *)
Definition is_embed_marker (attribute : str) : bool :=
  str_eqb (lower (strip attribute)) (py "{embed}").

(** [key.strip().lower().strip("{}")] *)
Definition normal_key (key : str) : str :=
  strip_set (in_chars (py "{}")) (lower (strip key)).

(** [value.strip().rstrip("}")] *)
Definition normal_value (value : str) : str :=
  rstrip_set (in_chars (py "}")) (strip value).

(** The [if]/[elif] chain of [parse] on the normalized key and value. *)
Definition assign (self : Builder) (key value : str) : outcome :=
  if str_eqb key (py "title") then
    Return (mkBuilder (Some value) (description self) (color self) (url self)
              (author self) (footer self) (thumbnail self) (image self))
  else if str_eqb key (py "description") then
    Return (mkBuilder (title self) (Some value) (color self) (url self)
              (author self) (footer self) (thumbnail self) (image self))
  else if str_eqb key (py "color") then
    match int16 value with
    | Some n =>
        Return (mkBuilder (title self) (description self) (Some n) (url self)
                  (author self) (footer self) (thumbnail self) (image self))
    | None => Raise (InvalidLiteral value) self
    end
  else if str_eqb key (py "url") then
    Return (mkBuilder (title self) (description self) (color self) (Some value)
              (author self) (footer self) (thumbnail self) (image self))
  else if str_eqb key (py "author") then
    Return (mkBuilder (title self) (description self) (color self) (url self)
              (Some value) (footer self) (thumbnail self) (image self))
  else if str_eqb key (py "footer") then
    Return (mkBuilder (title self) (description self) (color self) (url self)
              (author self) (Some value) (thumbnail self) (image self))
  else if str_eqb key (py "thumbnail") then
    Return (mkBuilder (title self) (description self) (color self) (url self)
              (author self) (footer self) (Some value) (image self))
  else if str_eqb key (py "image") then
    Return (mkBuilder (title self) (description self) (color self) (url self)
              (author self) (footer self) (thumbnail self) (Some value))
  else Return self.

(** The body of the [for] loop of [parse]. *)
Definition parse_attribute (self : Builder) (attribute : str) : outcome :=
  if is_embed_marker attribute then Return self
  else
    match split_once ":" attribute with
    | [key; value] => assign self (normal_key key) (normal_value value)
    | _ => Raise NotEnoughValues self
    end.

(** The [for] loop of [parse]: the first exception ends it. *)
Fixpoint parse_attributes (self : Builder) (attributes : list str) : outcome :=
  match attributes with
  | [] => Return self
  | attribute :: rest =>
      match parse_attribute self attribute with
      | Return self' => parse_attributes self' rest
      | Raise e self' => Raise e self'
      end
  end.

(** [Builder.parse] *)
Definition parse (self : Builder) (flags : str) : outcome :=
  parse_attributes self (split (py "$v") flags).

(** [Builder(flags)]: [parse] runs only on a truthy [flags], that is neither
    [None] nor the empty string; an exception leaves no object. *)
Definition Builder_init (flags : option str) : ValueError + Builder :=
  match flags with
  | None | Some [] => inr unset
  | Some flags =>
      match parse unset flags with
      | Return self => inr self
      | Raise e _ => inl e
      end
  end.

(** ** The placeholder table *)

(** What the table needs of a [discord.Guild], [discord.Member] and
    [discord.Message].  Time stamps are in seconds since the epoch, as
    [int(dt.timestamp())] gives them. *)
Record Guild : Type := mkGuild {
  guild_id : Z;
  guild_name : str;
  guild_icon : option str;
  member_count : option Z;
  premium_subscription_count : Z;
  premium_tier : Z
}.

Record Member : Type := mkMember {
  user_id : Z;
  mention : str;
  user_name : str;
  display_name : str;
  avatar : option str;
  display_avatar : str;
  joined_at : Z;
  user_created_at : Z;
  guild : Guild
}.

Record Message : Type := mkMessage {
  content : str;
  jump_url : str;
  message_created_at : Z
}.

(** The values a table holds. *)
Inductive pyval : Type :=
| PNone
| PStr (s : str)
| PInt (n : Z).

(** [bool(v)]: what [if value:] tests. *)
Definition truthy (v : pyval) : bool :=
  match v with
  | PNone => false
  | PStr [] => false
  | PStr (_ :: _) => true
  | PInt n => negb (n =? 0)%Z
  end.

(** [str(v)] *)
Definition py_str (v : pyval) : str :=
  match v with
  | PNone => py "None"
  | PStr s => s
  | PInt n => str_of_int n
  end.

Definition of_option {A : Type} (f : A -> pyval) (o : option A) : pyval :=
  match o with
  | Some a => f a
  | None => PNone
  end.

(** [discord.utils.format_dt(dt, style="R")] *)
Definition format_dt_R (timestamp : Z) : str :=
  py "<t:" ++ str_of_int timestamp ++ py ":R>".

(** A dictionary in insertion order, the order [items()] iterates in. *)
Definition table := list (str * pyval).

Definition user_table (user : Member) : table :=
  [ (py "{user.id}", PInt (user_id user));
    (py "{user.mention}", PStr (mention user));
    (py "{user.name}", PStr (user_name user));
    (py "{user.display}", PStr (display_name user));
    (py "{user.avatar}", of_option PStr (avatar user));
    (py "{user.display_avatar}", PStr (display_avatar user));
    (py "{user.joined_at}", PStr (format_dt_R (joined_at user)));
    (py "{user.created_at}", PStr (format_dt_R (user_created_at user)));
    (py "{guild.id}", PInt (guild_id (guild user)));
    (py "{guild.name}", PStr (guild_name (guild user)));
    (py "{guild.icon}", of_option PStr (guild_icon (guild user)));
    (py "{guild.membercount}", of_option PInt (member_count (guild user)));
    (py "{guild.boost_count}", PInt (premium_subscription_count (guild user)));
    (py "{guild.boost_tier}", PInt (premium_tier (guild user))) ].

Definition level_table (level : Z) : table :=
  [ (py "{level}", PStr (str_of_int level));
    (py "{level.previous}", PStr (str_of_int (level - 1))) ].

Definition xp_table (xp : Z) : table :=
  [ (py "{xp}", PStr (str_of_int xp));
    (py "{xp.previous}", PStr (str_of_int (xp - 1))) ].

Definition message_table (message : Message) : table :=
  [ (py "{message.content}", PStr (content message));
    (py "{message.url}", PStr (jump_url message));
    (py "{message.created_at}",
     PStr (format_dt_R (message_created_at message))) ].

(** [if level:] and [if xp:] on an optional integer: the branch is taken on
    an integer other than [0], and not on [None]. *)
Definition if_int (n : option Z) : option Z :=
  match n with
  | Some n => if (n =? 0)%Z then None else Some n
  | None => None
  end.

(** [Builder.mapping]: four [if ...: return {...}] in a row, then
    [return {}].  A member and a message object are always truthy, so
    [if user:] and [if message:] test for [None]. *)
Definition mapping (user : option Member) (message : option Message)
    (level xp : option Z) : table :=
  match user with
  | Some user => user_table user
  | None =>
  match if_int level with
  | Some level => level_table level
  | None =>
  match if_int xp with
  | Some xp => xp_table xp
  | None =>
  match message with
  | Some message => message_table message
  | None => []
  end end end end.

(** ** Substitution *)

(** The values [replace_placeholders] walks: strings, dictionaries (in
    insertion order, with string keys), lists, and everything else. *)
#[local] Unset Elimination Schemes.
Inductive value : Type :=
| VStr (s : str)
| VDict (items : list (str * value))
| VList (items : list value)
| VOther (v : pyval).
#[local] Set Elimination Schemes.

(** One turn of the loop over [mappings.items()]. *)
Definition replace_entry (text : str) (entry : str * pyval) : str :=
  let (placeholder, value) := entry in
  if truthy value then replace placeholder (py_str value) text else text.

(** The string branch of [replace_placeholders]. *)
Definition replace_in_str (text : str) (mappings : table) : str :=
  fold_left replace_entry mappings text.

(** [Builder.replace_placeholders] *)
Fixpoint replace_placeholders (text : value) (mappings : table) : value :=
  match text with
  | VStr s => VStr (replace_in_str s mappings)
  | VDict items =>
      VDict (map (fun kv : str * value =>
                    let (key, value) := kv in
                    (key, replace_placeholders value mappings)) items)
  | VList items =>
      VList (map (fun item => replace_placeholders item mappings) items)
  | VOther v => VOther v
  end.

(** Induction over a [value], with the induction hypothesis on every value
    of a dictionary and on every item of a list. *)
Fixpoint value_ind (P : value -> Prop)
    (HStr : forall s, P (VStr s))
    (HDict : forall items, Forall (fun kv => P (snd kv)) items -> P (VDict items))
    (HList : forall items, Forall P items -> P (VList items))
    (HOther : forall v, P (VOther v))
    (text : value) : P text :=
  match text with
  | VStr s => HStr s
  | VDict items =>
      HDict items
        ((fix all (l : list (str * value)) : Forall (fun kv => P (snd kv)) l :=
            match l with
            | [] => Forall_nil _
            | kv :: l' =>
                Forall_cons kv
                  (value_ind P HStr HDict HList HOther (snd kv)) (all l')
            end) items)
  | VList items =>
      HList items
        ((fix all (l : list value) : Forall P l :=
            match l with
            | [] => Forall_nil _
            | v :: l' =>
                Forall_cons v (value_ind P HStr HDict HList HOther v) (all l')
            end) items)
  | VOther v => HOther v
  end.

(** ** Attributes by name *)

(** The keys the [if]/[elif] chain of [parse] tests for. *)
Definition recognized_keys : list str :=
  map py [ "title"; "description"; "color"; "url"; "author"; "footer";
           "thumbnail"; "image" ]%string.

(** [getattr(self, name)] on the eight attributes ([PNone] for an attribute
    that is [None], and for any other name). *)
Definition get_attr (self : Builder) (name : str) : pyval :=
  if str_eqb name (py "title") then of_option PStr (title self)
  else if str_eqb name (py "description") then of_option PStr (description self)
  else if str_eqb name (py "color") then of_option PInt (color self)
  else if str_eqb name (py "url") then of_option PStr (url self)
  else if str_eqb name (py "author") then of_option PStr (author self)
  else if str_eqb name (py "footer") then of_option PStr (footer self)
  else if str_eqb name (py "thumbnail") then of_option PStr (thumbnail self)
  else if str_eqb name (py "image") then of_option PStr (image self)
  else PNone.

(** What the branch of [name] assigns for the normalized value [value]: the
    value itself, or for [color] the integer [int(value, 16)], when there is
    one. *)
Definition written (name value : str) : option pyval :=
  if str_eqb name (py "color") then option_map PInt (int16 value)
  else Some (PStr value).

(** ** The normalization as the specification words it

    Trimming and lower-casing as in the source, but at most one brace
    removed at each end: a leading opening brace and a trailing closing
    brace of the key, a trailing closing brace of the value. *)





(** ** Base-16 literals *)

Definition is_hex (c : ascii) : bool :=
  match hex_digit c with
  | Some _ => true
  | None => false
  end.

Definition digit_value (c : ascii) : Z :=
  match hex_digit c with
  | Some d => d
  | None => 0
  end.

(** The number a sequence of digits denotes from the accumulated [acc] on,
    most significant digit first. *)
Definition hex_from (acc : Z) (digits : str) : Z :=
  fold_left (fun n c => (16 * n + digit_value c)%Z) digits acc.

Definition hex_value (digits : str) : Z := hex_from 0 digits.

(** A non-empty run of digits. *)
Definition hex_group (g : str) : Prop := g <> [] /\ forallb is_hex g = true.

(** Groups of digits, an underscore before each. *)
Definition underscored (gs : list str) : str :=
  flat_map (fun g : str => "_" :: g) gs.

(** The literals of [int(s, 16)], with the number they denote: blanks, an
    optional sign, an optional prefix [0x] or [0X] (and one underscore after
    it), groups of digits separated by single underscores, blanks. *)
Inductive hex_literal : str -> Z -> Prop :=
| hex_literal_intro (lead sign prefix g : str) (gs : list str) (trail : str) :
    forallb int_space lead = true ->
    forallb int_space trail = true ->
    In sign [[]; ["+"]; ["-"]] ->
    In prefix [[]; py "0x"; py "0X"; py "0x_"; py "0X_"] ->
    hex_group g ->
    Forall hex_group gs ->
    hex_literal
      (lead ++ sign ++ prefix ++ g ++ underscored gs ++ trail)
      ((if str_eqb sign ["-"] then -1 else 1) * hex_value (g ++ concat gs))%Z.

(** ** Tokens *)

(** The keys of the four dictionaries of [mapping]. *)
Definition user_tokens : list str :=
  map py [ "{user.id}"; "{user.mention}"; "{user.name}"; "{user.display}";
           "{user.avatar}"; "{user.display_avatar}"; "{user.joined_at}";
           "{user.created_at}"; "{guild.id}"; "{guild.name}"; "{guild.icon}";
           "{guild.membercount}"; "{guild.boost_count}";
           "{guild.boost_tier}" ]%string.

Definition level_tokens : list str :=
  map py [ "{level}"; "{level.previous}" ]%string.

Definition xp_tokens : list str :=
  map py [ "{xp}"; "{xp.previous}" ]%string.

Definition message_tokens : list str :=
  map py [ "{message.content}"; "{message.url}";
           "{message.created_at}" ]%string.

Definition all_tokens : list str :=
  user_tokens ++ level_tokens ++ xp_tokens ++ message_tokens.

(** A token in the sense of the tables: it starts with an opening brace,
    and no other opening brace follows. *)
Definition brace_token (t : str) : bool :=
  match t with
  | c :: body =>
      (if ascii_dec c "{" then true else false) && negb (in_chars body "{")
  | [] => false
  end.

(** Neither string is a prefix of the other. *)
Definition apart (t1 t2 : str) : bool :=
  negb (starts_with t1 t2) && negb (starts_with t2 t1).

Fixpoint pairwise {A : Type} (r : A -> A -> bool) (l : list A) : bool :=
  match l with
  | [] => true
  | a :: l' => forallb (r a) l' && pairwise r l'
  end.

(** The keys of a table are tokens, no one a prefix of another (so they are
    pairwise different, as the keys of a dictionary are). *)
Definition token_keys (keys : list str) : bool :=
  forallb brace_token keys && pairwise apart keys.

(** A value that is substituted ([truthy]) is inert for the keys [keys] when
    its text has no opening brace and its first character occurs in no key.
    A value that is skipped is inert. *)
Definition inert_value (keys : list str) (v : pyval) : bool :=
  negb (truthy v)
  || match py_str v with
     | c :: _ =>
         negb (in_chars (py_str v) "{")
         && forallb (fun k => negb (in_chars k c)) keys
     | [] => false
     end.

Definition inert (mappings : table) : bool :=
  forallb (fun entry => inert_value (map fst mappings) (snd entry)) mappings.

(** The non-empty suffixes of a string, the longest first. *)
Fixpoint suffixes (s : str) : list str :=
  match s with
  | [] => []
  | c :: r => (c :: r) :: suffixes r
  end.

(** One of the two strings is a prefix of the other. *)
Definition comparable (a b : str) : bool :=
  starts_with a b || starts_with b a.

(** Two strings overlap when, in some text, an occurrence of the one and an
    occurrence of the other can share a character: a non-empty suffix of one
    is a prefix of the other, or one occurs within the other. *)
Definition overlap (a b : str) : bool :=
  existsb (comparable a) (suffixes b) || existsb (comparable b) (suffixes a).

(** The value of an entry stands clear in a table when it is skipped, or
    when its text overlaps the token of no other entry that is substituted:
    written into a text, it can then neither hold nor complete such a
    token. *)
Definition value_clear (mappings : table) (entry : str * pyval) : bool :=
  negb (truthy (snd entry))
  || forallb (fun other : str * pyval =>
                negb (truthy (snd other))
                || str_eqb (fst other) (fst entry)
                || negb (overlap (py_str (snd entry)) (fst other)))
       mappings.

Definition values_clear (mappings : table) : bool :=
  forallb (value_clear mappings) mappings.

(** ** What a substitution is *)

(** [replaced_all k v s s']: [s'] is [s] with every occurrence of the
    non-empty [k] replaced by [v], the occurrences taken from left to
    right: [s] is cut at its first occurrence of [k], and so is what
    follows that occurrence. *)
Inductive replaced_all (k v : str) : str -> str -> Prop :=
| replaced_none (s : str) :
    contains k s = false -> replaced_all k v s s
| replaced_first (p r r' : str) :
    contains k (p ++ removelast k) = false ->
    replaced_all k v r r' ->
    replaced_all k v (p ++ k ++ r) (p ++ v ++ r').

(** [substituted live mappings s s']: [s'] comes from [s] by taking the
    entries of the table in turn; the token of an entry whose value is
    [live] has all its occurrences replaced by the text of the value, and
    the entry of any other value leaves the text as it is. *)
Inductive substituted (live : pyval -> bool) : table -> str -> str -> Prop :=
| substituted_nil (s : str) : substituted live [] s s
| substituted_skip (k : str) (v : pyval) (mappings : table) (s s' : str) :
    live v = false ->
    substituted live mappings s s' ->
    substituted live ((k, v) :: mappings) s s'
| substituted_turn (k : str) (v : pyval) (mappings : table) (s s1 s' : str) :
    live v = true ->
    replaced_all k (py_str v) s s1 ->
    substituted live mappings s1 s' ->
    substituted live ((k, v) :: mappings) s s'.

(** A value other than [None]. *)
Definition non_null (v : pyval) : bool :=
  match v with
  | PNone => false
  | _ => true
  end.

(** [mentions k text]: the string [k] occurs in a string of [text] (a key of
    a dictionary is not a string of the text). *)
Fixpoint mentions (k : str) (text : value) : bool :=
  match text with
  | VStr s => contains k s
  | VDict items =>
      existsb (fun kv : str * value => let (_, v) := kv in mentions k v) items
  | VList items => existsb (mentions k) items
  | VOther _ => false
  end.

(** Two values of the same shape: strings at the same places, dictionaries
    with the same keys in the same order, lists of the same length, and the
    same value anywhere else. *)
#[local] Unset Elimination Schemes.
Inductive same_shape : value -> value -> Prop :=
| shape_str (s s' : str) : same_shape (VStr s) (VStr s')
| shape_dict (items items' : list (str * value)) :
    Forall2 (fun kv kv' => fst kv = fst kv' /\ same_shape (snd kv) (snd kv'))
      items items' ->
    same_shape (VDict items) (VDict items')
| shape_list (items items' : list value) :
    Forall2 same_shape items items' ->
    same_shape (VList items) (VList items')
| shape_other (v : pyval) : same_shape (VOther v) (VOther v).
#[local] Set Elimination Schemes.

(** ** Notions of the analysis *)

(** Neither string is a prefix of the other, as a proposition. *)
Definition incomparable (t1 t2 : str) : Prop :=
  starts_with t1 t2 = false /\ starts_with t2 t1 = false.

(** The characters of the text of an integer. *)
Definition decimal_char (c : ascii) : bool :=
  between 48 57 c || (if ascii_dec c "-" then true else false).


(** The turns of a table, as a function: the loop of [replace_placeholders]
    with the test [live] on the value. *)
Definition turn (live : pyval -> bool) (text : str) (entry : str * pyval) : str :=
  if live (snd entry) then replace (fst entry) (py_str (snd entry)) text
  else text.

(** ** Sample data *)

(** A message with the given content. *)
Definition said (content : string) : Message :=
  mkMessage (py content) (py "https://discord.com/channels/1/2/3") 1700000000.

(** A guild without icon and without boosts, and a member of it with no
    avatar set. *)
Definition quiet_guild : Guild :=
  mkGuild 1 (py "lobby") None (Some 12%Z) 0 0.

Definition newcomer : Member :=
  mkMember 42 (py "<@42>") (py "Ann") (py "Ann") None
    (py "https://cdn.discordapp.com/embed/avatars/0.png")
    1700000000 1600000000 quiet_guild.

(** ** The card of [create] *)

(** What the code hands to a [discord.Embed]: the arguments of the
    constructor, the name and the icon of [set_author], the text and the
    icon of [set_footer], the addresses of [set_thumbnail] and [set_image],
    and the fields of [add_field] (name, value, inline) in their order. *)
Record Embed : Type := mkEmbed {
  embed_title : option str;
  embed_description : option str;
  embed_color : option Z;
  embed_url : option str;
  embed_author : option str;
  embed_author_icon : option str;
  embed_footer : option str;
  embed_footer_icon : option str;
  embed_thumbnail : option str;
  embed_image : option str;
  embed_fields : list (str * str * bool)
}.

(** [x if x else None] and [if (x := ...)] on an optional string: the string
    when it is truthy, that is when it is there and not empty. *)
Definition if_str (o : option str) : option str :=
  match o with
  | Some (c :: r) => Some (c :: r)
  | _ => None
  end.

(** The local function [replace_attr] of [create]:
    [self.replace_placeholders(text=attr, mappings=mappings) if attr else None]
    on an attribute, which is [None] or a string. *)
Definition replace_attr (mappings : table) (attr : option str) : option str :=
  match if_str attr with
  | Some s => Some (replace_in_str s mappings)
  | None => None
  end.

(** [Builder.create]: title and description go to the constructor as
    [replace_attr] gives them, colour and address as they are; each of the
    four setters is called only on a truthy result, the author and the
    footer without icon; no field is added. *)
Definition create (self : Builder) (user : option Member)
    (message : option Message) (level xp : option Z) : Embed :=
  let mappings := mapping user message level xp in
  mkEmbed
    (replace_attr mappings (title self))
    (replace_attr mappings (description self))
    (color self)
    (url self)
    (if_str (replace_attr mappings (author self)))
    None
    (if_str (replace_attr mappings (footer self)))
    None
    (if_str (replace_attr mappings (thumbnail self)))
    (if_str (replace_attr mappings (image self)))
    [].

(** ** Segments [parse] accepts *)

(** A segment the loop of [parse] passes without exception: the marker, or
    a key and a value where the key is not [color] or the value is an
    integer in base 16. *)
Definition segment_ok (attribute : str) : bool :=
  is_embed_marker attribute
  || match split_once ":" attribute with
     | [key; value] =>
         negb (str_eqb (normal_key key) (py "color"))
         || match int16 (normal_value value) with
            | Some _ => true
            | None => false
            end
     | _ => false
     end.

(** The normalized key of a segment, when it has one. *)
Definition key_of (attribute : str) : option str :=
  if is_embed_marker attribute then None
  else match split_once ":" attribute with
       | [key; _] => Some (normal_key key)
       | _ => None
       end.

(** ** The paginator of [src/main/lib/paginator.py] *)

(** The exceptions of the code below, besides the [ValueError]s of
    [parse]. *)
Inductive exception : Type :=
| ZeroDivisionError
| IndexError
| AttributeError
| FromParse (e : ValueError).

(** [l[i]]: the position an index stands for, counted from the end when
    the index is negative; [None] is the [IndexError]. *)
Definition py_position {A : Type} (l : list A) (i : Z) : option nat :=
  if (0 <=? i)%Z
  then if (i <? Z.of_nat (length l))%Z then Some (Z.to_nat i) else None
  else if (- Z.of_nat (length l) <=? i)%Z
       then Some (Z.to_nat (Z.of_nat (length l) + i))
       else None.

Definition py_index {A : Type} (l : list A) (i : Z) : option A :=
  match py_position l i with
  | Some n => nth_error l n
  | None => None
  end.

(** The list with the object at one position changed in place. *)
Fixpoint set_nth {A : Type} (l : list A) (n : nat) (a : A) : list A :=
  match l, n with
  | [], _ => []
  | _ :: r, O => a :: r
  | x :: r, S n' => x :: set_nth r n' a
  end.

(** [embed.set_footer(text=..., icon_url=...)] *)
Definition set_footer (embed : Embed) (text icon_url : str) : Embed :=
  mkEmbed (embed_title embed) (embed_description embed) (embed_color embed)
    (embed_url embed) (embed_author embed) (embed_author_icon embed)
    (Some text) (Some icon_url)
    (embed_thumbnail embed) (embed_image embed) (embed_fields embed).

(** The attributes of a [Paginator] the callbacks read and write: the
    author of the command ([self.ctx.author]), the address of the avatar of
    the bot ([self.ctx.bot.user.avatar], [None] without avatar), the emoji
    [warn] of the class, the embeds and the current page.  The embeds of the
    list are distinct objects. *)
Record Paginator : Type := mkPaginator {
  pag_author : Member;
  pag_bot_avatar : option str;
  pag_warn : str;
  embeds : list Embed;
  current_page : Z
}.

(** [Paginator.__init__] *)
Definition Paginator_init (author : Member) (bot_avatar : option str)
    (warn : str) (pages : list Embed) : Paginator :=
  mkPaginator author bot_avatar warn pages 0.

Definition with_page (self : Paginator) (page : Z) : Paginator :=
  mkPaginator (pag_author self) (pag_bot_avatar self) (pag_warn self)
    (embeds self) page.

Definition with_embeds (self : Paginator) (pages : list Embed) : Paginator :=
  mkPaginator (pag_author self) (pag_bot_avatar self) (pag_warn self)
    pages (current_page self).

(** What a callback answers to the interaction. *)
Inductive response : Type :=
| SendWarning (description : str) (colour : Z)
| EditMessage (embed : Embed)
| RemoveView.

(** How a callback ends, with the paginator as it leaves it. *)
Inductive callback_result : Type :=
| Responded (self : Paginator) (r : response)
| Failed (e : exception) (self : Paginator).

Definition paginator_of (r : callback_result) : Paginator :=
  match r with
  | Responded self _ => self
  | Failed _ self => self
  end.

(** [interaction.user != self.ctx.author]: users are compared by their
    identifier. *)
Definition is_stranger (self : Paginator) (user : Member) : bool :=
  negb (user_id user =? user_id (pag_author self))%Z.

(** The warning the three callbacks send to anyone else. *)
Definition not_yours (self : Paginator) (user : Member) : response :=
  SendWarning
    (pag_warn self ++ py " " ++ mention user
     ++ py " This is not **your** paginator!")
    2764081.

(** [len(self.embeds)] *)
Definition pages (self : Paginator) : Z := Z.of_nat (length (embeds self)).

(** [Paginator.update_embed] *)
Definition update_embed (self : Paginator) : callback_result :=
  match py_position (embeds self) (current_page self) with
  | None => Failed IndexError self
  | Some n =>
      match nth_error (embeds self) n with
      | None => Failed IndexError self
      | Some embed =>
          match pag_bot_avatar self with
          | None => Failed AttributeError self
          | Some icon =>
              let shown :=
                set_footer embed
                  (py "Page " ++ str_of_int (current_page self + 1)
                   ++ py "/" ++ str_of_int (pages self))
                  icon in
              Responded (with_embeds self (set_nth (embeds self) n shown))
                (EditMessage shown)
          end
      end
  end.

(** [Paginator._left]: [%] raises on an empty list, before the page is
    assigned. *)
Definition _left (self : Paginator) (user : Member) : callback_result :=
  if is_stranger self user then Responded self (not_yours self user)
  else if (pages self =? 0)%Z then Failed ZeroDivisionError self
  else update_embed (with_page self ((current_page self - 1) mod pages self)%Z).

(** [Paginator._right] *)
Definition _right (self : Paginator) (user : Member) : callback_result :=
  if is_stranger self user then Responded self (not_yours self user)
  else if (pages self =? 0)%Z then Failed ZeroDivisionError self
  else update_embed (with_page self ((current_page self + 1) mod pages self)%Z).

(** [Paginator._stop] *)
Definition _stop (self : Paginator) (user : Member) : callback_result :=
  if is_stranger self user then Responded self (not_yours self user)
  else Responded self RemoveView.

(** The three buttons, and a run of interactions: each callback starts
    from the paginator as the one before left it, an exception of a callback
    being the end of that callback only. *)
Inductive button : Type := Left | Stop | Right.

Definition press (self : Paginator) (click : button * Member) : callback_result :=
  match fst click with
  | Left => _left self (snd click)
  | Stop => _stop self (snd click)
  | Right => _right self (snd click)
  end.

Fixpoint presses (self : Paginator) (clicks : list (button * Member)) : Paginator :=
  match clicks with
  | [] => self
  | click :: rest => presses (paginator_of (press self click)) rest
  end.

(** A paginator in order: a page of the list is the current one. *)
Definition in_order (self : Paginator) : Prop :=
  (0 <= current_page self < pages self)%Z.

(** The step a click stands for: one back or one forth for the author of
    the command, none for anyone else and for the stop button. *)
Definition move (self : Paginator) (click : button * Member) : Z :=
  if is_stranger self (snd click) then 0%Z
  else match fst click with
       | Left => (-1)%Z
       | Stop => 0%Z
       | Right => 1%Z
       end.

Definition net_moves (self : Paginator) (clicks : list (button * Member)) : Z :=
  fold_right (fun click steps => (move self click + steps)%Z) 0%Z clicks.

(** ** The announcements of [src/main/groups/welcome.py] and [goodbye.py] *)

(** The emojis [Context] loads from [data/object.json]. *)
Record Config : Type := mkConfig {
  warn : str;
  tick : str;
  nope : str
}.

(** The two functions of [discord.Embed] the commands go through:
    [Embed.to_dict] and [Embed.from_dict].  A card is stored as the JSON
    text of its dictionary; [json.loads] gives back the dictionary
    [json.dumps] was given, so a row holds the dictionary itself. *)
Record Codec : Type := mkCodec {
  to_dict : Embed -> value;
  from_dict : value -> Embed
}.

(** The words in which the two files differ. *)
Record Wording : Type := mkWording {
  noun : str;
  removed : str
}.

Definition welcome_wording : Wording :=
  mkWording (py "welcome") (py "Welcome message **removed!**").

Definition goodbye_wording : Wording :=
  mkWording (py "goodbye") (py "goodbye message **removed!**").

(** What the commands read of a [TextChannel] and of the invocation
    context. *)
Record Channel : Type := mkChannel {
  channel_id : Z;
  channel_mention : str
}.

Record Context : Type := mkContext {
  ctx_author : Member;
  ctx_message : Message;
  ctx_guild_id : Z;
  ctx_guild_channels : list Z;
  ctx_channel_id : Z
}.

(** A row of the table [welcomes] ([goodbyes]), whose primary key is the
    guild, and the table. *)
Record row : Type := mkRow {
  row_guild : Z;
  row_channel : Z;
  row_content : option str;
  row_embed : value
}.

Definition database := list row.

(** [SELECT ... WHERE guild = ?] followed by [fetchone()] *)
Definition select_guild (db : database) (guild : Z) : option row :=
  find (fun r => (row_guild r =? guild)%Z) db.

(** [DELETE FROM ... WHERE guild = ?] *)
Definition delete_guild (db : database) (guild : Z) : database :=
  filter (fun r => negb (row_guild r =? guild)%Z) db.

(** [REPLACE INTO ... VALUES (?, ?, ?, ?)]: the row of the same key goes,
    the new row comes. *)
Definition replace_into (db : database) (r : row) : database :=
  delete_guild db (row_guild r) ++ [r].

(** What is sent: a reply with a text, a reply with a card of one
    description and colour, or a message with content and card to a
    channel. *)
Inductive sent : Type :=
| Reply (text : str)
| ReplyNotice (description : str) (colour : Z)
| Send (channel : Z) (content : option str) (embed : Embed).

(** How a command ends, with the table as it leaves it. *)
Inductive command_result : Type :=
| Done (db : database) (out : sent)
| Quiet (db : database)
| Raised (e : exception) (db : database).

Definition database_of (r : command_result) : database :=
  match r with
  | Done db _ => db
  | Quiet db => db
  | Raised _ db => db
  end.

(** [a or b] on integers *)
Definition or_int (a b : Z) : Z := if (a =? 0)%Z then b else a.

(** [a or b] on optional strings *)
Definition or_str (a b : option str) : option str :=
  match if_str a with
  | Some s => Some s
  | None => b
  end.

Section Announcements.

Variable config : Config.
Variable codec : Codec.
Variable wording : Wording.

(** The card of [approve], [deny] and [alert] of
    [src/main/lib/context.py], or the plain reply without content. *)
Definition notice (emoji : str) (plain : string) (ctx : Context)
    (content : option str) : sent :=
  match if_str content with
  | Some text =>
      ReplyNotice (emoji ++ py " " ++ mention (ctx_author ctx) ++ py " " ++ text)
        2764081
  | None => Reply (py plain)
  end.

(** [Context.approve] *)
Definition approve : Context -> option str -> sent :=
  notice (tick config) ":thumbsup:".

(** [Context.deny] *)
Definition deny : Context -> option str -> sent :=
  notice (nope config) ":thumbsdown:".

(** [Context.alert] *)
Definition alert : Context -> option str -> sent :=
  notice (warn config) ":warning:".

(** [channel not in ctx.guild.channels], channels compared by their
    identifier. *)
Definition not_in_guild (ctx : Context) (channel : Channel) : bool :=
  negb (existsb (Z.eqb (channel_id channel)) (ctx_guild_channels ctx)).

(** The command [add].  Without channel the test [channel not in ...]
    holds, and [channel.mention] raises.  The row is committed before the
    card for the author is built and sent: [delivery] is the exception, if
    any, that [builder.create(ctx.author)] (an author the library gives
    without the date of joining) or [ctx.send] (a message Discord refuses)
    raises then, and the table stays as it was committed. *)
Definition add (ctx : Context) (channel : option Channel)
    (content flags : option str) (delivery : option exception)
    (db : database) : command_result :=
  match channel with
  | None => Raised AttributeError db
  | Some channel =>
      if not_in_guild ctx channel
      then Done db
             (alert ctx
                (Some (channel_mention channel ++ py " is not in this **server!**")))
      else
        match Builder_init flags with
        | inl e => Raised (FromParse e) db
        | inr builder =>
            let embed_json := to_dict codec (create builder None None None None) in
            let committed :=
              replace_into db
                (mkRow (ctx_guild_id ctx)
                   (or_int (channel_id channel) (ctx_channel_id ctx))
                   content embed_json) in
            match delivery with
            | Some e => Raised e committed
            | None =>
                Done committed
                  (Send (ctx_channel_id ctx) None
                     (create builder (Some (ctx_author ctx)) None None None))
            end
        end
  end.

(** The command [edit].  The JSON text of a card is never empty, so
    [embed_json or row[2]] is [embed_json].  As in [add], the row is
    committed before the card for the author is built and sent, and
    [delivery] is the exception raised then, if any. *)
Definition edit (ctx : Context) (channel : option Channel)
    (content flags : option str) (delivery : option exception)
    (db : database) : command_result :=
  match channel with
  | None => Raised AttributeError db
  | Some channel =>
      if not_in_guild ctx channel
      then Done db
             (alert ctx
                (Some (channel_mention channel ++ py " is not in this **server!**")))
      else
        match select_guild db (ctx_guild_id ctx) with
        | None =>
            Done db
              (deny ctx
                 (Some (py "No " ++ noun wording ++ py " message to **edit!**")))
        | Some old =>
            match Builder_init flags with
            | inl e => Raised (FromParse e) db
            | inr builder =>
                let embed_json :=
                  to_dict codec (create builder None None None None) in
                let committed :=
                  replace_into db
                    (mkRow (ctx_guild_id ctx)
                       (or_int (channel_id channel) (row_channel old))
                       (or_str content (row_content old))
                       embed_json) in
                match delivery with
                | Some e => Raised e committed
                | None =>
                    Done committed
                      (Send (ctx_channel_id ctx) None
                         (create builder (Some (ctx_author ctx)) None None None))
                end
            end
        end
  end.

(** What [view] and the listener make of a row for a member: the content
    and the dictionary of the card with the placeholders replaced. *)
Definition render (mappings : table) (r : row) : option str * Embed :=
  (option_map (fun text => replace_in_str text mappings) (row_content r),
   from_dict codec (replace_placeholders (row_embed r) mappings)).

(** The command [view] *)
Definition view (ctx : Context) (db : database) : command_result :=
  match select_guild db (ctx_guild_id ctx) with
  | Some r =>
      let mappings :=
        mapping (Some (ctx_author ctx)) (Some (ctx_message ctx)) None None in
      Done db
        (Send (ctx_channel_id ctx) (fst (render mappings r))
           (snd (render mappings r)))
  | None =>
      Done db (deny ctx (Some (py "No " ++ noun wording ++ py " message **set**!")))
  end.

(** The command [remove] *)
Definition remove (ctx : Context) (db : database) : command_result :=
  Done (delete_guild db (ctx_guild_id ctx))
    (approve ctx (Some (removed wording))).

(** The listener [on_member_join] ([on_member_remove]); [known_channels]
    are the channels [bot.get_channel] finds, and on any other
    [channel.send] raises. *)
Definition on_member (known_channels : list Z) (member : Member)
    (db : database) : command_result :=
  match select_guild db (guild_id (guild member)) with
  | Some r =>
      let mappings := mapping (Some member) None None None in
      if existsb (Z.eqb (row_channel r)) known_channels
      then Done db
             (Send (row_channel r) (fst (render mappings r))
                (snd (render mappings r)))
      else Raised AttributeError db
  | None => Quiet db
  end.

End Announcements.

(** The key of the table is kept: no two rows of one guild. *)
Definition unique_guilds (db : database) : Prop :=
  NoDup (map row_guild db).

(** A command that ended by sending a card to a channel. *)
Definition sends_card (r : command_result) : bool :=
  match r with
  | Done _ (Send _ _ _) => true
  | _ => false
  end.

(** Stand-ins for the examples: emojis, a codec that keeps title and
    description, and a context of the guild of [newcomer]. *)
Definition sample_config : Config := mkConfig (py "!") (py "+") (py "-").

Definition optional_text (o : option str) : value :=
  match o with
  | Some s => VStr s
  | None => VOther PNone
  end.

Definition text_of (v : value) : option str :=
  match v with
  | VStr s => Some s
  | _ => None
  end.

Definition sample_codec : Codec :=
  mkCodec
    (fun e => VDict [ (py "title", optional_text (embed_title e));
                      (py "description", optional_text (embed_description e)) ])
    (fun v =>
       match v with
       | VDict [ (_, t); (_, d) ] =>
           mkEmbed (text_of t) (text_of d) None None None None None None None None []
       | _ => mkEmbed None None None None None None None None None None []
       end).

Definition sample_context : Context :=
  mkContext newcomer (said "hello") 1 [10; 11]%Z 10.

(** * Properties *)

Lemma str_eqb_eq (a b : str) : str_eqb a b = true <-> a = b.
Proof.
  unfold str_eqb. destruct (list_eq_dec ascii_dec a b); split; congruence.
Qed.

Lemma str_eqb_neq (a b : str) : str_eqb a b = false <-> a <> b.
Proof.
  unfold str_eqb. destruct (list_eq_dec ascii_dec a b); split; congruence.
Qed.

Lemma str_eqb_refl (a : str) : str_eqb a a = true.
Proof. now apply str_eqb_eq. Qed.

(** ** Prefixes and the replacement scan *)

Lemma starts_with_app (p r : str) : starts_with p (p ++ r) = true.
Proof.
  induction p as [|a p IH]; simpl; [reflexivity|].
  destruct (ascii_dec a a); [assumption | congruence].
Qed.

Lemma starts_with_inv (p s : str) :
  starts_with p s = true -> s = p ++ skipn (length p) s.
Proof.
  revert s. induction p as [|a p IH]; intros [|b s] H; simpl in *;
    try reflexivity; try discriminate.
  destruct (ascii_dec a b); [subst | discriminate].
  f_equal. now apply IH.
Qed.

Lemma starts_with_iff (p s : str) :
  starts_with p s = true <-> exists r, s = p ++ r.
Proof.
  split.
  - intros H. eexists. now apply starts_with_inv.
  - intros [r ->]. apply starts_with_app.
Qed.

Lemma starts_with_cons (a : ascii) (p : str) (b : ascii) (s : str) :
  starts_with (a :: p) (b :: s) = true <-> a = b /\ starts_with p s = true.
Proof.
  simpl. destruct (ascii_dec a b) as [->|N]; split.
  - now split.
  - now intros [_ H].
  - discriminate.
  - intros [E _]. contradiction.
Qed.

Lemma replace_scan_skip (old new p r : str) :
  replace_scan old new (length p) (p ++ r) = replace_scan old new 0 r.
Proof.
  induction p as [|a p IH]; simpl.
  - destruct r; reflexivity.
  - exact IH.
Qed.

Section Scan.

Variables old new : str.
Hypothesis old_nonempty : old <> [].

Lemma replace_nil : replace old new [] = [].
Proof. destruct old; [congruence | reflexivity]. Qed.

(** At an occurrence of [old]: [new] is written and the scan resumes after
    the occurrence. *)
Lemma replace_hit (r : str) :
  replace old new (old ++ r) = new ++ replace old new r.
Proof.
  unfold replace. destruct old as [|a o] eqn:E; [congruence|].
  change ((a :: o) ++ r) with (a :: (o ++ r)).
  cbn [replace_scan].
  change (a :: o ++ r) with ((a :: o) ++ r).
  rewrite starts_with_app.
  replace (length (a :: o) - 1) with (length o) by (simpl; lia).
  now rewrite replace_scan_skip.
Qed.

(** Elsewhere the character is copied. *)
Lemma replace_miss (c : ascii) (r : str) :
  starts_with old (c :: r) = false ->
  replace old new (c :: r) = c :: replace old new r.
Proof.
  unfold replace. destruct old as [|a o] eqn:E; [congruence|].
  intros H. cbn [replace_scan]. now rewrite H.
Qed.

(** Induction along the scan. *)
Lemma scan_ind (P : str -> Prop) :
  P [] ->
  (forall r, P r -> P (old ++ r)) ->
  (forall c r, starts_with old (c :: r) = false -> P r -> P (c :: r)) ->
  forall s, P s.
Proof.
  intros Hnil Hhit Hmiss s.
  remember (length s) as n eqn:Hn.
  revert s Hn. induction n as [n IH] using lt_wf_ind. intros s Hn.
  destruct s as [|c r]; [exact Hnil|].
  destruct (starts_with old (c :: r)) eqn:E.
  - apply starts_with_inv in E. rewrite E. apply Hhit.
    apply (IH (length (skipn (length old) (c :: r)))); [|reflexivity].
    subst n. rewrite length_skipn. destruct old; [congruence|]. simpl. lia.
  - apply Hmiss; [exact E|]. apply (IH (length r)); [|reflexivity].
    subst n. simpl. lia.
Qed.

End Scan.

Lemma starts_with_nil_r (p : str) : starts_with p [] = true -> p = [].
Proof. destruct p; [reflexivity | discriminate]. Qed.

Lemma starts_with_weaken (p a b : str) :
  starts_with p a = true -> starts_with p (a ++ b) = true.
Proof.
  intros H. apply starts_with_iff in H as [r ->].
  rewrite <- app_assoc. apply starts_with_app.
Qed.

(** A prefix of [x ++ y] is a prefix of [x] or runs over the whole of [x]. *)
Lemma starts_with_app_cases (t x y : str) :
  starts_with t (x ++ y) = true ->
  starts_with t x = true \/ exists u, t = x ++ u /\ starts_with u y = true.
Proof.
  revert t. induction x as [|c x IH]; intros t H.
  - right. exists t. now split.
  - destruct t as [|a t]; [now left|].
    simpl app in H. apply starts_with_cons in H as [-> H].
    destruct (IH t H) as [L | [u [-> Hu]]].
    + left. now apply starts_with_cons.
    + right. exists u. now split.
Qed.

Lemma starts_with_length (p s : str) :
  starts_with p s = true -> length p <= length s.
Proof.
  intros H. apply starts_with_iff in H as [r ->]. rewrite length_app. lia.
Qed.

Lemma contains_length (p s : str) :
  contains p s = true -> length p <= length s.
Proof.
  induction s as [|c s IH]; simpl; intros H.
  - rewrite orb_false_r in H. now apply starts_with_length in H.
  - apply orb_true_iff in H as [H | H].
    + now apply starts_with_length in H.
    + apply IH in H. lia.
Qed.

Lemma contains_cons (p : str) (c : ascii) (s : str) :
  contains p (c :: s) = starts_with p (c :: s) || contains p s.
Proof. reflexivity. Qed.

Lemma contains_iff (p s : str) :
  contains p s = true <-> exists a b, s = a ++ p ++ b.
Proof.
  split.
  - induction s as [|c s IH]; simpl; intros H.
    + rewrite orb_false_r in H. apply starts_with_nil_r in H. subst.
      now exists [], [].
    + apply orb_true_iff in H as [H | H].
      * apply starts_with_iff in H as [r Hr]. exists [], r. exact Hr.
      * destruct (IH H) as [a [b ->]]. now exists (c :: a), b.
  - intros [a [b ->]]. induction a as [|c a IH].
    + simpl app. destruct (p ++ b) eqn:E.
      * simpl. rewrite orb_false_r. destruct p; [reflexivity | discriminate].
      * rewrite contains_cons, <- E, starts_with_app. reflexivity.
    + simpl app. rewrite contains_cons, IH. apply orb_true_r.
Qed.

Section Replace.

Variables old new : str.
Hypothesis old_nonempty : old <> [].

(** A text without occurrence of [old] is returned as it is. *)
Lemma replace_absent (s : str) :
  contains old s = false -> replace old new s = s.
Proof.
  induction s as [|c s IH]; intros H.
  - now apply replace_nil.
  - rewrite contains_cons in H. apply orb_false_iff in H as [H1 H2].
    rewrite replace_miss by assumption. now rewrite IH.
Qed.

(** The scan copies a block in which the first character of [old] does not
    occur. *)
Lemma replace_inert_block (v r : str) :
  ~ In (hd "000" old) v ->
  replace old new (v ++ r) = v ++ replace old new r.
Proof.
  induction v as [|c v IH]; intros H; [reflexivity|].
  assert (M : starts_with old (c :: v ++ r) = false).
  { destruct old as [|h o]; [congruence|]. simpl in *.
    destruct (ascii_dec h c); [|reflexivity]. exfalso. apply H. now left. }
  simpl app. rewrite replace_miss by assumption.
  rewrite IH; [reflexivity|]. intros F. apply H. now right.
Qed.

(** The scan copies a block at the start of which [old] does not occur and
    whose other characters are not the first character of [old]. *)
Lemma replace_foreign_block (k r : str) :
  starts_with old (k ++ r) = false ->
  ~ In (hd "000" old) (tl k) ->
  replace old new (k ++ r) = k ++ replace old new r.
Proof.
  destruct k as [|c k]; intros H1 H2; [reflexivity|].
  simpl app in *. rewrite replace_miss by assumption.
  simpl in H2. now rewrite replace_inert_block.
Qed.

(** A non-empty [new] whose first character is not in [t] cannot complete
    an occurrence of [t] at the start of the output. *)
Lemma replace_no_new_prefix (t s : str) :
  ~ In (hd "000" new) t -> new <> [] ->
  starts_with t (replace old new s) = true -> starts_with t s = true.
Proof.
  intros Ht Hnew. revert t Ht.
  induction s as [|r IH|c r Hc IH] using (scan_ind old old_nonempty);
    intros t Ht H.
  - now rewrite replace_nil in H.
  - rewrite replace_hit in H by assumption.
    destruct t as [|a t]; [reflexivity|].
    destruct new as [|n0 n']; [congruence|].
    simpl app in H. apply starts_with_cons in H as [-> _].
    exfalso. apply Ht. now left.
  - rewrite replace_miss in H by assumption.
    destruct t as [|a t]; [reflexivity|].
    apply starts_with_cons in H as [-> H]. apply starts_with_cons. split; [reflexivity|].
    apply IH; [|assumption]. intros F. apply Ht. now right.
Qed.

(** The scan copies a block that [old] does not overlap. *)
Lemma replace_clear_block (v r : str) :
  (forall m, In m (suffixes v) ->
             starts_with old m = false /\ starts_with m old = false) ->
  replace old new (v ++ r) = v ++ replace old new r.
Proof.
  induction v as [|c v IH]; intros H; [reflexivity|].
  assert (M : starts_with old (c :: v ++ r) = false).
  { destruct (starts_with old (c :: v ++ r)) eqn:E; [|reflexivity].
    destruct (H (c :: v)) as [H1 H2]; [now left|].
    change (c :: v ++ r) with ((c :: v) ++ r) in E.
    apply starts_with_app_cases in E as [E | [u [E _]]].
    - congruence.
    - rewrite E, starts_with_app in H2. discriminate. }
  simpl app. rewrite replace_miss by assumption.
  rewrite IH; [reflexivity|]. intros m Hm. apply H. now right.
Qed.

(** When [new] overlaps no suffix of [t], writing [new] brings no
    occurrence of [t] to the start of the output. *)
Lemma replace_brings_no_occurrence (t s : str) :
  (forall m, In m (suffixes t) ->
             starts_with new m = false /\ starts_with m new = false) ->
  starts_with t (replace old new s) = true -> starts_with t s = true.
Proof.
  revert t.
  induction s as [|r IH|c r Hc IH] using (scan_ind old old_nonempty);
    intros t Ht H.
  - now rewrite replace_nil in H.
  - rewrite replace_hit in H by assumption.
    destruct t as [|a t]; [reflexivity|].
    destruct (Ht (a :: t)) as [H1 H2]; [now left|].
    apply starts_with_app_cases in H as [H | [u [E _]]].
    + congruence.
    + rewrite E, starts_with_app in H1. discriminate.
  - rewrite replace_miss in H by assumption.
    destruct t as [|a t]; [reflexivity|].
    apply starts_with_cons in H as [-> H]. apply starts_with_cons.
    split; [reflexivity|].
    apply IH; [|assumption]. intros m Hm. apply Ht. now right.
Qed.

End Replace.

(** ** Two tokens never interfere *)

Lemma incomparable_sym (t1 t2 : str) : incomparable t1 t2 -> incomparable t2 t1.
Proof. intros [A B]. now split. Qed.

Lemma incomparable_miss (t1 t2 r : str) :
  incomparable t1 t2 -> starts_with t2 (t1 ++ r) = false.
Proof.
  intros [A B]. destruct (starts_with t2 (t1 ++ r)) eqn:E; [|reflexivity].
  apply starts_with_app_cases in E as [E | [u [-> _]]].
  - congruence.
  - rewrite starts_with_app in A. discriminate.
Qed.

Lemma overlap_sym (a b : str) : overlap a b = overlap b a.
Proof. unfold overlap. apply orb_comm. Qed.

Lemma overlap_suffix (a b m : str) :
  overlap a b = false -> In m (suffixes b) ->
  starts_with a m = false /\ starts_with m a = false.
Proof.
  unfold overlap. intros H Hm. apply orb_false_iff in H as [H _].
  destruct (comparable a m) eqn:E.
  - exfalso.
    assert (F : existsb (comparable a) (suffixes b) = true)
      by (apply existsb_exists; eauto).
    congruence.
  - unfold comparable in E. now apply orb_false_iff in E.
Qed.

Lemma suffixes_head (m s : str) :
  In m (suffixes s) -> exists c m', m = c :: m' /\ In c s.
Proof.
  induction s as [|a s IH]; simpl; [contradiction|].
  intros [<- | H].
  - exists a, s. split; [reflexivity | now left].
  - destruct (IH H) as [c [m' [E I]]]. exists c, m'. split; [exact E | now right].
Qed.

Section Commute.

(** Two tokens that do not overlap, and two replacement texts each of which
    does not overlap the other token. *)
Variables k1 k2 v1 v2 : str.
Hypothesis k1_nonempty : k1 <> [].
Hypothesis k2_nonempty : k2 <> [].
Hypothesis keys_apart : overlap k1 k2 = false.
Hypothesis v1_clear : overlap v1 k2 = false.
Hypothesis v2_clear : overlap v2 k1 = false.

Lemma replace_commute (s : str) :
  replace k1 v1 (replace k2 v2 s) = replace k2 v2 (replace k1 v1 s).
Proof.
  assert (K12 : forall m, In m (suffixes k1) ->
                  starts_with k2 m = false /\ starts_with m k2 = false).
  { intros m. apply overlap_suffix. now rewrite overlap_sym. }
  assert (K21 : forall m, In m (suffixes k2) ->
                  starts_with k1 m = false /\ starts_with m k1 = false).
  { intros m. now apply overlap_suffix. }
  assert (B1 : forall m, In m (suffixes v1) ->
                 starts_with k2 m = false /\ starts_with m k2 = false).
  { intros m. apply overlap_suffix. now rewrite overlap_sym. }
  assert (B2 : forall m, In m (suffixes v2) ->
                 starts_with k1 m = false /\ starts_with m k1 = false).
  { intros m. apply overlap_suffix. now rewrite overlap_sym. }
  assert (C1 : forall m, In m (suffixes k2) ->
                 starts_with v1 m = false /\ starts_with m v1 = false).
  { intros m. now apply overlap_suffix. }
  assert (C2 : forall m, In m (suffixes k1) ->
                 starts_with v2 m = false /\ starts_with m v2 = false).
  { intros m. now apply overlap_suffix. }
  remember (length s) as n eqn:Hn. revert s Hn.
  induction n as [n IH] using lt_wf_ind. intros s Hn.
  destruct s as [|c r].
  { now rewrite !replace_nil. }
  destruct (starts_with k1 (c :: r)) eqn:E1.
  - (* an occurrence of the first token *)
    apply starts_with_inv in E1. rewrite E1.
    set (r' := skipn (length k1) (c :: r)).
    rewrite (replace_clear_block k2 v2 k2_nonempty k1 r' K12).
    rewrite !replace_hit by assumption.
    rewrite (replace_clear_block k2 v2 k2_nonempty v1 _ B1).
    f_equal. apply (IH (length r')); [|reflexivity].
    subst n r'. rewrite length_skipn. destruct k1; [congruence|]. simpl. lia.
  - destruct (starts_with k2 (c :: r)) eqn:E2.
    + (* an occurrence of the second token *)
      apply starts_with_inv in E2. rewrite E2.
      set (r' := skipn (length k2) (c :: r)).
      rewrite (replace_clear_block k1 v1 k1_nonempty k2 r' K21).
      rewrite !replace_hit by assumption.
      rewrite (replace_clear_block k1 v1 k1_nonempty v2 _ B2).
      f_equal. apply (IH (length r')); [|reflexivity].
      subst n r'. rewrite length_skipn. destruct k2; [congruence|]. simpl. lia.
    + (* no occurrence here: the character is copied by both *)
      rewrite (replace_miss k2 v2 k2_nonempty c r E2).
      rewrite (replace_miss k1 v1 k1_nonempty c r E1).
      assert (M1 : starts_with k1 (c :: replace k2 v2 r) = false).
      { destruct (starts_with k1 (c :: replace k2 v2 r)) eqn:E; [|reflexivity].
        rewrite <- (replace_miss k2 v2 k2_nonempty c r E2) in E.
        apply replace_brings_no_occurrence in E; try assumption. congruence. }
      assert (M2 : starts_with k2 (c :: replace k1 v1 r) = false).
      { destruct (starts_with k2 (c :: replace k1 v1 r)) eqn:E; [|reflexivity].
        rewrite <- (replace_miss k1 v1 k1_nonempty c r E1) in E.
        apply replace_brings_no_occurrence in E; try assumption. congruence. }
      rewrite (replace_miss k1 v1 k1_nonempty _ _ M1).
      rewrite (replace_miss k2 v2 k2_nonempty _ _ M2).
      f_equal. apply (IH (length r)); [|reflexivity]. subst n. simpl. lia.
Qed.

End Commute.

(** ** Tables *)

Lemma in_chars_In (chars : str) (c : ascii) :
  in_chars chars c = true <-> In c chars.
Proof.
  unfold in_chars. rewrite existsb_exists. split.
  - intros [a [Ha E]]. destruct (ascii_dec a c); [now subst | discriminate].
  - intros H. exists c. split; [assumption|].
    destruct (ascii_dec c c); congruence.
Qed.

Lemma in_chars_not_In (chars : str) (c : ascii) :
  in_chars chars c = false <-> ~ In c chars.
Proof.
  rewrite <- in_chars_In. destruct (in_chars chars c); split; congruence.
Qed.

Lemma brace_token_inv (t : str) :
  brace_token t = true -> exists body, t = "{" :: body /\ ~ In "{" body.
Proof.
  destruct t as [|c body]; [discriminate|]. simpl.
  intros H. apply andb_true_iff in H as [H1 H2].
  destruct (ascii_dec c "{"); [subst | discriminate].
  exists body. split; [reflexivity|].
  apply in_chars_not_In. now apply negb_true_iff.
Qed.

Lemma apart_incomparable (t1 t2 : str) :
  apart t1 t2 = true -> incomparable t1 t2.
Proof.
  unfold apart. intros H. apply andb_true_iff in H as [H1 H2].
  split; now apply negb_true_iff.
Qed.

Lemma apart_sym (t1 t2 : str) : apart t1 t2 = apart t2 t1.
Proof. unfold apart. apply andb_comm. Qed.

Lemma starts_with_refl (t : str) : starts_with t t = true.
Proof. rewrite <- (app_nil_r t) at 2. apply starts_with_app. Qed.

Lemma apart_irrefl (t : str) : apart t t = false.
Proof. unfold apart. now rewrite starts_with_refl. Qed.

Lemma pairwise_apart_In (keys : list str) (k1 k2 : str) :
  pairwise apart keys = true -> In k1 keys -> In k2 keys -> k1 <> k2 ->
  apart k1 k2 = true.
Proof.
  induction keys as [|k keys IH]; simpl; intros H H1 H2 N; [contradiction|].
  apply andb_true_iff in H as [Hk Hrest].
  rewrite forallb_forall in Hk.
  destruct H1 as [-> | H1], H2 as [-> | H2].
  - congruence.
  - now apply Hk.
  - rewrite apart_sym. now apply Hk.
  - now apply IH.
Qed.

Lemma pairwise_apart_NoDup (keys : list str) :
  pairwise apart keys = true -> NoDup keys.
Proof.
  induction keys as [|k keys IH]; simpl; intros H; [constructor|].
  apply andb_true_iff in H as [Hk Hrest]. constructor; [|now apply IH].
  intros F. rewrite forallb_forall in Hk. apply Hk in F.
  rewrite apart_irrefl in F. discriminate.
Qed.

Lemma NoDup_keys_functional {A B : Type} (l : list (A * B)) (k : A) (v1 v2 : B) :
  NoDup (map fst l) -> In (k, v1) l -> In (k, v2) l -> v1 = v2.
Proof.
  induction l as [|[k' v'] l IH]; simpl; intros ND H1 H2; [contradiction|].
  inversion ND as [|? ? Hnot ND']; subst.
  destruct H1 as [E1 | H1], H2 as [E2 | H2].
  - congruence.
  - inversion E1; subst. exfalso. apply Hnot.
    change k with (fst (k, v2)). now apply in_map.
  - inversion E2; subst. exfalso. apply Hnot.
    change k with (fst (k, v1)). now apply in_map.
  - now apply IH.
Qed.

(** Two tokens of a table do not overlap: each starts with its only
    opening brace, and neither is a prefix of the other. *)
Lemma brace_tokens_no_overlap (t1 t2 : str) :
  brace_token t1 = true -> brace_token t2 = true -> apart t1 t2 = true ->
  overlap t1 t2 = false.
Proof.
  intros B1 B2 A.
  assert (half : forall a b,
             brace_token a = true -> brace_token b = true -> apart a b = true ->
             existsb (comparable a) (suffixes b) = false).
  { clear. intros a b Ba Bb A.
    destruct (brace_token_inv a Ba) as [ba [-> Na]].
    destruct (brace_token_inv b Bb) as [bb [-> Nb]].
    apply apart_incomparable in A as [A1 A2].
    simpl suffixes. cbn [existsb]. apply orb_false_iff. split.
    - unfold comparable. now rewrite A1, A2.
    - destruct (existsb (comparable ("{" :: ba)) (suffixes bb)) eqn:E;
        [|reflexivity].
      apply existsb_exists in E as [m [Hm C]].
      destruct (suffixes_head m bb Hm) as [c [m' [-> I]]].
      unfold comparable in C.
      apply orb_true_iff in C as [C | C];
        [apply starts_with_cons in C as [<- _]
        | apply starts_with_cons in C as [-> _]]; contradiction. }
  unfold overlap. rewrite (half t1 t2), (half t2 t1); try assumption;
    [reflexivity|]. now rewrite apart_sym.
Qed.

Lemma values_clear_In (mappings : table) (k1 k2 : str) (v1 v2 : pyval) :
  values_clear mappings = true ->
  In (k1, v1) mappings -> In (k2, v2) mappings ->
  truthy v1 = true -> truthy v2 = true -> k1 <> k2 ->
  overlap (py_str v1) k2 = false.
Proof.
  intros C H1 H2 T1 T2 N.
  unfold values_clear in C. rewrite forallb_forall in C.
  specialize (C _ H1). unfold value_clear in C. simpl fst in C. simpl snd in C.
  rewrite T1 in C. simpl in C. rewrite forallb_forall in C.
  specialize (C _ H2). simpl fst in C. simpl snd in C. rewrite T2 in C.
  simpl in C. apply orb_true_iff in C as [C | C].
  - apply str_eqb_eq in C. congruence.
  - now apply negb_true_iff.
Qed.

(** The turns of two entries of a table of tokens whose values stand clear
    can be exchanged. *)
Lemma replace_entry_commute (mappings : table) (e1 e2 : str * pyval) (s : str) :
  token_keys (map fst mappings) = true ->
  values_clear mappings = true ->
  In e1 mappings -> In e2 mappings ->
  replace_entry (replace_entry s e1) e2 = replace_entry (replace_entry s e2) e1.
Proof.
  intros TK C H1 H2.
  pose proof TK as TK'.
  apply andb_true_iff in TK' as [TB TP].
  destruct e1 as [k1 v1], e2 as [k2 v2]. simpl.
  destruct (truthy v1) eqn:T1; [|reflexivity].
  destruct (truthy v2) eqn:T2; [|reflexivity].
  destruct (list_eq_dec ascii_dec k1 k2) as [-> | N].
  { rewrite (NoDup_keys_functional mappings k2 v1 v2); try assumption; [reflexivity|].
    now apply pairwise_apart_NoDup. }
  assert (K1 : In k1 (map fst mappings)) by (change k1 with (fst (k1, v1)); now apply in_map).
  assert (K2 : In k2 (map fst mappings)) by (change k2 with (fst (k2, v2)); now apply in_map).
  rewrite forallb_forall in TB.
  pose proof (TB _ K1) as B1. pose proof (TB _ K2) as B2.
  symmetry. apply replace_commute.
  - destruct k1; [discriminate B1 | discriminate].
  - destruct k2; [discriminate B2 | discriminate].
  - apply brace_tokens_no_overlap; try assumption.
    now apply pairwise_apart_In with (map fst mappings).
  - now apply values_clear_In with mappings k1 v2.
  - apply values_clear_In with mappings k2 v1; try assumption. congruence.
Qed.

Lemma fold_left_commute_perm {A B : Type} (f : A -> B -> A) (l l' : list B) :
  Permutation l l' ->
  (forall x y a, In x l -> In y l -> f (f a x) y = f (f a y) x) ->
  forall a, fold_left f l a = fold_left f l' a.
Proof.
  induction 1 as [|x l l' HP IH|x y l|l l' l'' HP1 IH1 HP2 IH2]; intros C a.
  - reflexivity.
  - simpl. apply IH. intros; apply C; now right.
  - simpl. f_equal. apply C; simpl; auto.
  - rewrite IH1 by assumption. apply IH2.
    intros x y b Hx Hy.
    apply C; apply (Permutation_in _ (Permutation_sym HP1)); assumption.
Qed.

Lemma replace_in_str_perm (mappings mappings' : table) (s : str) :
  token_keys (map fst mappings) = true ->
  values_clear mappings = true ->
  Permutation mappings mappings' ->
  replace_in_str s mappings' = replace_in_str s mappings.
Proof.
  intros TK IN HP. symmetry. unfold replace_in_str.
  apply fold_left_commute_perm; [assumption|].
  intros x y a Hx Hy. now apply replace_entry_commute with mappings.
Qed.

Lemma replace_placeholders_perm (mappings mappings' : table) (text : value) :
  token_keys (map fst mappings) = true ->
  values_clear mappings = true ->
  Permutation mappings mappings' ->
  replace_placeholders text mappings' = replace_placeholders text mappings.
Proof.
  intros TK IN HP.
  induction text as [s | items IH | items IH | v] using value_ind; simpl.
  - f_equal. now apply replace_in_str_perm.
  - f_equal. apply map_ext_in. intros [k v] Hin.
    rewrite Forall_forall in IH. f_equal. exact (IH _ Hin).
  - f_equal. apply map_ext_in. intros v Hin.
    rewrite Forall_forall in IH. exact (IH _ Hin).
  - reflexivity.
Qed.

Lemma mapping_token_keys user message level xp :
  token_keys (map fst (mapping user message level xp)) = true.
Proof.
  unfold mapping.
  destruct user; [reflexivity|].
  destruct (if_int level); [reflexivity|].
  destruct (if_int xp); [reflexivity|].
  destruct message; reflexivity.
Qed.

(** ** Decimal texts *)

Lemma string_of_uint_decimal (d : Decimal.uint) :
  Forall (fun c => decimal_char c = true)
    (list_ascii_of_string (NilEmpty.string_of_uint d)).
Proof. induction d; simpl; constructor; auto. Qed.

Lemma str_of_int_decimal (n : Z) :
  Forall (fun c => decimal_char c = true) (str_of_int n).
Proof.
  unfold str_of_int, NilZero.string_of_int, NilZero.string_of_uint.
  destruct (Z.to_int n) as [d | d]; destruct d; simpl;
    repeat constructor; apply string_of_uint_decimal.
Qed.

Lemma str_of_int_nonempty (n : Z) : str_of_int n <> [].
Proof.
  unfold str_of_int, NilZero.string_of_int, NilZero.string_of_uint.
  destruct (Z.to_int n) as [d | d]; destruct d; discriminate.
Qed.

(** No decimal character occurs in a token. *)
Lemma decimal_char_foreign (c : ascii) :
  decimal_char c = true ->
  forallb (fun k => negb (in_chars k c)) all_tokens = true.
Proof.
  destruct c as [[|] [|] [|] [|] [|] [|] [|] [|]]; intros H;
    try discriminate H; reflexivity.
Qed.

Lemma decimal_text_no_brace (s : str) :
  Forall (fun c => decimal_char c = true) s -> in_chars s "{" = false.
Proof.
  intros H. apply in_chars_not_In. intros F.
  rewrite Forall_forall in H. apply H in F. discriminate.
Qed.

Lemma forallb_incl {A : Type} (f : A -> bool) (l l' : list A) :
  incl l l' -> forallb f l' = true -> forallb f l = true.
Proof.
  intros I H. rewrite forallb_forall in *. intros x Hx. apply H. now apply I.
Qed.

(** The text of an integer is inert for any keys among the tokens. *)
Lemma decimal_inert (keys : list str) (n : Z) :
  incl keys all_tokens -> inert_value keys (PStr (str_of_int n)) = true.
Proof.
  intros I. unfold inert_value. simpl py_str.
  pose proof (str_of_int_decimal n) as D.
  pose proof (str_of_int_nonempty n) as NE.
  destruct (str_of_int n) as [|c r] eqn:E; [congruence|].
  apply orb_true_iff. right. apply andb_true_iff. split.
  - apply negb_true_iff. now apply decimal_text_no_brace.
  - apply forallb_incl with all_tokens; [assumption|].
    apply decimal_char_foreign. now inversion D.
Qed.

Lemma level_table_inert (level : Z) : inert (level_table level) = true.
Proof.
  unfold inert. simpl.
  rewrite !decimal_inert; [reflexivity | |];
    intros k Hk; simpl in Hk; unfold all_tokens;
    apply in_or_app; right; apply in_or_app; left; exact Hk.
Qed.

Lemma xp_table_inert (xp : Z) : inert (xp_table xp) = true.
Proof.
  unfold inert. simpl.
  rewrite !decimal_inert; [reflexivity | |];
    intros k Hk; simpl in Hk; unfold all_tokens;
    apply in_or_app; right; apply in_or_app; right; apply in_or_app; left;
    exact Hk.
Qed.

(** An inert value stands clear of the tokens of its table. *)
Lemma inert_values_clear (mappings : table) :
  token_keys (map fst mappings) = true -> inert mappings = true ->
  values_clear mappings = true.
Proof.
  intros TK IN. apply andb_true_iff in TK as [TB _].
  rewrite forallb_forall in TB.
  unfold inert in IN. rewrite forallb_forall in IN.
  unfold values_clear. apply forallb_forall. intros [k v] He.
  unfold value_clear. simpl fst. simpl snd.
  destruct (truthy v) eqn:T; [|reflexivity]. simpl.
  apply forallb_forall. intros [k' v'] He'. simpl fst. simpl snd.
  destruct (truthy v'); [|reflexivity]. simpl.
  destruct (str_eqb k' k); [reflexivity|]. simpl.
  apply negb_true_iff.
  pose proof (IN _ He) as I. unfold inert_value in I. simpl snd in I.
  rewrite T in I. simpl in I.
  destruct (py_str v) as [|c w] eqn:S; [discriminate|].
  apply andb_true_iff in I as [I1 I2]. rewrite forallb_forall in I2.
  assert (K' : In k' (map fst mappings))
    by (change k' with (fst (k', v')); now apply in_map).
  destruct (brace_token_inv k' (TB _ K')) as [b' [E B']].
  assert (Fc : ~ In c k').
  { apply in_chars_not_In. apply negb_true_iff. now apply I2. }
  assert (Fb : ~ In "{" (c :: w)).
  { apply in_chars_not_In. now apply negb_true_iff. }
  unfold overlap. apply orb_false_iff. split.
  - destruct (existsb (comparable (c :: w)) (suffixes k')) eqn:X; [|reflexivity].
    apply existsb_exists in X as [m [Hm C]].
    destruct (suffixes_head m k' Hm) as [c' [m' [-> I']]].
    unfold comparable in C.
    apply orb_true_iff in C as [C | C];
      [apply starts_with_cons in C as [<- _]
      | apply starts_with_cons in C as [-> _]]; contradiction.
  - destruct (existsb (comparable k') (suffixes (c :: w))) eqn:X; [|reflexivity].
    apply existsb_exists in X as [m [Hm C]].
    destruct (suffixes_head m (c :: w) Hm) as [c' [m' [-> I']]].
    subst k'. unfold comparable in C.
    apply orb_true_iff in C as [C | C];
      [apply starts_with_cons in C as [<- _]
      | apply starts_with_cons in C as [-> _]]; contradiction.
Qed.

Lemma level_table_clear (level : Z) : values_clear (level_table level) = true.
Proof.
  apply inert_values_clear; [reflexivity | apply level_table_inert].
Qed.

Lemma xp_table_clear (xp : Z) : values_clear (xp_table xp) = true.
Proof.
  apply inert_values_clear; [reflexivity | apply xp_table_inert].
Qed.

Lemma mapping_keys user message level xp :
  incl (map fst (mapping user message level xp)) all_tokens.
Proof.
  unfold mapping, all_tokens.
  destruct user.
  { intros k Hk. apply in_or_app. left. exact Hk. }
  destruct (if_int level).
  { intros k Hk. apply in_or_app. right. apply in_or_app. left. exact Hk. }
  destruct (if_int xp).
  { intros k Hk. do 2 (apply in_or_app; right). apply in_or_app. left. exact Hk. }
  destruct message.
  { intros k Hk. do 3 (apply in_or_app; right). exact Hk. }
  intros k [].
Qed.

Lemma tokens_not_nested (t1 t2 : str) :
  In t1 all_tokens -> In t2 all_tokens -> t1 <> t2 -> contains t1 t2 = false.
Proof.
  assert (H : forallb (fun a => forallb (fun b => str_eqb a b || negb (contains a b))
                                  all_tokens) all_tokens = true) by (vm_compute; reflexivity).
  intros H1 H2 N. rewrite forallb_forall in H. specialize (H _ H1).
  rewrite forallb_forall in H. specialize (H _ H2).
  apply orb_true_iff in H as [H | H].
  - apply str_eqb_eq in H. contradiction.
  - now apply negb_true_iff.
Qed.

(** C1 (amended).  No token of the four dictionaries of [mapping] occurs
    inside another one, and the keys of every table [mapping] builds are
    among these tokens.  For every text (a string, or strings nested in
    dictionaries and lists) and every table built by [mapping] in which the
    text of each substituted value overlaps the token of no other
    substituted entry (it neither holds such a token or is held by it, nor
    begins with an end or ends with a beginning of it), taking the entries
    in any other order gives the same result.  Values that are inert stand
    clear in this sense, and the values of the tables of a level and of an
    experience count always do. *)
Theorem C1_order_independent_when_values_overlap_no_token :
  (forall t1 t2, In t1 all_tokens -> In t2 all_tokens -> t1 <> t2 ->
                 contains t1 t2 = false)
  /\ (forall user message level xp,
        incl (map fst (mapping user message level xp)) all_tokens)
  /\ (forall user message level xp text mappings',
        values_clear (mapping user message level xp) = true ->
        Permutation (mapping user message level xp) mappings' ->
        replace_placeholders text mappings'
        = replace_placeholders text (mapping user message level xp))
  /\ (forall user message level xp,
        inert (mapping user message level xp) = true ->
        values_clear (mapping user message level xp) = true)
  /\ (forall level, values_clear (level_table level) = true)
  /\ (forall xp, values_clear (xp_table xp) = true).
Proof.
  split; [exact tokens_not_nested|].
  split; [exact mapping_keys|].
  split; [|split; [|split; [exact level_table_clear | exact xp_table_clear]]].
  - intros user message level xp text mappings' IN HP.
    apply replace_placeholders_perm; try assumption.
    apply mapping_token_keys.
  - intros user message level xp IN.
    apply inert_values_clear; [apply mapping_token_keys | exact IN].
Qed.

(** C1 as stated fails: with arbitrary strings as values the order counts.
    A message whose content is the text [{message.url}] renders
    [{message.content}] as its URL in the order of the dictionary, and as
    the literal [{message.url}] when the URL is taken first. *)
Lemma C1_arbitrary_values_order_dependent :
  ~ (forall user message level xp text mappings',
        Permutation (mapping user message level xp) mappings' ->
        replace_placeholders text mappings'
        = replace_placeholders text (mapping user message level xp)).
Proof.
  intros H.
  specialize (H None (Some (said "{message.url}")) None None
                (VStr (py "{message.content}"))
                [ (py "{message.url}", PStr (py "https://discord.com/channels/1/2/3"));
                  (py "{message.content}", PStr (py "{message.url}"));
                  (py "{message.created_at}", PStr (format_dt_R 1700000000)) ]
                (perm_swap _ _ _)).
  vm_compute in H. discriminate H.
Qed.

Lemma C1_witness :
  In (py "{level}") all_tokens
  /\ In (py "{level.previous}") all_tokens
  /\ py "{level}" <> py "{level.previous}"
  /\ contains (py "{level}") (py "{level.previous}") = false
  /\ values_clear (mapping (Some newcomer) None None None) = true
  /\ Permutation (mapping (Some newcomer) None None None)
       (rev (mapping (Some newcomer) None None None))
  /\ replace_placeholders (VStr (py "{user.name} joined {guild.name}"))
       (rev (mapping (Some newcomer) None None None))
     = replace_placeholders (VStr (py "{user.name} joined {guild.name}"))
         (mapping (Some newcomer) None None None).
Proof.
  assert (I1 : In (py "{level}") all_tokens) by (vm_compute; tauto).
  assert (I2 : In (py "{level.previous}") all_tokens) by (vm_compute; tauto).
  assert (N : py "{level}" <> py "{level.previous}") by discriminate.
  split; [exact I1|]. split; [exact I2|]. split; [exact N|].
  split.
  { exact (proj1 C1_order_independent_when_values_overlap_no_token _ _ I1 I2 N). }
  split; [vm_compute; reflexivity|]. split; [apply Permutation_rev|].
  apply (proj1 (proj2 (proj2 C1_order_independent_when_values_overlap_no_token))
           (Some newcomer) None None None).
  - vm_compute. reflexivity.
  - apply Permutation_rev.
Defined.

(** Each kind of overlap makes the order count.  With the content [url]
    the text [{message.{message.content}}] becomes the token of the URL
    when the content is taken first; so it does with a content that begins
    with the end [url}] of that token, and with one that ends with its
    beginning [{message.]; a content that overlaps no token, as [so long],
    leaves every order with the same result. *)
Lemma order_depends_on_every_kind_of_overlap :
  let swapped (m : Message) :=
    [ (py "{message.url}", PStr (jump_url m));
      (py "{message.content}", PStr (content m));
      (py "{message.created_at}", PStr (format_dt_R (message_created_at m))) ] in
  (forall m, Permutation (message_table m) (swapped m))
  /\ replace_in_str (py "{message.{message.content}}") (message_table (said "url"))
     <> replace_in_str (py "{message.{message.content}}") (swapped (said "url"))
  /\ replace_in_str (py "{message.{message.content}") (message_table (said "url} x"))
     <> replace_in_str (py "{message.{message.content}") (swapped (said "url} x"))
  /\ replace_in_str (py "{message.content}url}")
       (message_table (said "see {message."))
     <> replace_in_str (py "{message.content}url}") (swapped (said "see {message."))
  /\ values_clear (message_table (said "url")) = false
  /\ values_clear (message_table (said "url} x")) = false
  /\ values_clear (message_table (said "see {message.")) = false
  /\ values_clear (message_table (said "so long")) = true
  /\ inert (message_table (said "so long")) = false
  /\ inert (mapping (Some newcomer) None None None) = false.
Proof.
  intros swapped. split; [intros m; apply perm_swap|].
  repeat split; try (vm_compute; reflexivity); vm_compute; discriminate.
Qed.

(** ** Replacing all occurrences *)

Lemma starts_with_trunc (k a b : str) :
  starts_with k (a ++ b) = true -> length k <= length a ->
  starts_with k a = true.
Proof.
  intros H L. apply starts_with_app_cases in H as [H | [u [-> Hu]]];
    [assumption|].
  rewrite length_app in L. destruct u; [|simpl in L; lia].
  rewrite app_nil_r. apply starts_with_refl.
Qed.

Lemma length_removelast_nonempty (k : str) :
  k <> [] -> S (length (removelast k)) = length k.
Proof.
  intros N. rewrite (app_removelast_last "000" N) at 2.
  rewrite length_app. simpl. lia.
Qed.

Lemma cut_last (k x r : str) :
  k <> [] -> (x ++ removelast k) ++ [last k "000"] ++ r = x ++ k ++ r.
Proof.
  intros N. rewrite <- app_assoc. f_equal. rewrite app_assoc. f_equal.
  symmetry. now apply app_removelast_last.
Qed.

Section ReplaceAll.

Variables k v : str.
Hypothesis k_nonempty : k <> [].

(** The scan up to the first occurrence of [k]. *)
Lemma replace_first (p r : str) :
  contains k (p ++ removelast k) = false ->
  replace k v (p ++ k ++ r) = p ++ v ++ replace k v r.
Proof.
  induction p as [|c p IH]; intros H.
  - simpl app. now apply replace_hit.
  - simpl app in *. rewrite contains_cons in H.
    apply orb_false_iff in H as [H1 H2].
    rewrite replace_miss; [now rewrite IH | assumption |].
    destruct (starts_with k (c :: p ++ k ++ r)) eqn:E; [|reflexivity].
    rewrite <- H1. symmetry.
    change (c :: p ++ removelast k) with ((c :: p) ++ removelast k).
    apply starts_with_trunc with ([last k "000"] ++ r).
    + now rewrite cut_last.
    + rewrite length_app.
      pose proof (length_removelast_nonempty k k_nonempty). simpl. lia.
Qed.

(** A text in which [k] occurs can be cut at the first occurrence. *)
Lemma first_occurrence (s : str) :
  contains k s = true ->
  exists p r, s = p ++ k ++ r /\ contains k (p ++ removelast k) = false.
Proof.
  induction s as [|c s IH]; intros H.
  - simpl in H. rewrite orb_false_r in H.
    apply starts_with_nil_r in H. contradiction.
  - rewrite contains_cons in H.
    destruct (starts_with k (c :: s)) eqn:E.
    + apply starts_with_iff in E as [r Hr]. exists [], r. split; [exact Hr|].
      simpl app. destruct (contains k (removelast k)) eqn:F; [|reflexivity].
      apply contains_length in F.
      pose proof (length_removelast_nonempty k k_nonempty). lia.
    + simpl in H. destruct (IH H) as [p [r [-> Hp]]].
      exists (c :: p), r. split; [reflexivity|].
      simpl app. rewrite contains_cons, Hp, orb_false_r.
      destruct (starts_with k (c :: p ++ removelast k)) eqn:F; [|reflexivity].
      change (c :: p ++ removelast k) with ((c :: p) ++ removelast k) in F.
      apply (starts_with_weaken k _ ([last k "000"] ++ r)) in F.
      rewrite cut_last in F by assumption. simpl app in F. congruence.
Qed.

Lemma replaced_all_sound (s s' : str) :
  replaced_all k v s s' -> s' = replace k v s.
Proof.
  induction 1 as [s H | p r r' H _ IH].
  - symmetry. now apply replace_absent.
  - rewrite replace_first by assumption. now rewrite IH.
Qed.

Lemma replaced_all_complete (s : str) : replaced_all k v s (replace k v s).
Proof.
  remember (length s) as n eqn:Hn. revert s Hn.
  induction n as [n IH] using lt_wf_ind. intros s Hn.
  destruct (contains k s) eqn:E.
  - destruct (first_occurrence s E) as [p [r [-> Hp]]].
    rewrite replace_first by assumption.
    apply replaced_first; [assumption|].
    apply (IH (length r)); [|reflexivity].
    subst n. rewrite !length_app. destruct k; [congruence | simpl; lia].
  - rewrite replace_absent by assumption. now apply replaced_none.
Qed.

Lemma replaced_all_iff (s s' : str) :
  replaced_all k v s s' <-> s' = replace k v s.
Proof.
  split; [apply replaced_all_sound|]. intros ->. apply replaced_all_complete.
Qed.

End ReplaceAll.

Lemma replace_entry_turn (text : str) (entry : str * pyval) :
  replace_entry text entry = turn truthy text entry.
Proof. destruct entry. reflexivity. Qed.

Lemma replace_in_str_turns (s : str) (mappings : table) :
  replace_in_str s mappings = fold_left (turn truthy) mappings s.
Proof.
  unfold replace_in_str. revert s.
  induction mappings as [|e m IH]; intros s; [reflexivity|].
  simpl. now rewrite replace_entry_turn, IH.
Qed.

Lemma substituted_iff (live : pyval -> bool) (mappings : table) (s s' : str) :
  Forall (fun entry => fst entry <> []) mappings ->
  (substituted live mappings s s' <-> s' = fold_left (turn live) mappings s).
Proof.
  intros NE. revert s s'. induction NE as [|[k v] m Hk NE IH]; intros s s'.
  - split.
    + now inversion 1.
    + intros ->. constructor.
  - simpl in Hk. split.
    + inversion 1 as [| ? ? ? ? ? L S | ? ? ? ? ? ? L R S]; subst.
      * apply IH in S. simpl. unfold turn at 2. simpl. now rewrite L.
      * apply IH in S. apply replaced_all_sound in R; [|assumption].
        simpl. unfold turn at 2. simpl. now rewrite L, <- R.
    + intros ->. simpl. unfold turn at 2. simpl.
      destruct (live v) eqn:L.
      * apply substituted_turn with (replace k (py_str v) s); [assumption | |].
        -- now apply replaced_all_complete.
        -- now apply IH.
      * apply substituted_skip; [assumption|]. now apply IH.
Qed.

(** ** A token that is not substituted stays *)

Lemma replace_around_token (h : ascii) (bt bk w a b : str) :
  ~ In h bt -> ~ In h bk -> incomparable (h :: bt) (h :: bk) ->
  replace (h :: bt) w (a ++ (h :: bk) ++ b)
  = replace (h :: bt) w a ++ (h :: bk) ++ replace (h :: bt) w b.
Proof.
  intros Hbt Hbk Hap.
  assert (N : h :: bt <> []) by discriminate.
  induction a as [|r IH|c r Hc IH] using (scan_ind (h :: bt) N).
  - rewrite replace_nil by assumption. rewrite !app_nil_l.
    apply replace_foreign_block; [assumption | | assumption].
    apply incomparable_miss. now apply incomparable_sym.
  - rewrite <- app_assoc, !replace_hit by assumption.
    now rewrite IH, <- app_assoc.
  - rewrite (replace_miss _ _ N c r Hc).
    change ((c :: r) ++ (h :: bk) ++ b) with (c :: (r ++ (h :: bk) ++ b)).
    rewrite replace_miss; [now rewrite IH | assumption |].
    destruct (starts_with (h :: bt) (c :: r ++ (h :: bk) ++ b)) eqn:E;
      [|reflexivity].
    change (c :: r ++ (h :: bk) ++ b) with ((c :: r) ++ (h :: bk) ++ b) in E.
    apply starts_with_app_cases in E as [E | [u [Eu Hu]]]; [congruence|].
    destruct u as [|h' u].
    + rewrite app_nil_r in Eu. rewrite Eu, starts_with_refl in Hc. discriminate.
    + simpl app in Hu. apply starts_with_cons in Hu as [-> _].
      exfalso. apply Hbt. injection Eu as _ ->. apply in_or_app. right. now left.
Qed.

Lemma replace_in_str_app (s : str) (m1 m2 : table) :
  replace_in_str s (m1 ++ m2) = replace_in_str (replace_in_str s m1) m2.
Proof. apply fold_left_app. Qed.

Lemma replace_in_str_cons (s : str) (e : str * pyval) (m : table) :
  replace_in_str s (e :: m) = replace_in_str (replace_entry s e) m.
Proof. reflexivity. Qed.

Lemma token_stays_through (k : str) (bk : str) (m : table) :
  k = "{" :: bk -> ~ In "{" bk ->
  (forall t w, In (t, w) m -> truthy w = true ->
     exists bt, t = "{" :: bt /\ ~ In "{" bt /\ incomparable t k) ->
  forall a b,
    replace_in_str (a ++ k ++ b) m
    = replace_in_str a m ++ k ++ replace_in_str b m.
Proof.
  intros -> Hbk. induction m as [|[t w] m IH]; intros H a b; [reflexivity|].
  rewrite !replace_in_str_cons. unfold replace_entry.
  destruct (truthy w) eqn:T.
  - destruct (H t w (or_introl eq_refl) T) as [bt [-> [Hbt Hap]]].
    rewrite replace_around_token by assumption.
    apply IH. intros t' w' Hin. apply H. now right.
  - apply IH. intros t' w' Hin. apply H. now right.
Qed.

Lemma skipped_token_stays (mappings : table) (k : str) (v : pyval) (a b : str) :
  token_keys (map fst mappings) = true ->
  In (k, v) mappings -> truthy v = false ->
  replace_in_str (a ++ k ++ b) mappings
  = replace_in_str a mappings ++ k ++ replace_in_str b mappings.
Proof.
  intros TK Hin F.
  pose proof TK as TK'. apply andb_true_iff in TK' as [TB TP].
  rewrite forallb_forall in TB.
  assert (K : In k (map fst mappings))
    by (change k with (fst (k, v)); now apply in_map).
  destruct (brace_token_inv k (TB _ K)) as [bk [Ek Hbk]].
  apply token_stays_through with bk; try assumption.
  intros t w Hin' T.
  assert (K' : In t (map fst mappings))
    by (change t with (fst (t, w)); now apply in_map).
  destruct (brace_token_inv t (TB _ K')) as [bt [Et Hbt]].
  exists bt. split; [assumption|]. split; [assumption|].
  apply apart_incomparable. apply pairwise_apart_In with (map fst mappings);
    try assumption.
  intros ->.
  assert (w = v).
  { apply (NoDup_keys_functional mappings k); try assumption.
    now apply pairwise_apart_NoDup. }
  congruence.
Qed.

Lemma replace_in_str_empty (mappings : table) :
  Forall (fun entry => fst entry <> []) mappings ->
  replace_in_str [] mappings = [].
Proof.
  induction 1 as [|[k v] m Hk _ IH]; [reflexivity|].
  rewrite replace_in_str_cons. simpl in *.
  destruct (truthy v); [|assumption]. now rewrite replace_nil.
Qed.

Lemma token_keys_nonempty (mappings : table) :
  token_keys (map fst mappings) = true ->
  Forall (fun entry => fst entry <> []) mappings.
Proof.
  intros TK. apply andb_true_iff in TK as [TB _].
  rewrite forallb_forall in TB. apply Forall_forall. intros e He.
  assert (K : In (fst e) (map fst mappings)) by now apply in_map.
  destruct (brace_token_inv _ (TB _ K)) as [b [-> _]]. discriminate.
Qed.

Lemma replace_placeholders_str (s : str) (mappings : table) :
  replace_placeholders (VStr s) mappings = VStr (replace_in_str s mappings).
Proof. reflexivity. Qed.

(** C2 (amended).  For every string and every table with non-empty keys,
    the result is the one the turns of the table describe: in the order of
    the table, the token of each truthy value (not [None], not the empty
    string, not [0]) has all its occurrences in the current text replaced
    by the text of the value, and the entry of a value that is not truthy
    leaves the text as it is.  In a table of tokens (every table of
    [mapping] is one), each occurrence of a token whose value is not truthy
    is still in the result, the substitution going on to its left and to
    its right.  For a member of a guild without icon, [{guild.icon}] is
    returned as it is. *)
Theorem C2_truthy_values_substituted :
  (forall (s s' : str) (mappings : table),
      Forall (fun entry => fst entry <> []) mappings ->
      (replace_placeholders (VStr s) mappings = VStr s'
       <-> substituted truthy mappings s s'))
  /\ (forall (mappings : table) (k : str) (v : pyval) (a b : str),
        token_keys (map fst mappings) = true ->
        In (k, v) mappings -> truthy v = false ->
        replace_in_str (a ++ k ++ b) mappings
        = replace_in_str a mappings ++ k ++ replace_in_str b mappings)
  /\ (forall user message level xp,
        token_keys (map fst (mapping user message level xp)) = true)
  /\ (forall user message level xp,
        guild_icon (guild user) = None ->
        replace_placeholders (VStr (py "{guild.icon}"))
          (mapping (Some user) message level xp)
        = VStr (py "{guild.icon}")).
Proof.
  split; [|split; [|split; [exact mapping_token_keys|]]].
  - intros s s' mappings NE. rewrite (substituted_iff truthy mappings s s' NE).
    simpl. rewrite replace_in_str_turns. split; [now intros [= <-] | now intros ->].
  - exact skipped_token_stays.
  - intros user message level xp Hicon.
    change (mapping (Some user) message level xp) with (user_table user).
    rewrite replace_placeholders_str. f_equal.
    pose proof (mapping_token_keys (Some user) message level xp) as TK.
    change (mapping (Some user) message level xp) with (user_table user) in TK.
    assert (Hin : In (py "{guild.icon}", PNone) (user_table user)).
    { unfold user_table. rewrite Hicon. simpl. tauto. }
    pose proof (skipped_token_stays (user_table user) (py "{guild.icon}")
                  PNone [] [] TK Hin eq_refl) as P.
    rewrite replace_in_str_empty in P by now apply token_keys_nonempty.
    now rewrite app_nil_l, app_nil_r in P.
Qed.

(** C2 as stated fails: a value that is not [None] but is not truthy is
    skipped.  The boost count [0] of a guild is not [None], and
    [{guild.boost_count}] is returned as it is, not as [0]. *)
Lemma C2_zero_value_left_in_text :
  In (py "{guild.boost_count}", PInt 0) (mapping (Some newcomer) None None None)
  /\ non_null (PInt 0) = true
  /\ replace_placeholders (VStr (py "{guild.boost_count}"))
       (mapping (Some newcomer) None None None)
     = VStr (py "{guild.boost_count}")
  /\ ~ substituted non_null (mapping (Some newcomer) None None None)
         (py "{guild.boost_count}") (py "{guild.boost_count}").
Proof.
  split; [simpl; tauto|]. split; [reflexivity|]. split; [vm_compute; reflexivity|].
  intros H. apply substituted_iff in H.
  - vm_compute in H. discriminate H.
  - apply token_keys_nonempty. apply mapping_token_keys.
Qed.

Lemma C2_witness :
  Forall (fun entry : str * pyval => fst entry <> [])
    (mapping (Some newcomer) None None None)
  /\ substituted truthy (mapping (Some newcomer) None None None)
       (py "hi {user.name}") (py "hi Ann")
  /\ replace_in_str (py "a" ++ py "{user.avatar}" ++ py "b")
       (mapping (Some newcomer) None None None)
     = replace_in_str (py "a") (mapping (Some newcomer) None None None)
       ++ py "{user.avatar}"
       ++ replace_in_str (py "b") (mapping (Some newcomer) None None None)
  /\ replace_placeholders (VStr (py "{guild.icon}"))
       (mapping (Some newcomer) None None None)
     = VStr (py "{guild.icon}").
Proof.
  assert (NE : Forall (fun entry : str * pyval => fst entry <> [])
                 (mapping (Some newcomer) None None None))
    by (repeat constructor; discriminate).
  split; [exact NE|]. split; [|split].
  - apply (proj1 C2_truthy_values_substituted (py "hi {user.name}")
             (py "hi Ann") (mapping (Some newcomer) None None None) NE).
    vm_compute. reflexivity.
  - apply (proj1 (proj2 C2_truthy_values_substituted)
             (mapping (Some newcomer) None None None)
             (py "{user.avatar}") PNone).
    + vm_compute. reflexivity.
    + simpl. tauto.
    + reflexivity.
  - apply (proj2 (proj2 (proj2 C2_truthy_values_substituted)) newcomer).
    reflexivity.
Defined.

(** ** Shape *)

Lemma Forall2_map_r {A B : Type} (R : A -> B -> Prop) (f : A -> B) (l : list A) :
  Forall (fun x => R x (f x)) l -> Forall2 R l (map f l).
Proof. induction 1; simpl; constructor; assumption. Qed.

Lemma replace_placeholders_shape (text : value) (mappings : table) :
  same_shape text (replace_placeholders text mappings).
Proof.
  induction text as [s | items IH | items IH | v] using value_ind; simpl.
  - constructor.
  - constructor. apply Forall2_map_r.
    apply Forall_forall. intros [k v] Hin. rewrite Forall_forall in IH.
    split; [reflexivity | exact (IH _ Hin)].
  - constructor. now apply Forall2_map_r.
  - constructor.
Qed.

Lemma contains_nil (s : str) : contains [] s = true.
Proof. destruct s; reflexivity. Qed.

Lemma replace_in_str_absent (s : str) (mappings : table) :
  (forall k, In k (map fst mappings) -> contains k s = false) ->
  replace_in_str s mappings = s.
Proof.
  induction mappings as [|[k v] m IH]; intros H; [reflexivity|].
  rewrite replace_in_str_cons. simpl replace_entry.
  assert (Hk : contains k s = false) by (apply H; now left).
  assert (E : (if truthy v then replace k (py_str v) s else s) = s).
  { destruct (truthy v); [|reflexivity]. apply replace_absent; [|assumption].
    intros ->. rewrite contains_nil in Hk. discriminate. }
  rewrite E. apply IH. intros k' Hk'. apply H. now right.
Qed.

Lemma replace_placeholders_absent (text : value) (mappings : table) :
  (forall k, In k (map fst mappings) -> mentions k text = false) ->
  replace_placeholders text mappings = text.
Proof.
  induction text as [s | items IH | items IH | v] using value_ind;
    intros H; simpl.
  - f_equal. now apply replace_in_str_absent.
  - f_equal. rewrite <- (map_id items) at 2. apply map_ext_in.
    intros [k v] Hin. f_equal. rewrite Forall_forall in IH.
    apply (IH _ Hin). intros k' Hk'. specialize (H k' Hk'). simpl in H.
    simpl snd. destruct (mentions k' v) eqn:E; [|reflexivity].
    rewrite <- H. symmetry. apply existsb_exists. exists (k, v). now split.
  - f_equal. rewrite <- (map_id items) at 2. apply map_ext_in.
    intros v Hin. rewrite Forall_forall in IH.
    apply (IH _ Hin). intros k' Hk'. specialize (H k' Hk'). simpl in H.
    destruct (mentions k' v) eqn:E; [|reflexivity].
    rewrite <- H. symmetry. apply existsb_exists. exists v. now split.
  - reflexivity.
Qed.

(** C6.  [replace_placeholders] is a total function that returns a value
    of the same shape as its argument: a dictionary with the same keys in
    the same order and each value substituted, a list of the same length
    with each item substituted in place, and any other value itself.  A
    text in which no key of the table occurs is returned equal to
    itself. *)
Theorem C6_substitution_total_and_shape_preserving :
  (forall text mappings, same_shape text (replace_placeholders text mappings))
  /\ (forall items mappings,
        exists items',
          replace_placeholders (VDict items) mappings = VDict items'
          /\ map fst items' = map fst items
          /\ map snd items'
             = map (fun v => replace_placeholders v mappings) (map snd items))
  /\ (forall items mappings,
        exists items',
          replace_placeholders (VList items) mappings = VList items'
          /\ length items' = length items
          /\ items' = map (fun v => replace_placeholders v mappings) items)
  /\ (forall v mappings, replace_placeholders (VOther v) mappings = VOther v)
  /\ (forall text mappings,
        (forall k, In k (map fst mappings) -> mentions k text = false) ->
        replace_placeholders text mappings = text).
Proof.
  split; [exact replace_placeholders_shape|].
  split; [|split; [|split; [reflexivity | exact replace_placeholders_absent]]].
  - intros items mappings. eexists. split; [reflexivity|].
    rewrite !map_map. split; apply map_ext; now intros [k v].
  - intros items mappings. eexists. split; [reflexivity|].
    split; [apply length_map | reflexivity].
Qed.

Lemma C6_witness :
  (forall k, In k (map fst (mapping None None (Some 5%Z) None)) ->
             mentions k (VDict [ (py "{level}", VStr (py "level 5"));
                                 (py "b", VList [VStr (py "{xp}"); VOther PNone]) ])
             = false)
  /\ replace_placeholders
       (VDict [ (py "{level}", VStr (py "level 5"));
                (py "b", VList [VStr (py "{xp}"); VOther PNone]) ])
       (mapping None None (Some 5%Z) None)
     = VDict [ (py "{level}", VStr (py "level 5"));
               (py "b", VList [VStr (py "{xp}"); VOther PNone]) ].
Proof.
  assert (H : forall k, In k (map fst (mapping None None (Some 5%Z) None)) ->
              mentions k (VDict [ (py "{level}", VStr (py "level 5"));
                                  (py "b", VList [VStr (py "{xp}"); VOther PNone]) ])
              = false).
  { intros k [<- | [<- | []]]; reflexivity. }
  split; [exact H|].
  apply (proj2 (proj2 (proj2 (proj2 C6_substitution_total_and_shape_preserving)))).
  exact H.
Defined.

Example substitute_nested :
  replace_placeholders
    (VDict [ (py "a", VStr (py "{level}"));
             (py "b", VList [VStr (py "{level.previous}")]) ])
    (mapping None None (Some 5%Z) None)
  = VDict [ (py "a", VStr (py "5")); (py "b", VList [VStr (py "4")]) ].
Proof. reflexivity. Qed.

(** ** Cutting and stripping *)

Lemma split_once_absent (c : ascii) (s : str) :
  ~ In c s -> split_once c s = [s].
Proof.
  induction s as [|a s IH]; intros H; [reflexivity|].
  simpl. destruct (ascii_dec a c) as [-> | N].
  - exfalso. apply H. now left.
  - rewrite IH; [reflexivity|]. intros F. apply H. now right.
Qed.

Lemma split_once_present (c : ascii) (s : str) :
  In c s ->
  exists key value, split_once c s = [key; value]
                    /\ s = key ++ c :: value /\ ~ In c key.
Proof.
  induction s as [|a s IH]; intros H; [contradiction|].
  simpl. destruct (ascii_dec a c) as [-> | N].
  - exists [], s. repeat split. intros [].
  - destruct H as [-> | H]; [congruence|].
    destruct (IH H) as [key [value [E [-> Hk]]]]. rewrite E.
    exists (a :: key), value. repeat split.
    intros [F | F]; [congruence | contradiction].
Qed.

Lemma split_once_two (c : ascii) (s key value : str) :
  split_once c s = [key; value] -> s = key ++ c :: value /\ ~ In c key.
Proof.
  intros E. destruct (in_dec ascii_dec c s) as [H | H].
  - destruct (split_once_present c s H) as [k [v [E' [Hs Hk]]]].
    rewrite E in E'. injection E' as -> ->. now split.
  - rewrite split_once_absent in E by assumption. discriminate.
Qed.

Lemma split_once_colon_iff (s : str) :
  In ":" s <-> exists key value, split_once ":" s = [key; value].
Proof.
  split.
  - intros H. destruct (split_once_present ":" s H) as [k [v [E _]]]. eauto.
  - intros [k [v E]]. apply split_once_two in E as [-> _].
    apply in_or_app. right. now left.
Qed.

Lemma lstrip_set_cut (f : ascii -> bool) (s : str) :
  exists gone, s = gone ++ lstrip_set f s /\ forallb f gone = true
               /\ match lstrip_set f s with
                  | c :: _ => f c = false
                  | [] => True
                  end.
Proof.
  induction s as [|c s IH].
  - exists []. repeat split.
  - simpl. destruct (f c) eqn:E.
    + destruct IH as [gone [Hs [Hg Hh]]]. exists (c :: gone).
      split; [simpl; now f_equal|]. split; [simpl; now rewrite E | assumption].
    + exists []. repeat split. assumption.
Qed.


Lemma lstrip_set_keeps (f : ascii -> bool) (s : str) (c : ascii) :
  In c s -> f c = false -> In c (lstrip_set f s).
Proof.
  induction s as [|a s IH]; intros H F; [contradiction|].
  simpl. destruct (f a) eqn:E; [|assumption].
  destruct H as [-> | H]; [congruence | now apply IH].
Qed.

Lemma rstrip_set_keeps (f : ascii -> bool) (s : str) (c : ascii) :
  In c s -> f c = false -> In c (rstrip_set f s).
Proof.
  intros H F. unfold rstrip_set. apply in_rev. rewrite rev_involutive.
  apply lstrip_set_keeps; [now apply in_rev in H | assumption].
Qed.

Lemma strip_keeps (s : str) (c : ascii) :
  In c s -> isspace c = false -> In c (strip s).
Proof.
  intros H F. unfold strip, strip_set.
  apply rstrip_set_keeps; [|assumption]. now apply lstrip_set_keeps.
Qed.

(** A segment with a colon is not the marker. *)
Lemma colon_not_marker (attribute : str) :
  In ":" attribute -> is_embed_marker attribute = false.
Proof.
  intros H. unfold is_embed_marker. apply str_eqb_neq. intros E.
  assert (F : In (lower_char ":") (lower (strip attribute))).
  { unfold lower. apply in_map. now apply strip_keeps. }
  rewrite E in F. vm_compute in F. intuition discriminate.
Qed.

(** ** The loop of [parse] *)

Lemma parse_attributes_app (self : Builder) (l1 l2 : list str) :
  parse_attributes self (l1 ++ l2)
  = match parse_attributes self l1 with
    | Return self' => parse_attributes self' l2
    | Raise e self' => Raise e self'
    end.
Proof.
  revert self. induction l1 as [|a l1 IH]; intros self; [reflexivity|].
  simpl. destruct (parse_attribute self a); [apply IH | reflexivity].
Qed.


Lemma parse_attribute_colon (self : Builder) (attribute key value : str) :
  split_once ":" attribute = [key; value] ->
  parse_attribute self attribute
  = assign self (normal_key key) (normal_value value).
Proof.
  intros E. unfold parse_attribute.
  rewrite colon_not_marker.
  - now rewrite E.
  - apply split_once_colon_iff. eauto.
Qed.





(** ** Assignments *)

Ltac split_key k :=
  repeat match goal with
         | |- context [str_eqb k ?x] =>
             let E := fresh "E" in
             destruct (str_eqb k x) eqn:E;
             [apply str_eqb_eq in E; try subst k | apply str_eqb_neq in E]
         | H : context [str_eqb k ?x] |- _ =>
             let E := fresh "E" in
             destruct (str_eqb k x) eqn:E;
             [apply str_eqb_eq in E; try subst k | apply str_eqb_neq in E]
         end.

(** An unrecognized key assigns nothing. *)
Lemma assign_unrecognized (self : Builder) (key value : str) :
  ~ In key recognized_keys -> assign self key value = Return self.
Proof.
  intros H. unfold assign. split_key key; try reflexivity;
    exfalso; apply H; simpl; tauto.
Qed.

(** A recognized key assigns its attribute, unless [int] raises. *)
Lemma assign_recognized (self self' : Builder) (key value : str) :
  In key recognized_keys ->
  assign self key value = Return self' ->
  written key value = Some (get_attr self' key).
Proof.
  intros H A. simpl in H.
  destruct H as [<- | [<- | [<- | [<- | [<- | [<- | [<- | [<- | []]]]]]]]];
    unfold assign in A; simpl in A;
    try (injection A as <-; reflexivity).
  unfold written. simpl.
  destruct (int16 value); [injection A as <-; reflexivity | discriminate].
Qed.

(** The assignment for one key leaves the attributes of the other names. *)
Lemma assign_other (self self' : Builder) (key value name : str) :
  key <> name ->
  assign self key value = Return self' ->
  get_attr self' name = get_attr self name.
Proof.
  intros N A. unfold assign in A.
  split_key key;
    try (destruct (int16 value); [|discriminate]);
    injection A as <-; try reflexivity;
    unfold get_attr; simpl; split_key name;
    first [reflexivity | exfalso; apply N; reflexivity | congruence].
Qed.

Lemma assign_changes_unset (key value : str) :
  In key recognized_keys -> assign unset key value <> Return unset.
Proof.
  intros H. simpl in H.
  destruct H as [<- | [<- | [<- | [<- | [<- | [<- | [<- | [<- | []]]]]]]]];
    unfold assign; simpl; try discriminate.
  destruct (int16 value); discriminate.
Qed.

(** C8.  A segment with a colon whose normalized key is none of the eight
    recognized keys is passed without exception and leaves the builder as
    it was; a segment has a colon exactly when the cut gives a key and a
    value; the recognized keys are eight, and each of them does change the
    builder or raise. *)
Theorem C8_unknown_key_ignored :
  (forall (self : Builder) (attribute key value : str),
      split_once ":" attribute = [key; value] ->
      ~ In (normal_key key) recognized_keys ->
      parse_attribute self attribute = Return self)
  /\ (forall attribute : str,
        In ":" attribute
        <-> exists key value, split_once ":" attribute = [key; value])
  /\ length recognized_keys = 8
  /\ (forall key value : str,
        In key recognized_keys -> assign unset key value <> Return unset).
Proof.
  split; [|split; [exact split_once_colon_iff |
                   split; [reflexivity | exact assign_changes_unset]]].
  intros self attribute key value E H.
  rewrite (parse_attribute_colon self attribute key value E).
  now apply assign_unrecognized.
Qed.

Lemma C8_witness :
  split_once ":" (py "{colour: FF0000}") = [py "{colour"; py " FF0000}"]
  /\ ~ In (normal_key (py "{colour")) recognized_keys
  /\ parse_attribute unset (py "{colour: FF0000}") = Return unset
  /\ In (py "title") recognized_keys
  /\ assign unset (py "title") (py "A") <> Return unset.
Proof.
  assert (U : ~ In (normal_key (py "{colour")) recognized_keys).
  { vm_compute. intuition discriminate. }
  assert (T : In (py "title") recognized_keys) by (simpl; tauto).
  split; [reflexivity|]. split; [exact U|]. split; [|split; [exact T|]].
  - apply (proj1 C8_unknown_key_ignored unset (py "{colour: FF0000}")
             (py "{colour") (py " FF0000}")); [reflexivity | exact U].
  - apply (proj2 (proj2 (proj2 C8_unknown_key_ignored)) (py "title") (py "A")).
    exact T.
Defined.

(** ** The last assignment stays *)

Lemma parse_attributes_keeps (name : str) (after : list str) :
  (forall a k v, In a after -> split_once ":" a = [k; v] -> normal_key k <> name) ->
  forall self self',
    parse_attributes self after = Return self' ->
    get_attr self' name = get_attr self name.
Proof.
  induction after as [|a after IH]; intros H self self' P.
  - now injection P as <-.
  - simpl in P. destruct (parse_attribute self a) as [self1 | e self1] eqn:A;
      [|discriminate].
    rewrite (IH (fun a' k v Hin => H a' k v (or_intror Hin)) self1 self' P).
    unfold parse_attribute in A.
    destruct (is_embed_marker a); [now injection A as <-|].
    destruct (split_once ":" a) as [|k [|v [|]]] eqn:S; try discriminate.
    apply (assign_other self self1 (normal_key k) (normal_value v));
      [|assumption].
    apply (H a k v); [now left | assumption].
Qed.

(** C7.  When [parse] returns, the attribute of a recognized key holds
    what the last segment with this key wrote: its normalized value, or
    for [color] the integer of that value.  [parse("{title: A}$v{title: B}")]
    leaves [B] as title. *)
Theorem C7_last_write_wins :
  (forall (self self' : Builder) (flags : str) (before after : list str)
          (attribute key value : str),
      split (py "$v") flags = before ++ attribute :: after ->
      split_once ":" attribute = [key; value] ->
      In (normal_key key) recognized_keys ->
      (forall a k v, In a after -> split_once ":" a = [k; v] ->
                     normal_key k <> normal_key key) ->
      parse self flags = Return self' ->
      written (normal_key key) (normal_value value)
      = Some (get_attr self' (normal_key key)))
  /\ parse unset (py "{title: A}$v{title: B}")
     = Return (mkBuilder (Some (py "B")) None None None None None None None).
Proof.
  split; [|reflexivity].
  intros self self' flags before after attribute key value E S R L P.
  unfold parse in P. rewrite E, parse_attributes_app in P.
  destruct (parse_attributes self before) as [self1 | e self1]; [|discriminate].
  simpl in P.
  rewrite (parse_attribute_colon self1 attribute key value S) in P.
  destruct (assign self1 (normal_key key) (normal_value value))
    as [self2 | e self2] eqn:A; [|discriminate].
  rewrite (parse_attributes_keeps (normal_key key) after L self2 self' P).
  now apply assign_recognized with self1.
Qed.

Lemma C7_witness :
  split (py "$v") (py "{color: 1}$v{Title: A}$v{title: B}$v{url: u}")
  = [py "{color: 1}"; py "{Title: A}"] ++ py "{title: B}" :: [py "{url: u}"]
  /\ split_once ":" (py "{title: B}") = [py "{title"; py " B}"]
  /\ In (normal_key (py "{title")) recognized_keys
  /\ parse unset (py "{color: 1}$v{Title: A}$v{title: B}$v{url: u}")
     = Return (mkBuilder (Some (py "B")) None (Some 1%Z) (Some (py "u"))
                 None None None None)
  /\ written (normal_key (py "{title")) (normal_value (py " B}"))
     = Some (get_attr (mkBuilder (Some (py "B")) None (Some 1%Z) (Some (py "u"))
                         None None None None)
               (normal_key (py "{title"))).
Proof.
  assert (R : In (normal_key (py "{title")) recognized_keys)
    by (vm_compute; tauto).
  split; [reflexivity|]. split; [reflexivity|]. split; [exact R|].
  split; [vm_compute; reflexivity|].
  apply (proj1 C7_last_write_wins unset _
           (py "{color: 1}$v{Title: A}$v{title: B}$v{url: u}")
           [py "{color: 1}"; py "{Title: A}"] [py "{url: u}"]
           (py "{title: B}") (py "{title") (py " B}")).
  - reflexivity.
  - reflexivity.
  - exact R.
  - intros a k v [<- | []] S. vm_compute in S. inversion S; subst k v.
    vm_compute. discriminate.
  - vm_compute. reflexivity.
Defined.

(** ** Normalization *)

Lemma lstrip_set_snoc (f : ascii -> bool) (s : str) (c : ascii) :
  f c = false -> lstrip_set f (s ++ [c]) = lstrip_set f s ++ [c].
Proof.
  intros F. induction s as [|a s IH]; simpl.
  - now rewrite F.
  - destruct (f a); [assumption | reflexivity].
Qed.

Lemma rstrip_set_cons (f : ascii -> bool) (c : ascii) (s : str) :
  f c = false -> rstrip_set f (c :: s) = c :: rstrip_set f s.
Proof.
  intros F. unfold rstrip_set. simpl rev.
  rewrite lstrip_set_snoc by assumption. rewrite rev_app_distr. reflexivity.
Qed.





(** ** Base-16 literals *)

Lemma blank_char (c : ascii) :
  int_space c = true ->
  hex_digit c = None /\ c <> "_" /\ c <> "+" /\ c <> "-".
Proof.
  destruct c as [[|] [|] [|] [|] [|] [|] [|] [|]]; intros H;
    try discriminate H; repeat split; discriminate.
Qed.

Lemma hex_char (c : ascii) :
  is_hex c = true ->
  int_space c = false /\ c <> "_" /\ c <> "+" /\ c <> "-"
  /\ in_chars ["x"; "X"] c = false.
Proof.
  destruct c as [[|] [|] [|] [|] [|] [|] [|] [|]]; intros H;
    try discriminate H; repeat split; discriminate.
Qed.

Lemma is_hex_digit (c : ascii) :
  is_hex c = true -> hex_digit c = Some (digit_value c).
Proof. unfold is_hex, digit_value. destruct (hex_digit c); congruence. Qed.

Lemma hex_digit_is_hex (c : ascii) (d : Z) :
  hex_digit c = Some d -> is_hex c = true /\ digit_value c = d.
Proof. unfold is_hex, digit_value. intros ->. now split. Qed.

Lemma hex_from_cons (acc : Z) (c : ascii) (digits : str) :
  hex_from acc (c :: digits) = hex_from (16 * acc + digit_value c) digits.
Proof. reflexivity. Qed.

Lemma hex_from_app (acc : Z) (a b : str) :
  hex_from acc (a ++ b) = hex_from (hex_from acc a) b.
Proof. apply fold_left_app. Qed.

Lemma lstrip_set_lead (f : ascii -> bool) (lead s : str) :
  forallb f lead = true ->
  match s with
  | c :: _ => f c = false
  | [] => True
  end ->
  lstrip_set f (lead ++ s) = s.
Proof.
  intros L H. induction lead as [|a lead IH]; simpl in *.
  - destruct s as [|c r]; [reflexivity|]. simpl. now rewrite H.
  - apply andb_true_iff in L as [La L]. rewrite La. now apply IH.
Qed.

Lemma int16_digits_group (acc : Z) (g rest : str) :
  forallb is_hex g = true ->
  int16_digits acc (g ++ rest) = int16_digits (hex_from acc g) rest.
Proof.
  revert acc. induction g as [|c g IH]; intros acc H; [reflexivity|].
  simpl in H. apply andb_true_iff in H as [Hc Hg].
  simpl app. cbn [int16_digits]. rewrite (is_hex_digit c Hc).
  rewrite IH by assumption. reflexivity.
Qed.

Lemma int16_digits_blank (acc : Z) (trail : str) :
  forallb int_space trail = true -> int16_digits acc trail = Some acc.
Proof.
  destruct trail as [|c r]; intros H; [reflexivity|].
  cbn [int16_digits]. rewrite H.
  simpl in H. apply andb_true_iff in H as [Hc _].
  destruct (blank_char c Hc) as [-> [N _]].
  destruct (ascii_dec c "_"); [contradiction | reflexivity].
Qed.

Lemma int16_digits_groups (acc : Z) (gs : list str) (trail : str) :
  Forall hex_group gs -> forallb int_space trail = true ->
  int16_digits acc (underscored gs ++ trail)
  = Some (hex_from acc (concat gs)).
Proof.
  intros G T. revert acc. induction G as [|g gs [Hne Hg] _ IH]; intros acc.
  - now apply int16_digits_blank.
  - destruct g as [|c g]; [congruence|].
    simpl in Hg. apply andb_true_iff in Hg as [Hc Hg].
    unfold underscored. simpl flat_map. simpl concat. fold (underscored gs).
    simpl app. cbn [int16_digits]. change (hex_digit "_") with (@None Z).
    cbv iota. destruct (ascii_dec "_" "_"); [|congruence].
    rewrite (is_hex_digit c Hc), <- app_assoc.
    rewrite int16_digits_group by assumption.
    rewrite IH. f_equal. rewrite hex_from_cons, hex_from_app. reflexivity.
Qed.

Lemma follows_digit (g : str) (gs : list str) (trail : str) (x : ascii) (r : str) :
  forallb is_hex g = true -> forallb int_space trail = true ->
  g ++ underscored gs ++ trail = x :: r ->
  in_chars ["x"; "X"] x = false.
Proof.
  intros Hg Ht E. destruct g as [|c g].
  - destruct gs as [|g' gs].
    + simpl in E. subst trail. simpl in Ht.
      apply andb_true_iff in Ht as [Hx _].
      destruct x as [[|] [|] [|] [|] [|] [|] [|] [|]]; try discriminate Hx;
        reflexivity.
    + simpl in E. injection E as <- _. reflexivity.
  - simpl in E. injection E as <- _. simpl in Hg.
    apply andb_true_iff in Hg as [Hc _]. now apply hex_char.
Qed.

Lemma skip_base_prefix_literal (prefix g : str) (gs : list str) (trail : str) :
  In prefix [[]; py "0x"; py "0X"; py "0x_"; py "0X_"] ->
  hex_group g -> forallb int_space trail = true ->
  skip_base_prefix (prefix ++ g ++ underscored gs ++ trail)
  = g ++ underscored gs ++ trail.
Proof.
  intros P [Hne Hg] T. destruct g as [|c g]; [congruence|].
  simpl in Hg. apply andb_true_iff in Hg as [Hc Hg].
  destruct (hex_char c Hc) as [_ [Hu _]].
  destruct P as [<- | [<- | [<- | [<- | [<- | []]]]]].
  - simpl app. unfold skip_base_prefix.
    destruct (g ++ underscored gs ++ trail) as [|x r] eqn:E; [reflexivity|].
    rewrite (follows_digit g gs trail x r Hg T E).
    now rewrite andb_false_r.
  - simpl. destruct (ascii_dec c "_"); [contradiction | reflexivity].
  - simpl. destruct (ascii_dec c "_"); [contradiction | reflexivity].
  - reflexivity.
  - reflexivity.
Qed.

Lemma int16_unsigned_literal (prefix g : str) (gs : list str) (trail : str) :
  In prefix [[]; py "0x"; py "0X"; py "0x_"; py "0X_"] ->
  hex_group g -> Forall hex_group gs -> forallb int_space trail = true ->
  int16_unsigned (prefix ++ g ++ underscored gs ++ trail)
  = Some (hex_value (g ++ concat gs)).
Proof.
  intros P G GS T. unfold int16_unsigned.
  rewrite skip_base_prefix_literal by assumption.
  destruct G as [Hne Hg]. destruct g as [|c g]; [congruence|].
  simpl in Hg. apply andb_true_iff in Hg as [Hc Hg].
  cbn [app]. rewrite (is_hex_digit c Hc).
  rewrite int16_digits_group by assumption.
  rewrite int16_digits_groups by assumption.
  f_equal. unfold hex_value. rewrite hex_from_cons, hex_from_app.
  reflexivity.
Qed.

Lemma int16_of_literal (s : str) (n : Z) : hex_literal s n -> int16 s = Some n.
Proof.
  intros H. destruct H as [lead sign prefix g gs trail L T S P G GS].
  pose proof (int16_unsigned_literal prefix g gs trail P G GS T) as U.
  unfold int16.
  assert (Hd : exists c r, prefix ++ g ++ underscored gs ++ trail = c :: r
                           /\ int_space c = false /\ c <> "-" /\ c <> "+").
  { destruct G as [Hne Hg]. destruct g as [|c g]; [congruence|].
    simpl in Hg. apply andb_true_iff in Hg as [Hc _].
    destruct (hex_char c Hc) as [B [_ [Np [Nm _]]]].
    destruct P as [<- | [<- | [<- | [<- | [<- | []]]]]];
      eexists; eexists; (split; [reflexivity|]);
      repeat split; try assumption; try reflexivity; discriminate. }
  destruct Hd as [c [r [E [B [Nm Np]]]]].
  destruct S as [<- | [<- | [<- | []]]].
  - rewrite app_nil_l. rewrite lstrip_set_lead; [| assumption | now rewrite E].
    rewrite E in *. destruct (ascii_dec c "-"); [contradiction|].
    destruct (ascii_dec c "+"); [contradiction|].
    rewrite U. change (str_eqb [] ["-"]) with false. cbv iota.
    now rewrite Z.mul_1_l.
  - rewrite lstrip_set_lead; [| assumption | reflexivity].
    cbn [app]. destruct (ascii_dec "+" "-"); [discriminate|].
    destruct (ascii_dec "+" "+"); [|congruence].
    rewrite U. change (str_eqb ["+"] ["-"]) with false. cbv iota.
    now rewrite Z.mul_1_l.
  - rewrite lstrip_set_lead; [| assumption | reflexivity].
    cbn [app]. destruct (ascii_dec "-" "-"); [|congruence].
    rewrite U. change (str_eqb ["-"] ["-"]) with true. cbv iota.
    cbn [option_map]. apply f_equal. lia.
Qed.

Lemma int16_digits_inv (r : str) :
  forall (acc m : Z),
    int16_digits acc r = Some m ->
    exists g gs trail,
      r = g ++ underscored gs ++ trail
      /\ forallb is_hex g = true
      /\ Forall hex_group gs
      /\ forallb int_space trail = true
      /\ m = hex_from acc (g ++ concat gs).
Proof.
  remember (length r) as n eqn:Hn. revert r Hn.
  induction n as [n IH] using lt_wf_ind. intros r Hn acc m H.
  destruct r as [|c r].
  { injection H as <-. exists [], [], []. repeat split. constructor. }
  cbn [int16_digits] in H.
  destruct (hex_digit c) as [d|] eqn:D.
  - (* one more digit of the current group *)
    destruct (hex_digit_is_hex c d D) as [Hc Hd].
    destruct (IH (length r)) with (r := r) (acc := (16 * acc + d)%Z) (m := m)
      as [g [gs [trail [-> [Hg [Hgs [Ht ->]]]]]]];
      [subst n; simpl; lia | reflexivity | assumption |].
    exists (c :: g), gs, trail. repeat split; try assumption.
    + simpl. now rewrite Hc.
    + simpl app. rewrite hex_from_cons. now rewrite Hd.
  - destruct (ascii_dec c "_") as [-> | N].
    + (* an underscore, then the first digit of the next group *)
      destruct r as [|c' r']; [discriminate|].
      destruct (hex_digit c') as [d|] eqn:D'; [|discriminate].
      destruct (hex_digit_is_hex c' d D') as [Hc Hd].
      destruct (IH (length r')) with (r := r') (acc := (16 * acc + d)%Z) (m := m)
        as [g [gs [trail [-> [Hg [Hgs [Ht ->]]]]]]];
        [subst n; simpl; lia | reflexivity | assumption |].
      exists [], ((c' :: g) :: gs), trail. repeat split; try assumption.
      * unfold underscored. simpl. now rewrite <- app_assoc.
      * constructor; [|assumption]. split; [discriminate|].
        simpl. now rewrite Hc.
      * change ([] ++ concat ((c' :: g) :: gs)) with (c' :: (g ++ concat gs)).
        rewrite hex_from_cons. now rewrite Hd.
    + (* the blanks after the literal *)
      destruct (forallb int_space (c :: r)) eqn:B; [|discriminate].
      injection H as <-. exists [], [], (c :: r). repeat split.
      * constructor.
      * assumption.
Qed.

Lemma skip_base_prefix_inv (s : str) :
  exists prefix,
    s = prefix ++ skip_base_prefix s
    /\ In prefix [[]; py "0x"; py "0X"; py "0x_"; py "0X_"].
Proof.
  assert (Z0 : forall t, t = skip_base_prefix s -> s = t ->
                         exists prefix, s = prefix ++ skip_base_prefix s
      /\ In prefix [[]; py "0x"; py "0X"; py "0x_"; py "0X_"]).
  { intros t <- E. exists []. split; [exact E | now left]. }
  destruct s as [|c [|x r]]; try (apply (Z0 _ eq_refl); reflexivity).
  unfold skip_base_prefix in *.
  destruct (ascii_dec c "0") as [-> | N];
    [|apply (Z0 _ eq_refl); reflexivity].
  destruct (in_chars ["x"; "X"] x) eqn:X;
    [|apply (Z0 _ eq_refl); reflexivity].
  assert (Hx : x = "x" \/ x = "X").
  { apply in_chars_In in X. destruct X as [<- | [<- | []]]; tauto. }
  clear Z0. cbn [andb].
  destruct r as [|u r'].
  - destruct Hx as [-> | ->]; [exists (py "0x") | exists (py "0X")];
      (split; [reflexivity | simpl; tauto]).
  - destruct (ascii_dec u "_") as [-> | Nu].
    + destruct Hx as [-> | ->]; [exists (py "0x_") | exists (py "0X_")];
        (split; [reflexivity | simpl; tauto]).
    + destruct Hx as [-> | ->]; [exists (py "0x") | exists (py "0X")];
        (split; [reflexivity | simpl; tauto]).
Qed.

Lemma int16_unsigned_inv (r : str) (m : Z) :
  int16_unsigned r = Some m ->
  exists prefix g gs trail,
    r = prefix ++ g ++ underscored gs ++ trail
    /\ In prefix [[]; py "0x"; py "0X"; py "0x_"; py "0X_"]
    /\ hex_group g /\ Forall hex_group gs
    /\ forallb int_space trail = true
    /\ m = hex_value (g ++ concat gs).
Proof.
  unfold int16_unsigned. intros H.
  destruct (skip_base_prefix_inv r) as [prefix [Hr P]].
  destruct (skip_base_prefix r) as [|c body]; [discriminate|].
  destruct (hex_digit c) as [d|] eqn:D; [|discriminate].
  destruct (hex_digit_is_hex c d D) as [Hc Hd].
  destruct (int16_digits_inv body d m H)
    as [g [gs [trail [-> [Hg [Hgs [Ht ->]]]]]]].
  exists prefix, (c :: g), gs, trail. repeat split; try assumption.
  - discriminate.
  - simpl. now rewrite Hc.
  - unfold hex_value. simpl app. rewrite hex_from_cons. now rewrite Hd.
Qed.

Lemma literal_of_int16 (s : str) (n : Z) : int16 s = Some n -> hex_literal s n.
Proof.
  unfold int16. intros H.
  destruct (lstrip_set_cut int_space s) as [lead [Hs [L _]]].
  destruct (lstrip_set int_space s) as [|c r]; [discriminate|].
  destruct (ascii_dec c "-") as [-> | Nm].
  - destruct (int16_unsigned r) as [m|] eqn:U; [|discriminate].
    injection H as <-.
    destruct (int16_unsigned_inv r m U)
      as [prefix [g [gs [trail [-> [P [G [GS [T ->]]]]]]]]].
    rewrite Hs. replace (- hex_value (g ++ concat gs))%Z
      with ((if str_eqb ["-"] ["-"] then -1 else 1)
            * hex_value (g ++ concat gs))%Z
      by (change (str_eqb ["-"] ["-"]) with true; cbv iota; lia).
    now apply (hex_literal_intro lead ["-"] prefix g gs trail);
      try assumption; simpl; tauto.
  - destruct (ascii_dec c "+") as [-> | Np].
    + destruct (int16_unsigned_inv r n H)
        as [prefix [g [gs [trail [-> [P [G [GS [T ->]]]]]]]]].
      rewrite Hs. replace (hex_value (g ++ concat gs))
        with ((if str_eqb ["+"] ["-"] then -1 else 1)
              * hex_value (g ++ concat gs))%Z
        by (change (str_eqb ["+"] ["-"]) with false; cbv iota; lia).
      now apply (hex_literal_intro lead ["+"] prefix g gs trail);
        try assumption; simpl; tauto.
    + destruct (int16_unsigned_inv (c :: r) n H)
        as [prefix [g [gs [trail [E [P [G [GS [T ->]]]]]]]]].
      rewrite Hs, E. replace (hex_value (g ++ concat gs))
        with ((if str_eqb [] ["-"] then -1 else 1)
              * hex_value (g ++ concat gs))%Z
        by (change (str_eqb [] ["-"]) with false; cbv iota; lia).
      now apply (hex_literal_intro lead [] prefix g gs trail);
        try assumption; simpl; tauto.
Qed.

(** [int(s, 16)] returns a number exactly on the literals, and then the
    number the literal denotes. *)
Lemma int16_literal_iff (s : str) (n : Z) : int16 s = Some n <-> hex_literal s n.
Proof. split; [apply literal_of_int16 | apply int16_of_literal]. Qed.

Lemma int16_invalid_iff (s : str) :
  int16 s = None <-> ~ exists n, hex_literal s n.
Proof.
  split.
  - intros H [n Hn]. apply int16_of_literal in Hn. congruence.
  - intros H. destruct (int16 s) as [n|] eqn:E; [|reflexivity].
    exfalso. apply H. exists n. now apply literal_of_int16.
Qed.

(** Plain digits denote their positional value, however large. *)
Lemma int16_plain (digits : str) :
  hex_group digits -> int16 digits = Some (hex_value digits).
Proof.
  intros G. apply int16_literal_iff.
  pose proof (hex_literal_intro [] [] [] digits [] [] eq_refl eq_refl
                (or_introl eq_refl) (or_introl eq_refl) G (Forall_nil _)) as H.
  simpl in H. rewrite !app_nil_r in H.
  destruct (hex_value digits); exact H.
Qed.

Lemma hex_from_bound (digits : str) (acc : Z) :
  (0 <= acc)%Z -> (acc * 16 ^ Z.of_nat (length digits) <= hex_from acc digits)%Z.
Proof.
  revert acc. induction digits as [|c digits IH]; intros acc H.
  - simpl. lia.
  - rewrite hex_from_cons.
    assert (D : (0 <= digit_value c)%Z).
    { unfold digit_value, hex_digit, between, code.
      destruct c as [[|] [|] [|] [|] [|] [|] [|] [|]]; simpl; lia. }
    specialize (IH (16 * acc + digit_value c)%Z ltac:(lia)).
    change (length (c :: digits)) with (S (length digits)).
    rewrite Nat2Z.inj_succ, Z.pow_succ_r by lia.
    assert (P : (0 <= 16 ^ Z.of_nat (length digits))%Z) by (apply Z.pow_nonneg; lia).
    nia.
Qed.

Lemma assign_color (self : Builder) (value : str) :
  assign self (py "color") value
  = match int16 value with
    | Some n =>
        Return (mkBuilder (title self) (description self) (Some n) (url self)
                  (author self) (footer self) (thumbnail self) (image self))
    | None => Raise (InvalidLiteral value) self
    end.
Proof. reflexivity. Qed.

Lemma hex_value_large (c : ascii) (digits : str) :
  (1 <= digit_value c)%Z -> 6 <= length digits ->
  (16777215 < hex_value (c :: digits))%Z.
Proof.
  intros D L. unfold hex_value. rewrite hex_from_cons.
  pose proof (hex_from_bound digits (16 * 0 + digit_value c)%Z ltac:(lia)) as B.
  assert (P : (16 ^ 6 <= 16 ^ Z.of_nat (length digits))%Z)
    by (apply Z.pow_le_mono_r; lia).
  change (16 ^ 6)%Z with 16777216%Z in P. nia.
Qed.

(** C5.  A segment whose normalized key is [color] stores [int(value, 16)]
    as it is, or raises [InvalidLiteral] when there is no such integer.
    [int(s, 16)] returns [n] exactly when [s] is a base-16 literal denoting
    [n], and raises exactly when [s] is no literal.  A plain run of digits
    denotes its positional value; with seven digits or more and a first
    digit other than [0] this is above [0xFFFFFF], and is stored all the
    same.  [{color: FF0000}] stores [0xFF0000], [{color: zz}] raises. *)
Theorem C5_color_base16_unclamped :
  (forall (self : Builder) (attribute key value : str),
      split_once ":" attribute = [key; value] ->
      normal_key key = py "color" ->
      parse_attribute self attribute
      = match int16 (normal_value value) with
        | Some n =>
            Return (mkBuilder (title self) (description self) (Some n)
                      (url self) (author self) (footer self)
                      (thumbnail self) (image self))
        | None => Raise (InvalidLiteral (normal_value value)) self
        end)
  /\ (forall (s : str) (n : Z), int16 s = Some n <-> hex_literal s n)
  /\ (forall s : str, int16 s = None <-> ~ exists n, hex_literal s n)
  /\ (forall digits : str,
        hex_group digits -> int16 digits = Some (hex_value digits))
  /\ (forall (c : ascii) (digits : str),
        (1 <= digit_value c)%Z -> 6 <= length digits ->
        (16777215 < hex_value (c :: digits))%Z)
  /\ parse unset (py "{color: FF0000}")
     = Return (mkBuilder None None (Some 16711680%Z) None None None None None)
  /\ parse unset (py "{color: zz}") = Raise (InvalidLiteral (py "zz")) unset
  /\ parse unset (py "{color: 1000000}")
     = Return (mkBuilder None None (Some 16777216%Z) None None None None None)
  /\ parse unset (py "{color: -1}")
     = Return (mkBuilder None None (Some (-1)%Z) None None None None None).
Proof.
  split.
  { intros self attribute key value S K.
    rewrite (parse_attribute_colon self attribute key value S), K.
    apply assign_color. }
  split; [exact int16_literal_iff|].
  split; [exact int16_invalid_iff|].
  split; [exact int16_plain|].
  split; [exact hex_value_large|].
  repeat split; reflexivity.
Qed.

Lemma C5_witness :
  split_once ":" (py "{Color: ff_00_00}") = [py "{Color"; py " ff_00_00}"]
  /\ normal_key (py "{Color") = py "color"
  /\ parse_attribute unset (py "{Color: ff_00_00}")
     = match int16 (normal_value (py " ff_00_00}")) with
       | Some n =>
           Return (mkBuilder (title unset) (description unset) (Some n)
                     (url unset) (author unset) (footer unset)
                     (thumbnail unset) (image unset))
       | None => Raise (InvalidLiteral (normal_value (py " ff_00_00}"))) unset
       end
  /\ hex_group (py "1000000")
  /\ int16 (py "1000000") = Some (hex_value (py "1000000"))
  /\ (16777215 < hex_value (py "1000000"))%Z.
Proof.
  assert (G : hex_group (py "1000000")) by (split; [discriminate | reflexivity]).
  split; [reflexivity|]. split; [reflexivity|]. split; [|split; [exact G|split]].
  - apply (proj1 C5_color_base16_unclamped unset (py "{Color: ff_00_00}")
             (py "{Color") (py " ff_00_00}")); reflexivity.
  - apply (proj1 (proj2 (proj2 (proj2 C5_color_base16_unclamped)))). exact G.
  - apply (proj1 (proj2 (proj2 (proj2 (proj2 C5_color_base16_unclamped))))
             "1" (py "000000")); [vm_compute; discriminate | simpl; lia].
Defined.

(** C9.  [mapping] returns the table of the member when there is one,
    whatever the other arguments; without member, the table of a level
    other than [0]; without member and with no level or level [0], the
    table of an experience count other than [0]; and the table of the
    message only when none of these applies.  The keys of each table are
    the tokens of its event alone. *)
Theorem C9_first_truthy_argument_only :
  (forall user message level xp,
      mapping (Some user) message level xp = user_table user)
  /\ (forall message level xp,
        level <> 0%Z ->
        mapping None message (Some level) xp = level_table level)
  /\ (forall message level xp,
        level = None \/ level = Some 0%Z ->
        xp <> 0%Z ->
        mapping None message level (Some xp) = xp_table xp)
  /\ (forall message level xp,
        level = None \/ level = Some 0%Z ->
        xp = None \/ xp = Some 0%Z ->
        mapping None (Some message) level xp = message_table message)
  /\ (forall user, map fst (user_table user) = user_tokens)
  /\ (forall level, map fst (level_table level) = level_tokens)
  /\ (forall xp, map fst (xp_table xp) = xp_tokens)
  /\ (forall message, map fst (message_table message) = message_tokens).
Proof.
  split; [reflexivity|].
  split.
  { intros message level xp N. unfold mapping, if_int.
    destruct (Z.eqb_spec level 0); [contradiction | reflexivity]. }
  split.
  { intros message level xp [-> | ->] N; unfold mapping, if_int; simpl;
      destruct (Z.eqb_spec xp 0); try contradiction; reflexivity. }
  split.
  { intros message level xp [-> | ->] [-> | ->]; reflexivity. }
  repeat split; reflexivity.
Qed.

Lemma C9_witness :
  (7 <> 0)%Z
  /\ mapping None (Some (said "hello")) (Some 7%Z) (Some 120%Z) = level_table 7
  /\ mapping None (Some (said "hello")) (Some 0%Z) (Some 120%Z) = xp_table 120
  /\ mapping None (Some (said "hello")) (Some 0%Z) None
     = message_table (said "hello").
Proof.
  split; [discriminate|]. split; [|split].
  - apply (proj1 (proj2 C9_first_truthy_argument_only)). discriminate.
  - apply (proj1 (proj2 (proj2 C9_first_truthy_argument_only))).
    + now right.
    + discriminate.
  - apply (proj1 (proj2 (proj2 (proj2 C9_first_truthy_argument_only)))).
    + now right.
    + now left.
Defined.

(** C10.  Without member, a level [0] (an experience count [0]) gives the
    table [mapping] gives without level (without experience count): the
    empty table when nothing else is supplied.  The empty table changes no
    text, so [{level}] and [{level.previous}] ([{xp}] and [{xp.previous}])
    stay in the output. *)
Theorem C10_zero_level_or_xp_is_absent :
  mapping None None (Some 0%Z) None = []
  /\ mapping None None None (Some 0%Z) = []
  /\ (forall message xp,
        mapping None message (Some 0%Z) xp = mapping None message None xp)
  /\ (forall message level,
        mapping None message level (Some 0%Z) = mapping None message level None)
  /\ (forall text, replace_placeholders text [] = text)
  /\ replace_placeholders (VStr (py "{level} after {level.previous}"))
       (mapping None None (Some 0%Z) None)
     = VStr (py "{level} after {level.previous}")
  /\ replace_placeholders (VStr (py "{xp} after {xp.previous}"))
       (mapping None None None (Some 0%Z))
     = VStr (py "{xp} after {xp.previous}").
Proof.
  split; [reflexivity|]. split; [reflexivity|].
  split; [reflexivity|].
  split.
  { intros message level. unfold mapping. destruct (if_int level); reflexivity. }
  split; [|split; reflexivity].
  intros text. induction text as [s | items IH | items IH | v] using value_ind;
    simpl.
  - reflexivity.
  - f_equal. rewrite <- (map_id items) at 2. apply map_ext_in.
    intros [k v] Hin. rewrite Forall_forall in IH. f_equal. exact (IH _ Hin).
  - f_equal. rewrite <- (map_id items) at 2. apply map_ext_in.
    intros v Hin. rewrite Forall_forall in IH. exact (IH _ Hin).
  - reflexivity.
Qed.

(** ** The examples of the specification *)

Example init_without_flags : Builder_init None = inr unset.
Proof. reflexivity. Qed.

Example init_with_empty_flags : Builder_init (Some []) = inr unset.
Proof. reflexivity. Qed.

Example parse_marker_then_title :
  Builder_init (Some (py "{embed}$v{title: Hey}"))
  = inr (mkBuilder (Some (py "Hey")) None None None None None None None).
Proof. reflexivity. Qed.

Example parse_empty_string_raises :
  parse unset [] = Raise NotEnoughValues unset.
Proof. reflexivity. Qed.

Example parse_keeps_earlier_assignments :
  parse unset (py "{title: Hey}$v{color: zz}")
  = Raise (InvalidLiteral (py "zz"))
      (mkBuilder (Some (py "Hey")) None None None None None None None).
Proof. reflexivity. Qed.

Example substitute_name :
  replace_placeholders (VStr (py "hi {user.name}"))
    (mapping (Some newcomer) None None None)
  = VStr (py "hi Ann").
Proof. vm_compute. reflexivity. Qed.

Example member_before_message :
  mapping (Some newcomer) (Some (said "hello")) None None = user_table newcomer.
Proof. reflexivity. Qed.

Example replace_is_not_overlapping :
  replace (py "aa") (py "b") (py "aaa") = py "ba".
Proof. reflexivity. Qed.

Example replace_empty_pattern :
  replace [] (py "-") (py "abc") = py "-a-b-c-".
Proof. reflexivity. Qed.

Example split_on_delimiter :
  split (py "$v") (py "a$$vb$v") = [py "a$"; py "b"; []].
Proof. reflexivity. Qed.

(** * Further properties of the parser *)

Lemma assign_returns_iff (self : Builder) (key value : str) :
  raised (assign self key value) = None
  <-> str_eqb key (py "color") = false \/ int16 value <> None.
Proof.
  unfold assign.
  destruct (str_eqb key (py "title")) eqn:E1.
  { apply str_eqb_eq in E1. subst key. simpl. split; [now left | reflexivity]. }
  destruct (str_eqb key (py "description")) eqn:E2.
  { apply str_eqb_eq in E2. subst key. simpl. split; [now left | reflexivity]. }
  destruct (str_eqb key (py "color")) eqn:E3.
  { destruct (int16 value); simpl; split; try congruence.
    - intros _. right. discriminate.
    - intros [F | F]; congruence. }
  repeat match goal with
         | |- context [if ?b then _ else _] => destruct b
         end; simpl; split; try reflexivity; now left.
Qed.

Lemma assign_state_on_raise (self self' : Builder) (key value : str) (e : ValueError) :
  assign self key value = Raise e self' -> self' = self.
Proof.
  unfold assign.
  repeat match goal with
         | |- context [if ?b then _ else _] => destruct b
         end; try discriminate.
  destruct (int16 value); [discriminate | congruence].
Qed.

(** One segment is passed exactly when it is [segment_ok], whatever the
    state of the builder. *)
Lemma parse_attribute_returns_iff (self : Builder) (attribute : str) :
  raised (parse_attribute self attribute) = None <-> segment_ok attribute = true.
Proof.
  unfold parse_attribute, segment_ok.
  destruct (is_embed_marker attribute); [simpl; tauto|].
  rewrite orb_false_l.
  destruct (split_once ":" attribute) as [|key [|value [|]]];
    try (simpl; split; discriminate).
  rewrite assign_returns_iff.
  destruct (str_eqb (normal_key key) (py "color")); simpl.
  - destruct (int16 (normal_value value)); split; try congruence.
    + intros _. right. discriminate.
    + intros [F | F]; congruence.
  - split; [reflexivity | now left].
Qed.

Lemma parse_attribute_state_on_raise (self self' : Builder) (attribute : str)
    (e : ValueError) :
  parse_attribute self attribute = Raise e self' -> self' = self.
Proof.
  unfold parse_attribute.
  destruct (is_embed_marker attribute); [discriminate|].
  destruct (split_once ":" attribute) as [|key [|value [|]]];
    try (intros [= _ <-]; reflexivity).
  apply assign_state_on_raise.
Qed.

Lemma parse_attributes_returns_iff (attributes : list str) (self : Builder) :
  raised (parse_attributes self attributes) = None
  <-> forallb segment_ok attributes = true.
Proof.
  revert self. induction attributes as [|a l IH]; intros self.
  - simpl. tauto.
  - simpl. pose proof (parse_attribute_returns_iff self a) as H.
    destruct (parse_attribute self a) as [self1 | e self1]; simpl in *.
    + rewrite IH. destruct (segment_ok a); simpl; [tauto|].
      destruct H as [H _]. specialize (H eq_refl). discriminate.
    + destruct (segment_ok a); simpl.
      * destruct H as [_ H]. specialize (H eq_refl). discriminate.
      * split; discriminate.
Qed.

(** X1.  [parse] returns without exception exactly when every segment of
    the flag string is the marker, or has a colon and, under the key
    [color], a value [int(value, 16)] accepts; the attributes the builder
    had before play no role. *)
Theorem parse_returns_iff_all_segments_ok :
  forall (self : Builder) (flags : str),
    raised (parse self flags) = None
    <-> forallb segment_ok (split (py "$v") flags) = true.
Proof. intros self flags. apply parse_attributes_returns_iff. Qed.

Lemma parse_returns_iff_witness :
  raised (parse unset (py "{embed}$v{Title: Hey}$v{color: 0xFF}$v{x: y}")) = None
  /\ forallb segment_ok (split (py "$v") (py "{embed}$v{title: Hey}$vno colon"))
     = false.
Proof.
  split.
  - apply (proj2 (parse_returns_iff_all_segments_ok unset
                    (py "{embed}$v{Title: Hey}$v{color: 0xFF}$v{x: y}"))).
    reflexivity.
  - destruct (forallb segment_ok
                (split (py "$v") (py "{embed}$v{title: Hey}$vno colon"))) eqn:E;
      [|reflexivity].
    apply (proj2 (parse_returns_iff_all_segments_ok unset
                    (py "{embed}$v{title: Hey}$vno colon"))) in E.
    discriminate E.
Defined.

Lemma parse_attributes_raise_inv (attributes : list str) :
  forall (self self' : Builder) (e : ValueError),
    parse_attributes self attributes = Raise e self' ->
    exists before attribute after,
      attributes = before ++ attribute :: after
      /\ forallb segment_ok before = true
      /\ segment_ok attribute = false
      /\ parse_attributes self before = Return self'
      /\ parse_attribute self' attribute = Raise e self'.
Proof.
  induction attributes as [|a l IH]; intros self self' e H; [discriminate|].
  simpl in H. destruct (parse_attribute self a) as [self1 | e1 self1] eqn:A.
  - destruct (IH self1 self' e H) as [before [attribute [after [-> [B [S [P Q]]]]]]].
    exists (a :: before), attribute, after.
    split; [reflexivity|]. split.
    { simpl. rewrite B, andb_true_r.
      apply (parse_attribute_returns_iff self a). now rewrite A. }
    split; [assumption|]. split; [|assumption].
    simpl. now rewrite A.
  - injection H as -> ->.
    pose proof (parse_attribute_state_on_raise self self' a e A) as ->.
    exists [], a, l. split; [reflexivity|]. split; [reflexivity|].
    split; [|split; [reflexivity | assumption]].
    destruct (segment_ok a) eqn:S; [|reflexivity].
    apply (parse_attribute_returns_iff self a) in S. rewrite A in S. discriminate.
Qed.

(** X2.  When [parse] raises, the builder is left as the segments before
    the first bad one made it: these were all passed, the exception is the
    one of that segment, and no later segment was looked at. *)
Theorem parse_raise_keeps_earlier_segments :
  forall (self self' : Builder) (flags : str) (e : ValueError),
    parse self flags = Raise e self' ->
    exists before attribute after,
      split (py "$v") flags = before ++ attribute :: after
      /\ forallb segment_ok before = true
      /\ segment_ok attribute = false
      /\ parse_attributes self before = Return self'
      /\ parse_attribute self' attribute = Raise e self'.
Proof. intros self self' flags e. apply parse_attributes_raise_inv. Qed.

Lemma parse_raise_keeps_earlier_segments_witness :
  parse unset (py "{title: Hey}$v{color: zz}$v{url: u}")
  = Raise (InvalidLiteral (py "zz"))
      (mkBuilder (Some (py "Hey")) None None None None None None None)
  /\ exists before attribute after,
      split (py "$v") (py "{title: Hey}$v{color: zz}$v{url: u}")
      = before ++ attribute :: after
      /\ forallb segment_ok before = true
      /\ segment_ok attribute = false
      /\ parse_attributes unset before
         = Return (mkBuilder (Some (py "Hey")) None None None None None None None)
      /\ parse_attribute
           (mkBuilder (Some (py "Hey")) None None None None None None None)
           attribute
         = Raise (InvalidLiteral (py "zz"))
             (mkBuilder (Some (py "Hey")) None None None None None None None).
Proof.
  split; [reflexivity|].
  apply (parse_raise_keeps_earlier_segments unset _
           (py "{title: Hey}$v{color: zz}$v{url: u}")).
  reflexivity.
Defined.

Lemma parse_attribute_keeps (name : str) (self : Builder) (attribute : str) :
  key_of attribute <> Some name ->
  get_attr (state_of (parse_attribute self attribute)) name = get_attr self name.
Proof.
  unfold key_of, parse_attribute. intros H.
  destruct (is_embed_marker attribute); [reflexivity|].
  destruct (split_once ":" attribute) as [|key [|value [|]]]; try reflexivity.
  destruct (assign self (normal_key key) (normal_value value))
    as [self1 | e self1] eqn:A.
  - simpl. apply (assign_other self self1 (normal_key key) (normal_value value));
      [congruence | assumption].
  - simpl. now rewrite (assign_state_on_raise _ _ _ _ _ A).
Qed.

Lemma parse_attributes_keeps_name (name : str) (attributes : list str) :
  (forall a, In a attributes -> key_of a <> Some name) ->
  forall self,
    get_attr (state_of (parse_attributes self attributes)) name
    = get_attr self name.
Proof.
  induction attributes as [|a l IH]; intros H self; [reflexivity|].
  simpl. pose proof (parse_attribute_keeps name self a (H a (or_introl eq_refl))) as K.
  destruct (parse_attribute self a) as [self1 | e self1]; simpl in *.
  - rewrite IH; [assumption|]. intros a' Ha'. apply H. now right.
  - assumption.
Qed.

(** X3.  An attribute no segment of the flag string has as its normalized
    key is after [parse] what it was before, whether [parse] returns or
    raises. *)
Theorem parse_touches_named_attributes_only :
  forall (self : Builder) (flags name : str),
    (forall a, In a (split (py "$v") flags) -> key_of a <> Some name) ->
    get_attr (state_of (parse self flags)) name = get_attr self name.
Proof.
  intros self flags name H. unfold parse.
  now apply parse_attributes_keeps_name.
Qed.

Lemma parse_touches_named_attributes_only_witness :
  (forall a, In a (split (py "$v") (py "{embed}$v{title: Hey}$v{color: zz}")) ->
             key_of a <> Some (py "footer"))
  /\ get_attr (state_of (parse
                 (mkBuilder None None None None None (Some (py "old")) None None)
                 (py "{embed}$v{title: Hey}$v{color: zz}")))
       (py "footer")
     = get_attr (mkBuilder None None None None None (Some (py "old")) None None)
         (py "footer").
Proof.
  assert (H : forall a,
             In a (split (py "$v") (py "{embed}$v{title: Hey}$v{color: zz}")) ->
             key_of a <> Some (py "footer")).
  { intros a Ha. vm_compute in Ha.
    destruct Ha as [<- | [<- | [<- | []]]]; vm_compute; discriminate. }
  split; [exact H|].
  apply (parse_touches_named_attributes_only _ _ (py "footer")). exact H.
Defined.

(** ** Cutting at the delimiter *)

Lemma split_scan_skip (sep p r : str) :
  split_scan sep (length p) (p ++ r) = split_scan sep 0 r.
Proof.
  induction p as [|a p IH]; simpl.
  - destruct r; reflexivity.
  - exact IH.
Qed.

Section Split.

Variable sep : str.
Hypothesis sep_nonempty : sep <> [].

Lemma split_nil : split sep [] = [[]].
Proof. reflexivity. Qed.

Lemma split_hit (r : str) : split sep (sep ++ r) = [] :: split sep r.
Proof.
  unfold split. destruct sep as [|a o] eqn:E; [congruence|].
  change ((a :: o) ++ r) with (a :: (o ++ r)).
  cbn [split_scan].
  change (a :: o ++ r) with ((a :: o) ++ r).
  rewrite starts_with_app.
  replace (length (a :: o) - 1) with (length o) by (simpl; lia).
  now rewrite split_scan_skip.
Qed.

Lemma split_miss (c : ascii) (r : str) :
  starts_with sep (c :: r) = false ->
  split sep (c :: r)
  = match split sep r with
    | piece :: pieces => (c :: piece) :: pieces
    | [] => [[c]]
    end.
Proof.
  unfold split. intros H. cbn [split_scan]. now rewrite H.
Qed.

Lemma split_not_nil (s : str) : split sep s <> [].
Proof.
  induction s as [|r IH|c r Hc IH] using (scan_ind sep sep_nonempty).
  - discriminate.
  - rewrite split_hit. discriminate.
  - rewrite split_miss by assumption. destruct (split sep r); discriminate.
Qed.

Lemma join_cons (p : str) (pieces : list str) :
  pieces <> [] -> join sep (p :: pieces) = p ++ sep ++ join sep pieces.
Proof. destruct pieces; [congruence | reflexivity]. Qed.

Lemma join_first_cons (c : ascii) (p : str) (pieces : list str) :
  join sep ((c :: p) :: pieces) = c :: join sep (p :: pieces).
Proof. destruct pieces; reflexivity. Qed.

(** Joining the pieces with the separator gives the text back. *)
Lemma join_split (s : str) : join sep (split sep s) = s.
Proof.
  induction s as [|r IH|c r Hc IH] using (scan_ind sep sep_nonempty).
  - reflexivity.
  - rewrite split_hit, join_cons by apply split_not_nil. now rewrite IH.
  - rewrite split_miss by assumption.
    pose proof (split_not_nil r) as N.
    destruct (split sep r) as [|p ps]; [congruence|].
    rewrite join_first_cons. now rewrite IH.
Qed.

Lemma join_starts_with_first (p : str) (pieces : list str) :
  exists rest, join sep (p :: pieces) = p ++ rest.
Proof.
  destruct pieces as [|q qs].
  - exists []. simpl. now rewrite app_nil_r.
  - eexists. reflexivity.
Qed.

(** No piece has the separator in it. *)
Lemma split_pieces_clean (s : str) :
  Forall (fun piece => contains sep piece = false) (split sep s).
Proof.
  induction s as [|r IH|c r Hc IH] using (scan_ind sep sep_nonempty).
  - constructor; [|constructor]. simpl. rewrite orb_false_r.
    destruct sep; [congruence | reflexivity].
  - rewrite split_hit. constructor; [|assumption].
    simpl. rewrite orb_false_r. destruct sep; [congruence | reflexivity].
  - rewrite split_miss by assumption.
    pose proof (join_split r) as J. pose proof (split_not_nil r) as N.
    destruct (split sep r) as [|p ps]; [congruence|].
    pose proof (Forall_inv IH) as Hp. pose proof (Forall_inv_tail IH) as Hps.
    simpl in Hp. constructor; [|assumption].
    rewrite contains_cons, Hp, orb_false_r.
    destruct (starts_with sep (c :: p)) eqn:E; [|reflexivity].
    destruct (join_starts_with_first p ps) as [rest Hrest].
    rewrite <- Hc, <- J, Hrest.
    change (c :: p ++ rest) with ((c :: p) ++ rest).
    symmetry. now apply starts_with_weaken.
Qed.

End Split.

(** X4.  The segments [parse] works on are never none, give the flag
    string back when joined by [$v], and have no [$v] in them. *)
Theorem parse_segments_lossless :
  forall flags : str,
    split (py "$v") flags <> []
    /\ join (py "$v") (split (py "$v") flags) = flags
    /\ Forall (fun segment => contains (py "$v") segment = false)
         (split (py "$v") flags).
Proof.
  intros flags. split; [|split].
  - apply split_not_nil. discriminate.
  - apply join_split. discriminate.
  - apply split_pieces_clean. discriminate.
Qed.

(** ** A blank after the opening brace *)

Lemma isspace_facts (c : ascii) :
  isspace c = true -> lower_char c = c /\ in_chars (py "{}") c = false.
Proof.
  destruct c as [[|] [|] [|] [|] [|] [|] [|] [|]]; intros H;
    try discriminate H; split; reflexivity.
Qed.

Lemma normal_key_blank_after_brace (key rest : str) (c : ascii) :
  strip key = "{" :: c :: rest -> isspace c = true ->
  exists rest', normal_key key = c :: rest'.
Proof.
  intros E S. unfold normal_key. rewrite E.
  destruct (isspace_facts c S) as [L B].
  unfold lower. cbn [map]. rewrite L.
  unfold strip_set. cbn [lstrip_set].
  rewrite B.
  replace (in_chars (py "{}") (lower_char "{")) with true by reflexivity.
  cbv beta iota. rewrite rstrip_set_cons by assumption. eauto.
Qed.

(** X5.  A key with a blank right after its opening brace, as in
    [{ title: Hey}], is none of the recognized keys: the braces are removed
    after the trimming, so the blank stays, and the segment is passed
    without effect. *)
Theorem key_with_blank_after_brace_ignored :
  forall (self : Builder) (attribute key value rest : str) (c : ascii),
    split_once ":" attribute = [key; value] ->
    strip key = "{" :: c :: rest ->
    isspace c = true ->
    parse_attribute self attribute = Return self.
Proof.
  intros self attribute key value rest c S E B.
  rewrite (parse_attribute_colon self attribute key value S).
  apply assign_unrecognized.
  destruct (normal_key_blank_after_brace key rest c E B) as [rest' ->].
  intros F. simpl in F.
  assert (N : forall k, c :: rest' = k -> hd "000" k = c) by (intros k <-; reflexivity).
  destruct F as [F | [F | [F | [F | [F | [F | [F | [F | []]]]]]]]];
    symmetry in F; apply N in F; simpl in F; subst c; discriminate B.
Qed.

Lemma key_with_blank_after_brace_ignored_witness :
  split_once ":" (py "{ title: Hey}") = [py "{ title"; py " Hey}"]
  /\ strip (py "{ title") = "{" :: " " :: py "title"
  /\ isspace " " = true
  /\ parse_attribute unset (py "{ title: Hey}") = Return unset.
Proof.
  split; [reflexivity|]. split; [reflexivity|]. split; [reflexivity|].
  apply (key_with_blank_after_brace_ignored unset (py "{ title: Hey}")
           (py "{ title") (py " Hey}") (py "title") " "); reflexivity.
Defined.

(** * Further properties of the substitution *)

(** ** A text is never blanked *)

Lemma replace_nonempty (old new s : str) :
  new <> [] -> s <> [] -> replace old new s <> [].
Proof.
  intros Hn Hs. destruct old as [|a o].
  - unfold replace. destruct new; [congruence | discriminate].
  - destruct s as [|c r]; [congruence|].
    unfold replace. cbn [replace_scan].
    destruct (starts_with (a :: o) (c :: r)).
    + destruct new; [congruence | discriminate].
    + discriminate.
Qed.

Lemma truthy_text_nonempty (v : pyval) : truthy v = true -> py_str v <> [].
Proof.
  destruct v as [|s|n]; simpl; intros H.
  - discriminate.
  - destruct s; [discriminate | discriminate].
  - apply str_of_int_nonempty.
Qed.

Lemma replace_entry_nonempty (s : str) (entry : str * pyval) :
  s <> [] -> replace_entry s entry <> [].
Proof.
  destruct entry as [k v]. simpl. intros H.
  destruct (truthy v) eqn:T; [|assumption].
  apply replace_nonempty; [now apply truthy_text_nonempty | assumption].
Qed.

Lemma replace_in_str_nonempty (mappings : table) (s : str) :
  s <> [] -> replace_in_str s mappings <> [].
Proof.
  revert s. induction mappings as [|e m IH]; intros s H; [assumption|].
  rewrite replace_in_str_cons. apply IH. now apply replace_entry_nonempty.
Qed.

(** X6.  Substitution never turns a text that is not empty into the empty
    text, whatever the table; and with a table of [mapping] the empty text
    stays empty. *)
Theorem substitution_never_blanks_a_text :
  (forall (mappings : table) (s : str),
      s <> [] -> replace_in_str s mappings <> [])
  /\ (forall user message level xp,
        replace_in_str [] (mapping user message level xp) = []).
Proof.
  split; [exact replace_in_str_nonempty|].
  intros user message level xp. apply replace_in_str_empty.
  apply token_keys_nonempty. apply mapping_token_keys.
Qed.

Lemma substitution_never_blanks_a_text_witness :
  py "{user.avatar}" <> []
  /\ replace_in_str (py "{user.avatar}") (mapping (Some newcomer) None None None)
     <> [].
Proof.
  split; [discriminate|].
  apply (proj1 substitution_never_blanks_a_text). discriminate.
Defined.

(** ** No substituted token is left *)

Lemma contains_app_r (k a b : str) : contains k b = true -> contains k (a ++ b) = true.
Proof.
  intros H. apply contains_iff in H as [x [y ->]].
  apply contains_iff. exists (a ++ x), y. now rewrite <- app_assoc.
Qed.

Lemma contains_starts (k s : str) : starts_with k s = true -> contains k s = true.
Proof.
  intros H. destruct s; simpl in *; now rewrite H.
Qed.

(** An occurrence of [k] cannot begin in a block without the first
    character of [k]. *)
Lemma contains_inert_block (h : ascii) (b v x : str) :
  ~ In h v -> contains (h :: b) (v ++ x) = contains (h :: b) x.
Proof.
  intros H. induction v as [|c v IH]; [reflexivity|].
  simpl app. rewrite contains_cons, IH by (intros F; apply H; now right).
  assert (E : starts_with (h :: b) (c :: v ++ x) = false).
  { simpl. destruct (ascii_dec h c); [|reflexivity].
    exfalso. apply H. now left. }
  now rewrite E.
Qed.

Section Inert.

(** A token [k], and a replacement text [w] that is inert for it. *)
Variable h : ascii.
Variables b w : str.
Hypothesis h_w : ~ In h w.
Hypothesis w_nonempty : w <> [].
Hypothesis w_foreign : ~ In (hd "000" w) (h :: b).

(** Replacing any [t] by [w] brings no new occurrence of [k]. *)
Lemma replace_no_new_occurrence (t s : str) :
  t <> [] ->
  contains (h :: b) (replace t w s) = true -> contains (h :: b) s = true.
Proof.
  intros Ht.
  induction s as [|r IH|c r Hc IH] using (scan_ind t Ht); intros H.
  - now rewrite replace_nil in H.
  - rewrite replace_hit in H by assumption.
    rewrite contains_inert_block in H by assumption.
    apply contains_app_r. now apply IH.
  - pose proof H as H'.
    rewrite replace_miss in H by assumption.
    rewrite contains_cons in H. apply orb_true_iff in H as [H | H].
    + rewrite <- (replace_miss t w Ht c r Hc) in H.
      apply (replace_no_new_prefix t w Ht) in H; try assumption.
      now apply contains_starts.
    + rewrite contains_cons. rewrite (IH H). apply orb_true_r.
Qed.

(** After the turn of [k] itself no occurrence of [k] is left. *)
Lemma replace_leaves_none (s : str) :
  contains (h :: b) (replace (h :: b) w s) = false.
Proof.
  assert (N : h :: b <> []) by discriminate.
  induction s as [|r IH|c r Hc IH] using (scan_ind (h :: b) N).
  - rewrite replace_nil by assumption. reflexivity.
  - rewrite replace_hit by assumption.
    now rewrite contains_inert_block.
  - destruct (contains (h :: b) (replace (h :: b) w (c :: r))) eqn:E;
      [|reflexivity].
    rewrite replace_miss in E by assumption.
    rewrite contains_cons, IH, orb_false_r in E.
    rewrite <- (replace_miss (h :: b) w N c r Hc) in E.
    apply (replace_no_new_prefix (h :: b) w N) in E; try assumption.
    congruence.
Qed.

End Inert.

(** What [inert] and [token_keys] give for a substituted entry and a key
    of the table. *)
Lemma inert_entry_for_key (mappings : table) (t k : str) (v : pyval) :
  token_keys (map fst mappings) = true ->
  inert mappings = true ->
  In (t, v) mappings -> truthy v = true ->
  In k (map fst mappings) ->
  exists b, k = "{" :: b
            /\ ~ In "{" (py_str v)
            /\ py_str v <> []
            /\ ~ In (hd "000" (py_str v)) k
            /\ t <> [].
Proof.
  intros TK IN Hin T Hk.
  pose proof (token_keys_nonempty mappings TK) as NE.
  apply andb_true_iff in TK as [TB _]. rewrite forallb_forall in TB.
  destruct (brace_token_inv k (TB _ Hk)) as [b [-> _]].
  exists b. split; [reflexivity|].
  unfold inert in IN. rewrite forallb_forall in IN.
  pose proof (IN _ Hin) as I. unfold inert_value in I. simpl snd in I.
  rewrite T in I. simpl in I.
  destruct (py_str v) as [|c r] eqn:S; [discriminate|].
  apply andb_true_iff in I as [I1 I2]. rewrite forallb_forall in I2.
  split; [apply in_chars_not_In; now apply negb_true_iff|].
  split; [discriminate|].
  split.
  - simpl hd. apply in_chars_not_In. apply negb_true_iff. now apply I2.
  - rewrite Forall_forall in NE. exact (NE _ Hin).
Qed.

Lemma later_turns_bring_nothing (mappings : table) (k : str) (m : table) :
  token_keys (map fst mappings) = true ->
  inert mappings = true ->
  In k (map fst mappings) ->
  incl m mappings ->
  forall s, contains k s = false -> contains k (replace_in_str s m) = false.
Proof.
  intros TK IN Hk. induction m as [|[t v] m IH]; intros I s H; [assumption|].
  rewrite replace_in_str_cons. apply IH.
  { intros e He. apply I. now right. }
  simpl. destruct (truthy v) eqn:T; [|assumption].
  destruct (inert_entry_for_key mappings t k v TK IN (I _ (or_introl eq_refl)) T Hk)
    as [b [-> [A [B [C D]]]]].
  destruct (contains ("{" :: b) (replace t (py_str v) s)) eqn:E; [|reflexivity].
  apply replace_no_new_occurrence in E; try assumption. congruence.
Qed.

Lemma substituted_token_gone (mappings : table) (k : str) (v : pyval) (s : str) :
  token_keys (map fst mappings) = true ->
  inert mappings = true ->
  In (k, v) mappings -> truthy v = true ->
  contains k (replace_in_str s mappings) = false.
Proof.
  intros TK IN Hin T.
  assert (Hk : In k (map fst mappings))
    by (change k with (fst (k, v)); now apply in_map).
  destruct (in_split _ _ Hin) as [m1 [m2 E]].
  rewrite E at 1. rewrite replace_in_str_app, replace_in_str_cons.
  apply (later_turns_bring_nothing mappings k m2 TK IN Hk).
  { intros e He. rewrite E. apply in_or_app. right. now right. }
  simpl. rewrite T.
  destruct (inert_entry_for_key mappings k k v TK IN Hin T Hk)
    as [b [-> [A [B [C D]]]]].
  now apply replace_leaves_none.
Qed.

(** X7.  With a table of [mapping] whose substituted values are inert, no
    token of a substituted value occurs in the result; for a level or an
    experience count this holds of both tokens, whatever the text. *)
Theorem no_substituted_token_left_when_values_inert :
  (forall user message level xp (k : str) (v : pyval) (s : str),
      inert (mapping user message level xp) = true ->
      In (k, v) (mapping user message level xp) -> truthy v = true ->
      contains k (replace_in_str s (mapping user message level xp)) = false)
  /\ (forall (level : Z) (s : str),
        contains (py "{level}") (replace_in_str s (level_table level)) = false
        /\ contains (py "{level.previous}")
             (replace_in_str s (level_table level)) = false)
  /\ (forall (xp : Z) (s : str),
        contains (py "{xp}") (replace_in_str s (xp_table xp)) = false
        /\ contains (py "{xp.previous}")
             (replace_in_str s (xp_table xp)) = false).
Proof.
  assert (G : forall (m : table) k v s,
             token_keys (map fst m) = true -> inert m = true ->
             In (k, v) m -> truthy v = true ->
             contains k (replace_in_str s m) = false).
  { intros. now apply substituted_token_gone with v. }
  assert (TI : forall n, truthy (PStr (str_of_int n)) = true).
  { intros n. pose proof (str_of_int_nonempty n). simpl.
    destruct (str_of_int n); congruence. }
  split; [|split].
  - intros user message level xp k v s IN Hin T.
    apply G with v; try assumption. apply mapping_token_keys.
  - intros level s. split.
    + apply G with (PStr (str_of_int level));
        [reflexivity | apply level_table_inert | simpl; tauto | apply TI].
    + apply G with (PStr (str_of_int (level - 1)));
        [reflexivity | apply level_table_inert | simpl; tauto | apply TI].
  - intros xp s. split.
    + apply G with (PStr (str_of_int xp));
        [reflexivity | apply xp_table_inert | simpl; tauto | apply TI].
    + apply G with (PStr (str_of_int (xp - 1)));
        [reflexivity | apply xp_table_inert | simpl; tauto | apply TI].
Qed.

Lemma no_substituted_token_left_witness :
  inert (mapping None None (Some 5%Z) None) = true
  /\ In (py "{level}", PStr (py "5")) (mapping None None (Some 5%Z) None)
  /\ truthy (PStr (py "5")) = true
  /\ contains (py "{level}")
       (replace_in_str (py "{{level}level}") (mapping None None (Some 5%Z) None))
     = false.
Proof.
  split; [reflexivity|]. split; [simpl; tauto|]. split; [reflexivity|].
  apply (proj1 no_substituted_token_left_when_values_inert
           None None (Some 5%Z) None (py "{level}") (PStr (py "5")));
    [reflexivity | simpl; tauto | reflexivity].
Defined.

(** ** Substituting twice *)

Lemma replace_in_str_untouched (mappings : table) (s : str) :
  (forall k v, In (k, v) mappings -> truthy v = true -> contains k s = false) ->
  replace_in_str s mappings = s.
Proof.
  induction mappings as [|[k v] m IH]; intros H; [reflexivity|].
  rewrite replace_in_str_cons. simpl replace_entry.
  assert (E : (if truthy v then replace k (py_str v) s else s) = s).
  { destruct (truthy v) eqn:T; [|reflexivity].
    pose proof (H k v (or_introl eq_refl) T) as Hk.
    apply replace_absent; [|assumption].
    intros ->. rewrite contains_nil in Hk. discriminate. }
  rewrite E. apply IH. intros k' v' Hin. apply H. now right.
Qed.

Lemma replace_in_str_idempotent (mappings : table) (s : str) :
  token_keys (map fst mappings) = true ->
  inert mappings = true ->
  replace_in_str (replace_in_str s mappings) mappings
  = replace_in_str s mappings.
Proof.
  intros TK IN. apply replace_in_str_untouched.
  intros k v Hin T. now apply substituted_token_gone with v.
Qed.

Lemma replace_placeholders_idempotent (mappings : table) (text : value) :
  token_keys (map fst mappings) = true ->
  inert mappings = true ->
  replace_placeholders (replace_placeholders text mappings) mappings
  = replace_placeholders text mappings.
Proof.
  intros TK IN.
  induction text as [s | items IH | items IH | v] using value_ind; simpl.
  - f_equal. now apply replace_in_str_idempotent.
  - f_equal. rewrite map_map. apply map_ext_in. intros [k v] Hin.
    rewrite Forall_forall in IH. f_equal. exact (IH _ Hin).
  - f_equal. rewrite map_map. apply map_ext_in. intros v Hin.
    rewrite Forall_forall in IH. exact (IH _ Hin).
  - reflexivity.
Qed.

(** X8.  With a table of [mapping] whose substituted values are inert,
    substituting a second time changes nothing; this always holds for the
    tables of a level and of an experience count. *)
Theorem substitution_idempotent_when_values_inert :
  (forall user message level xp (text : value),
      inert (mapping user message level xp) = true ->
      replace_placeholders
        (replace_placeholders text (mapping user message level xp))
        (mapping user message level xp)
      = replace_placeholders text (mapping user message level xp))
  /\ (forall (level : Z) (text : value),
        replace_placeholders (replace_placeholders text (level_table level))
          (level_table level)
        = replace_placeholders text (level_table level))
  /\ (forall (xp : Z) (text : value),
        replace_placeholders (replace_placeholders text (xp_table xp))
          (xp_table xp)
        = replace_placeholders text (xp_table xp)).
Proof.
  split; [|split].
  - intros user message level xp text IN.
    apply replace_placeholders_idempotent; [apply mapping_token_keys | assumption].
  - intros level text. apply replace_placeholders_idempotent;
      [reflexivity | apply level_table_inert].
  - intros xp text. apply replace_placeholders_idempotent;
      [reflexivity | apply xp_table_inert].
Qed.

Lemma substitution_idempotent_witness :
  inert (mapping None None None (Some 120%Z)) = true
  /\ replace_placeholders
       (replace_placeholders (VList [VStr (py "{xp.previous} then {xp}")])
          (mapping None None None (Some 120%Z)))
       (mapping None None None (Some 120%Z))
     = replace_placeholders (VList [VStr (py "{xp.previous} then {xp}")])
         (mapping None None None (Some 120%Z)).
Proof.
  split; [reflexivity|].
  apply (proj1 substitution_idempotent_when_values_inert
           None None None (Some 120%Z)).
  reflexivity.
Defined.

(** Without inert values a second pass can change the result: a member
    whose display name is the text of an earlier token. *)
Example second_pass_changes_result :
  replace_in_str (py "{user.display}")
    (user_table (mkMember 42 (py "<@42>") (py "ann") (py "{user.id}") None
                   (py "https://cdn.discordapp.com/embed/avatars/0.png")
                   1700000000 1600000000 quiet_guild))
  = py "{user.id}"
  /\ replace_in_str (py "{user.id}")
       (user_table (mkMember 42 (py "<@42>") (py "ann") (py "{user.id}") None
                      (py "https://cdn.discordapp.com/embed/avatars/0.png")
                      1700000000 1600000000 quiet_guild))
     = py "42".
Proof. split; vm_compute; reflexivity. Qed.

(** * The card *)

Lemma if_str_nonempty (attr : option str) (s : str) :
  if_str attr = Some s -> s <> [].
Proof.
  destruct attr as [[|c r]|]; simpl; try discriminate.
  intros [= <-]. discriminate.
Qed.

Lemma if_str_replace_attr (mappings : table) (attr : option str) :
  if_str (replace_attr mappings attr) = replace_attr mappings attr.
Proof.
  unfold replace_attr. destruct (if_str attr) as [s|] eqn:E; [|reflexivity].
  assert (N : s <> []) by now apply if_str_nonempty with attr.
  pose proof (replace_in_str_nonempty mappings s N) as R.
  destruct (replace_in_str s mappings); [congruence | reflexivity].
Qed.

Lemma replace_attr_present (mappings : table) (attr : option str) :
  replace_attr mappings attr = None <-> if_str attr = None.
Proof.
  unfold replace_attr. destruct (if_str attr); split; congruence.
Qed.

Lemma replace_attr_nonempty (mappings : table) (attr : option str) (s : str) :
  replace_attr mappings attr = Some s -> s <> [].
Proof.
  unfold replace_attr. destruct (if_str attr) as [s0|] eqn:E; [|discriminate].
  intros [= <-]. apply replace_in_str_nonempty. now apply if_str_nonempty with attr.
Qed.

(** X9.  The card of [create] has title, description, author, footer,
    thumbnail and image exactly for the attributes that are strings and not
    empty, each being the attribute with the placeholders of the event
    replaced and never empty (the second test before the four setters drops
    nothing); colour and address are those of the builder, unsubstituted;
    there are no icons and no fields. *)
Theorem create_sets_exactly_the_nonempty_attributes :
  forall (self : Builder) user message level xp,
    let mappings := mapping user message level xp in
    let card := create self user message level xp in
    embed_title card = replace_attr mappings (title self)
    /\ embed_description card = replace_attr mappings (description self)
    /\ embed_author card = replace_attr mappings (author self)
    /\ embed_footer card = replace_attr mappings (footer self)
    /\ embed_thumbnail card = replace_attr mappings (thumbnail self)
    /\ embed_image card = replace_attr mappings (image self)
    /\ (forall attr : option str,
          (replace_attr mappings attr = None <-> if_str attr = None)
          /\ (forall s, replace_attr mappings attr = Some s -> s <> []))
    /\ embed_color card = color self
    /\ embed_url card = url self
    /\ embed_author_icon card = None
    /\ embed_footer_icon card = None
    /\ embed_fields card = [].
Proof.
  intros self user message level xp mappings card. subst card. unfold create.
  fold mappings. simpl. rewrite !if_str_replace_attr.
  repeat split; try reflexivity.
  - now apply replace_attr_present.
  - now apply replace_attr_present.
  - now apply replace_attr_nonempty.
Qed.

Lemma create_fields_witness :
  replace_attr (mapping (Some newcomer) None None None) (Some (py "{user.name}"))
  = Some (py "Ann")
  /\ py "Ann" <> []
  /\ embed_title
       (create (mkBuilder (Some (py "{user.name}")) (Some []) None
                  (Some (py "{user.name}")) None None None None)
          (Some newcomer) None None None)
     = Some (py "Ann")
  /\ embed_description
       (create (mkBuilder (Some (py "{user.name}")) (Some []) None
                  (Some (py "{user.name}")) None None None None)
          (Some newcomer) None None None)
     = None
  /\ embed_url
       (create (mkBuilder (Some (py "{user.name}")) (Some []) None
                  (Some (py "{user.name}")) None None None None)
          (Some newcomer) None None None)
     = Some (py "{user.name}").
Proof.
  assert (R : replace_attr (mapping (Some newcomer) None None None)
                (Some (py "{user.name}")) = Some (py "Ann"))
    by (vm_compute; reflexivity).
  pose proof (create_sets_exactly_the_nonempty_attributes
                (mkBuilder (Some (py "{user.name}")) (Some []) None
                   (Some (py "{user.name}")) None None None None)
                (Some newcomer) None None None) as C.
  cbv zeta in C.
  destruct C as [T [D [_ [_ [_ [_ [A [_ [U _]]]]]]]]].
  split; [exact R|]. split.
  - exact (proj2 (A (Some (py "{user.name}"))) _ R).
  - split; [rewrite T; exact R|]. split; [rewrite D; reflexivity | exact U].
Defined.

Lemma replace_attr_no_table (attr : option str) : replace_attr [] attr = if_str attr.
Proof. unfold replace_attr. now destruct (if_str attr). Qed.

Lemma if_str_idempotent (attr : option str) : if_str (if_str attr) = if_str attr.
Proof. now destruct attr as [[|c r]|]. Qed.

(** X10.  Without member and message, and with no level or level [0] and
    no experience count or count [0], [create] gives the attributes back as
    they are, the empty ones left out: this is the card [add] and [edit]
    store. *)
Theorem create_without_event_keeps_the_template :
  forall (self : Builder) (level xp : option Z),
    (level = None \/ level = Some 0%Z) ->
    (xp = None \/ xp = Some 0%Z) ->
    create self None None level xp
    = mkEmbed (if_str (title self)) (if_str (description self)) (color self)
        (url self) (if_str (author self)) None (if_str (footer self)) None
        (if_str (thumbnail self)) (if_str (image self)) [].
Proof.
  intros self level xp Hl Hx. unfold create.
  assert (E : mapping None None level xp = [])
    by (destruct Hl as [-> | ->], Hx as [-> | ->]; reflexivity).
  rewrite E. cbv zeta. rewrite !replace_attr_no_table, !if_str_idempotent.
  reflexivity.
Qed.

Lemma create_without_event_witness :
  (Some 0%Z = None \/ Some 0%Z = Some 0%Z)
  /\ (@None Z = None \/ @None Z = Some 0%Z)
  /\ create (mkBuilder (Some (py "Hi {user.name}")) (Some []) (Some 255%Z)
               (Some (py "https://x.test/{user.id}")) None None None None)
       None None (Some 0%Z) None
     = mkEmbed (Some (py "Hi {user.name}")) None (Some 255%Z)
         (Some (py "https://x.test/{user.id}")) None None None None None None [].
Proof.
  split; [now right|]. split; [now left|].
  apply (create_without_event_keeps_the_template
           (mkBuilder (Some (py "Hi {user.name}")) (Some []) (Some 255%Z)
              (Some (py "https://x.test/{user.id}")) None None None None)
           (Some 0%Z) None); [now right | now left].
Defined.

(** * The paginator *)

Lemma length_set_nth {A : Type} (l : list A) (n : nat) (a : A) :
  length (set_nth l n a) = length l.
Proof.
  revert n. induction l as [|x l IH]; intros [|n]; simpl; auto.
Qed.

Lemma nth_error_set_nth_same {A : Type} (l : list A) (n : nat) (a : A) :
  n < length l -> nth_error (set_nth l n a) n = Some a.
Proof.
  revert n. induction l as [|x l IH]; intros [|n] H; simpl in *; try lia.
  - reflexivity.
  - apply IH. lia.
Qed.

Lemma nth_error_set_nth_other {A : Type} (l : list A) (n m : nat) (a : A) :
  m <> n -> nth_error (set_nth l n a) m = nth_error l m.
Proof.
  revert n m. induction l as [|x l IH]; intros [|n] [|m] H; simpl; try reflexivity.
  - congruence.
  - apply IH. congruence.
Qed.

Lemma py_position_in_range {A : Type} (l : list A) (i : Z) :
  (0 <= i < Z.of_nat (length l))%Z -> py_position l i = Some (Z.to_nat i).
Proof.
  intros H. unfold py_position.
  destruct (Z.leb_spec 0 i); [|lia].
  destruct (Z.ltb_spec i (Z.of_nat (length l))); [reflexivity | lia].
Qed.

(** [update_embed] on a paginator in order, when the bot has an avatar. *)
Lemma update_embed_in_order (self : Paginator) (icon : str) :
  in_order self -> pag_bot_avatar self = Some icon ->
  exists embed,
    nth_error (embeds self) (Z.to_nat (current_page self)) = Some embed
    /\ update_embed self
       = Responded
           (with_embeds self
              (set_nth (embeds self) (Z.to_nat (current_page self))
                 (set_footer embed
                    (py "Page " ++ str_of_int (current_page self + 1)
                     ++ py "/" ++ str_of_int (pages self)) icon)))
           (EditMessage
              (set_footer embed
                 (py "Page " ++ str_of_int (current_page self + 1)
                  ++ py "/" ++ str_of_int (pages self)) icon)).
Proof.
  intros O I. unfold in_order, pages in O. unfold update_embed.
  rewrite py_position_in_range by assumption.
  destruct (nth_error (embeds self) (Z.to_nat (current_page self))) as [embed|] eqn:E.
  - exists embed. split; [reflexivity|]. now rewrite I.
  - apply nth_error_None in E. lia.
Qed.

Lemma update_embed_page (self : Paginator) :
  current_page (paginator_of (update_embed self)) = current_page self
  /\ length (embeds (paginator_of (update_embed self))) = length (embeds self)
  /\ pag_author (paginator_of (update_embed self)) = pag_author self
  /\ pag_bot_avatar (paginator_of (update_embed self)) = pag_bot_avatar self
  /\ pag_warn (paginator_of (update_embed self)) = pag_warn self.
Proof.
  unfold update_embed.
  destruct (py_position (embeds self) (current_page self)); [|now repeat split].
  destruct (nth_error (embeds self) n); [|now repeat split].
  destruct (pag_bot_avatar self) eqn:E; [|now repeat split].
  simpl. rewrite length_set_nth. now repeat split.
Qed.

Lemma mod_in_range (a n : Z) : (0 < n)%Z -> (0 <= a mod n < n)%Z.
Proof. intros H. apply Z.mod_pos_bound. exact H. Qed.

Lemma pages_positive (self : Paginator) : embeds self <> [] -> (0 < pages self)%Z.
Proof. unfold pages. destruct (embeds self); [congruence | simpl; lia]. Qed.

(** What one click keeps. *)
Lemma press_keeps (self : Paginator) (click : button * Member) :
  embeds self <> [] ->
  in_order self ->
  in_order (paginator_of (press self click))
  /\ length (embeds (paginator_of (press self click))) = length (embeds self)
  /\ pag_author (paginator_of (press self click)) = pag_author self
  /\ pag_bot_avatar (paginator_of (press self click)) = pag_bot_avatar self
  /\ pag_warn (paginator_of (press self click)) = pag_warn self.
Proof.
  intros NE O. pose proof (pages_positive self NE) as P.
  assert (Z0 : (pages self =? 0)%Z = false) by (apply Z.eqb_neq; lia).
  destruct click as [[| |] user]; unfold press; simpl fst; simpl snd.
  - unfold _left. destruct (is_stranger self user);
      [simpl; unfold in_order in *; intuition|].
    rewrite Z0.
    set (self' := with_page self ((current_page self - 1) mod pages self)%Z).
    destruct (update_embed_page self') as [A [B [C [D E]]]].
    unfold in_order, pages. rewrite A, B, C, D, E. repeat split; try reflexivity;
      simpl; apply mod_in_range; exact P.
  - unfold _stop. destruct (is_stranger self user);
      simpl; unfold in_order in *; intuition.
  - unfold _right. destruct (is_stranger self user);
      [simpl; unfold in_order in *; intuition|].
    rewrite Z0.
    set (self' := with_page self ((current_page self + 1) mod pages self)%Z).
    destruct (update_embed_page self') as [A [B [C [D E]]]].
    unfold in_order, pages. rewrite A, B, C, D, E. repeat split; try reflexivity;
      simpl; apply mod_in_range; exact P.
Qed.

Lemma press_never_divides_by_zero (self : Paginator) (click : button * Member)
    (icon : str) :
  embeds self <> [] -> in_order self -> pag_bot_avatar self = Some icon ->
  exists self' r, press self click = Responded self' r.
Proof.
  intros NE O I. pose proof (pages_positive self NE) as P.
  assert (Z0 : (pages self =? 0)%Z = false) by (apply Z.eqb_neq; lia).
  destruct click as [[| |] user]; unfold press; simpl fst; simpl snd.
  - unfold _left. destruct (is_stranger self user); [eauto|]. rewrite Z0.
    destruct (update_embed_in_order
                (with_page self ((current_page self - 1) mod pages self)%Z) icon)
      as [embed [_ ->]]; [| assumption | eauto].
    unfold in_order. simpl. apply mod_in_range. exact P.
  - unfold _stop. destruct (is_stranger self user); eauto.
  - unfold _right. destruct (is_stranger self user); [eauto|]. rewrite Z0.
    destruct (update_embed_in_order
                (with_page self ((current_page self + 1) mod pages self)%Z) icon)
      as [embed [_ ->]]; [| assumption | eauto].
    unfold in_order. simpl. apply mod_in_range. exact P.
Qed.

(** X11.  From [__init__] on, with a list of pages that is not empty,
    whatever buttons are pressed by whomever, the current page is an index
    of the list, the list keeps its length, and [self.embeds[self.current_page]]
    raises no [IndexError]. *)
Theorem paginator_page_stays_in_range :
  forall (author : Member) (bot_avatar : option str) (warn : str)
         (pages0 : list Embed) (clicks : list (button * Member)),
    pages0 <> [] ->
    let self := presses (Paginator_init author bot_avatar warn pages0) clicks in
    (0 <= current_page self < Z.of_nat (length pages0))%Z
    /\ length (embeds self) = length pages0
    /\ py_index (embeds self) (current_page self) <> None.
Proof.
  intros author bot_avatar warn pages0 clicks NE.
  assert (G : forall self,
             embeds self <> [] -> in_order self ->
             in_order (presses self clicks)
             /\ length (embeds (presses self clicks)) = length (embeds self)).
  { induction clicks as [|click rest IH]; intros self N O; [now split|].
    simpl. destruct (press_keeps self click N O) as [O' [L _]].
    destruct (IH (paginator_of (press self click))) as [O2 L2].
    - intros F. rewrite F in L. simpl in L. destruct (embeds self); [congruence | discriminate].
    - exact O'.
    - split; [exact O2 | congruence]. }
  destruct (G (Paginator_init author bot_avatar warn pages0)) as [O L].
  - exact NE.
  - unfold in_order, pages. simpl. destruct pages0; [congruence | simpl; lia].
  - cbv zeta. simpl in L. unfold in_order, pages in O. rewrite L in O.
    split; [exact O|]. split; [exact L|].
    unfold py_index. rewrite py_position_in_range by (rewrite L; exact O).
    intros F. apply nth_error_None in F. lia.
Qed.

Lemma paginator_page_stays_in_range_witness :
  [create unset None None None None; create unset None None None None] <> []
  /\ (0 <= current_page
            (presses (Paginator_init newcomer None [] 
                        [create unset None None None None;
                         create unset None None None None])
               [(Left, newcomer); (Left, newcomer); (Right, newcomer)])
      < 2)%Z.
Proof.
  split; [discriminate|].
  apply (paginator_page_stays_in_range newcomer None []
           [create unset None None None None; create unset None None None None]
           [(Left, newcomer); (Left, newcomer); (Right, newcomer)]).
  discriminate.
Defined.

(** ** Steps add up *)

Lemma press_page (self : Paginator) (click : button * Member) :
  embeds self <> [] -> in_order self ->
  current_page (paginator_of (press self click))
  = ((current_page self + move self click) mod pages self)%Z.
Proof.
  intros NE O. pose proof (pages_positive self NE) as P.
  assert (Z0 : (pages self =? 0)%Z = false) by (apply Z.eqb_neq; lia).
  assert (S : ((current_page self + 0) mod pages self = current_page self)%Z).
  { rewrite Z.add_0_r. apply Z.mod_small. exact O. }
  destruct click as [b user]. unfold press, move. simpl fst. simpl snd.
  destruct b.
  - unfold _left. destruct (is_stranger self user); [now rewrite S|].
    rewrite Z0. now rewrite (proj1 (update_embed_page _)).
  - unfold _stop. destruct (is_stranger self user); now rewrite S.
  - unfold _right. destruct (is_stranger self user); [now rewrite S|].
    rewrite Z0. now rewrite (proj1 (update_embed_page _)).
Qed.

Lemma net_moves_author (self self' : Paginator) (clicks : list (button * Member)) :
  pag_author self' = pag_author self ->
  net_moves self' clicks = net_moves self clicks.
Proof.
  intros A. induction clicks as [|c l IH]; [reflexivity|].
  simpl. rewrite IH. f_equal. unfold move, is_stranger. now rewrite A.
Qed.

Lemma presses_page (clicks : list (button * Member)) :
  forall self,
    embeds self <> [] -> in_order self ->
    current_page (presses self clicks)
    = ((current_page self + net_moves self clicks) mod pages self)%Z.
Proof.
  induction clicks as [|c l IH]; intros self NE O.
  - simpl. rewrite Z.add_0_r. symmetry. apply Z.mod_small. exact O.
  - simpl presses. destruct (press_keeps self c NE O) as [O' [L [A _]]].
    rewrite IH; [| | exact O'].
    + rewrite (press_page self c NE O).
      rewrite (net_moves_author self _ l A).
      assert (Pg : pages (paginator_of (press self c)) = pages self)
        by (unfold pages; now rewrite L).
      rewrite Pg. simpl net_moves.
      rewrite Zplus_mod_idemp_l. f_equal. lia.
    + intros F. rewrite F in L. simpl in L.
      destruct (embeds self); [congruence | discriminate].
Qed.

Lemma net_moves_repeat (self : Paginator) (click : button * Member) (n : nat) :
  net_moves self (repeat click n) = (Z.of_nat n * move self click)%Z.
Proof.
  induction n as [|n IH]; [reflexivity|].
  simpl repeat. simpl net_moves. rewrite IH. lia.
Qed.

Lemma author_not_stranger (self : Paginator) :
  is_stranger self (pag_author self) = false.
Proof. unfold is_stranger. now rewrite Z.eqb_refl. Qed.

(** X12.  After any run of clicks on a paginator in order the current
    page is the page before plus the clicks of the author on the right
    button minus those on the left button, modulo the number of pages: so
    right then left and left then right come back to the page, and as many
    clicks to the right as there are pages do. *)
Theorem paginator_page_is_start_plus_net_moves :
  (forall (self : Paginator) (clicks : list (button * Member)),
      embeds self <> [] -> in_order self ->
      current_page (presses self clicks)
      = ((current_page self + net_moves self clicks) mod pages self)%Z)
  /\ (forall self : Paginator,
        embeds self <> [] -> in_order self ->
        current_page (presses self [(Right, pag_author self); (Left, pag_author self)])
        = current_page self
        /\ current_page (presses self [(Left, pag_author self); (Right, pag_author self)])
           = current_page self)
  /\ (forall self : Paginator,
        embeds self <> [] -> in_order self ->
        current_page
          (presses self (repeat (Right, pag_author self) (length (embeds self))))
        = current_page self).
Proof.
  split; [intros; now apply presses_page|]. split.
  - intros self NE O. rewrite !presses_page by assumption.
    unfold net_moves, move. simpl. rewrite author_not_stranger.
    split; (rewrite <- (Z.mod_small _ _ O) at 2; f_equal; lia).
  - intros self NE O. rewrite presses_page by assumption.
    rewrite net_moves_repeat. unfold move. simpl.
    rewrite author_not_stranger. fold (pages self).
    rewrite Z.mul_1_r, Z.add_comm, <- Zplus_mod_idemp_l, Z_mod_same_full.
    simpl. apply Z.mod_small. exact O.
Qed.

Lemma paginator_steps_witness :
  embeds (Paginator_init newcomer None []
            [create unset None None None None; create unset None None None None;
             create unset None None None None]) <> []
  /\ in_order (Paginator_init newcomer None []
                 [create unset None None None None; create unset None None None None;
                  create unset None None None None])
  /\ current_page
       (presses (Paginator_init newcomer None []
                   [create unset None None None None; create unset None None None None;
                    create unset None None None None])
          [(Left, newcomer); (Left, newcomer)])
     = ((0 + net_moves (Paginator_init newcomer None []
                          [create unset None None None None;
                           create unset None None None None;
                           create unset None None None None])
               [(Left, newcomer); (Left, newcomer)]) mod 3)%Z.
Proof.
  assert (O : in_order (Paginator_init newcomer None []
                 [create unset None None None None; create unset None None None None;
                  create unset None None None None]))
    by (unfold in_order, pages; simpl; lia).
  split; [discriminate|]. split; [exact O|].
  apply (proj1 paginator_page_is_start_plus_net_moves
           (Paginator_init newcomer None []
              [create unset None None None None; create unset None None None None;
               create unset None None None None])
           [(Left, newcomer); (Left, newcomer)]); [discriminate | exact O].
Defined.

(** ** Anyone else *)

Lemma press_stranger (self : Paginator) (b : button) (user : Member) :
  is_stranger self user = true ->
  press self (b, user) = Responded self (not_yours self user).
Proof.
  intros H. unfold press. simpl.
  destruct b; unfold _left, _stop, _right; now rewrite H.
Qed.

(** X13.  A click of anyone but the author of the command is answered by
    the warning naming that user and leaves the paginator as it is, for each
    of the three buttons; so does any run of such clicks. *)
Theorem paginator_ignores_strangers :
  (forall (self : Paginator) (b : button) (user : Member),
      user_id user <> user_id (pag_author self) ->
      press self (b, user) = Responded self (not_yours self user))
  /\ (forall (self : Paginator) (clicks : list (button * Member)),
        Forall (fun click => user_id (snd click) <> user_id (pag_author self)) clicks ->
        presses self clicks = self).
Proof.
  assert (S : forall self user, user_id user <> user_id (pag_author self) ->
                                is_stranger self user = true).
  { intros self user H. unfold is_stranger. apply negb_true_iff.
    now apply Z.eqb_neq. }
  split.
  - intros self b user H. apply press_stranger. now apply S.
  - intros self clicks H. induction H as [|[b user] l Hc _ IH]; [reflexivity|].
    simpl presses. rewrite press_stranger by (apply S; exact Hc). exact IH.
Qed.

Lemma paginator_ignores_strangers_witness :
  user_id (mkMember 7 (py "<@7>") (py "bob") (py "Bob") None [] 0 0 quiet_guild)
  <> user_id (pag_author (Paginator_init newcomer None (py "!")
                            [create unset None None None None]))
  /\ press (Paginator_init newcomer None (py "!") [create unset None None None None])
       (Right, mkMember 7 (py "<@7>") (py "bob") (py "Bob") None [] 0 0 quiet_guild)
     = Responded
         (Paginator_init newcomer None (py "!") [create unset None None None None])
         (SendWarning (py "! <@7> This is not **your** paginator!") 2764081).
Proof.
  split; [discriminate|].
  apply (proj1 paginator_ignores_strangers
           (Paginator_init newcomer None (py "!") [create unset None None None None])
           Right
           (mkMember 7 (py "<@7>") (py "bob") (py "Bob") None [] 0 0 quiet_guild)).
  discriminate.
Defined.

(** ** Exceptions and what is shown *)

Lemma moved_page_in_order (self : Paginator) (step : Z) :
  embeds self <> [] ->
  in_order (with_page self ((current_page self + step) mod pages self)%Z).
Proof.
  intros NE. pose proof (pages_positive self NE) as P.
  unfold in_order, pages in *. simpl. now apply mod_in_range.
Qed.

Lemma update_embed_no_avatar (self : Paginator) :
  in_order self -> pag_bot_avatar self = None ->
  update_embed self = Failed AttributeError self.
Proof.
  intros O A. unfold in_order, pages in O. unfold update_embed.
  rewrite py_position_in_range by assumption.
  destruct (nth_error (embeds self) (Z.to_nat (current_page self))) eqn:E.
  - now rewrite A.
  - apply nth_error_None in E. lia.
Qed.

Lemma author_click (self : Paginator) (b : button) :
  embeds self <> [] ->
  press self (b, pag_author self)
  = match b with
    | Stop => Responded self RemoveView
    | _ => update_embed
             (with_page self
                ((current_page self + move self (b, pag_author self))
                 mod pages self)%Z)
    end.
Proof.
  intros NE. pose proof (pages_positive self NE) as P.
  assert (Z0 : (pages self =? 0)%Z = false) by (apply Z.eqb_neq; lia).
  unfold press, move. simpl fst. simpl snd. rewrite author_not_stranger.
  destruct b; unfold _left, _stop, _right; rewrite author_not_stranger;
    try rewrite Z0; reflexivity.
Qed.

(** X14.  A click of the author on the left or the right button raises
    [ZeroDivisionError] on an empty list of pages, the paginator unchanged;
    with pages but a bot without avatar it raises [AttributeError] after the
    page has moved; with pages and avatar it edits the message, on the
    moved page. *)
Theorem paginator_exceptions :
  forall (self : Paginator) (b : button),
    b <> Stop ->
    let result := press self (b, pag_author self) in
    let moved :=
      with_page self
        ((current_page self + move self (b, pag_author self)) mod pages self)%Z in
    (embeds self = [] -> result = Failed ZeroDivisionError self)
    /\ (embeds self <> [] -> pag_bot_avatar self = None ->
        result = Failed AttributeError moved)
    /\ (embeds self <> [] -> pag_bot_avatar self <> None ->
        exists self' shown,
          result = Responded self' (EditMessage shown)
          /\ current_page self' = current_page moved).
Proof.
  intros self b Nb result moved. subst result moved.
  split; [|split].
  - intros E. assert (Z0 : (pages self =? 0)%Z = true)
      by (unfold pages; now rewrite E).
    unfold press. simpl fst. simpl snd.
    destruct b; [| congruence |]; unfold _left, _right;
      now rewrite author_not_stranger, Z0.
  - intros NE A. rewrite author_click by assumption.
    destruct b; [| congruence |];
      (apply update_embed_no_avatar; [now apply moved_page_in_order | exact A]).
  - intros NE A. rewrite author_click by assumption.
    destruct (pag_bot_avatar self) as [icon|] eqn:I; [|congruence].
    destruct b; [| congruence |];
      match goal with
      | |- context [update_embed ?s] =>
          destruct (update_embed_in_order s icon) as [embed [_ ->]];
          [now apply moved_page_in_order | exact I | eauto]
      end.
Qed.

Lemma paginator_exceptions_witness :
  Left <> Stop
  /\ embeds (Paginator_init newcomer None [] []) = []
  /\ press (Paginator_init newcomer None [] []) (Left, newcomer)
     = Failed ZeroDivisionError (Paginator_init newcomer None [] [])
  /\ embeds (Paginator_init newcomer None [] [create unset None None None None;
                                              create unset None None None None])
     <> []
  /\ press (Paginator_init newcomer None []
              [create unset None None None None; create unset None None None None])
       (Left, newcomer)
     = Failed AttributeError
         (mkPaginator newcomer None []
            [create unset None None None None; create unset None None None None] 1).
Proof.
  split; [discriminate|]. split; [reflexivity|]. split; [|split; [discriminate|]].
  - apply (proj1 (paginator_exceptions (Paginator_init newcomer None [] []) Left
                    ltac:(discriminate))).
    reflexivity.
  - apply (proj1 (proj2 (paginator_exceptions
                    (Paginator_init newcomer None []
                       [create unset None None None None;
                        create unset None None None None]) Left
                    ltac:(discriminate)))); [discriminate | reflexivity].
Defined.

(** X15.  With pages and an avatar of the bot, a click of the author on the
    left or the right button shows the embed of the new page with the footer
    [Page k/n], [k] between [1] and [n] being the page counted from one and
    [n] the number of pages, and the icon of the bot; this embed of the list
    is changed in place and no other one. *)
Theorem paginator_shows_the_page_with_its_number :
  forall (self : Paginator) (b : button) (icon : str),
    b <> Stop ->
    embeds self <> [] ->
    pag_bot_avatar self = Some icon ->
    let page :=
      ((current_page self + move self (b, pag_author self)) mod pages self)%Z in
    exists embed,
      nth_error (embeds self) (Z.to_nat page) = Some embed
      /\ (1 <= page + 1 <= pages self)%Z
      /\ press self (b, pag_author self)
         = Responded
             (mkPaginator (pag_author self) (pag_bot_avatar self) (pag_warn self)
                (set_nth (embeds self) (Z.to_nat page)
                   (set_footer embed
                      (py "Page " ++ str_of_int (page + 1) ++ py "/"
                       ++ str_of_int (pages self)) icon))
                page)
             (EditMessage
                (set_footer embed
                   (py "Page " ++ str_of_int (page + 1) ++ py "/"
                    ++ str_of_int (pages self)) icon))
      /\ (forall n, n <> Z.to_nat page ->
            nth_error (set_nth (embeds self) (Z.to_nat page)
                         (set_footer embed
                            (py "Page " ++ str_of_int (page + 1) ++ py "/"
                             ++ str_of_int (pages self)) icon)) n
            = nth_error (embeds self) n).
Proof.
  intros self b icon Nb NE I page.
  pose proof (moved_page_in_order self (move self (b, pag_author self)) NE) as O.
  destruct (update_embed_in_order _ icon O I) as [embed [E U]].
  exists embed. simpl in E. fold page in E.
  split; [exact E|]. split.
  { unfold in_order in O. simpl in O. fold page in O.
    change (pages (with_page self page)) with (pages self) in O. lia. }
  split.
  - rewrite author_click by assumption.
    destruct b; [| congruence |]; exact U.
  - intros n Hn. now apply nth_error_set_nth_other.
Qed.

Lemma paginator_shows_witness :
  Right <> Stop
  /\ press (Paginator_init newcomer (Some (py "https://cdn.test/bot.png")) []
              [create unset None None None None;
               create (mkBuilder (Some (py "Two")) None None None None None None None)
                 None None None None])
       (Right, newcomer)
     = Responded
         (mkPaginator newcomer (Some (py "https://cdn.test/bot.png")) []
            [create unset None None None None;
             mkEmbed (Some (py "Two")) None None None None None
               (Some (py "Page 2/2")) (Some (py "https://cdn.test/bot.png"))
               None None []]
            1)
         (EditMessage
            (mkEmbed (Some (py "Two")) None None None None None
               (Some (py "Page 2/2")) (Some (py "https://cdn.test/bot.png"))
               None None [])).
Proof.
  split; [discriminate|].
  destruct (paginator_shows_the_page_with_its_number
              (Paginator_init newcomer (Some (py "https://cdn.test/bot.png")) []
                 [create unset None None None None;
                  create (mkBuilder (Some (py "Two")) None None None None None None None)
                    None None None None])
              Right (py "https://cdn.test/bot.png")
              ltac:(discriminate) ltac:(discriminate) eq_refl)
    as [embed [E [_ [P _]]]].
  vm_compute in E. injection E as <-. refine (eq_trans P _).
  vm_compute. reflexivity.
Defined.

(** * The announcements *)

(** ** The table *)

Lemma select_guild_app (a b : database) (g : Z) :
  select_guild (a ++ b) g
  = match select_guild a g with
    | Some r => Some r
    | None => select_guild b g
    end.
Proof.
  unfold select_guild. induction a as [|r a IH]; [reflexivity|].
  simpl. destruct (row_guild r =? g)%Z; [reflexivity | exact IH].
Qed.

Lemma select_delete_same (db : database) (g : Z) :
  select_guild (delete_guild db g) g = None.
Proof.
  unfold select_guild, delete_guild. induction db as [|r db IH]; [reflexivity|].
  simpl. destruct (row_guild r =? g)%Z eqn:E; simpl; [exact IH|].
  now rewrite E.
Qed.

Lemma select_delete_other (db : database) (g g' : Z) :
  g' <> g -> select_guild (delete_guild db g) g' = select_guild db g'.
Proof.
  intros N. unfold select_guild, delete_guild.
  induction db as [|r db IH]; [reflexivity|].
  simpl. destruct (row_guild r =? g)%Z eqn:E; simpl.
  - apply Z.eqb_eq in E.
    destruct (Z.eqb_spec (row_guild r) g'); [congruence | exact IH].
  - destruct (row_guild r =? g')%Z; [reflexivity | exact IH].
Qed.

Lemma select_replace_same (db : database) (r : row) :
  select_guild (replace_into db r) (row_guild r) = Some r.
Proof.
  unfold replace_into. rewrite select_guild_app, select_delete_same.
  unfold select_guild. simpl. now rewrite Z.eqb_refl.
Qed.

Lemma select_replace_other (db : database) (r : row) (g' : Z) :
  g' <> row_guild r -> select_guild (replace_into db r) g' = select_guild db g'.
Proof.
  intros N. unfold replace_into.
  rewrite select_guild_app, select_delete_other by assumption.
  destruct (select_guild db g'); [reflexivity|].
  unfold select_guild. simpl.
  destruct (Z.eqb_spec (row_guild r) g'); [congruence | reflexivity].
Qed.

Lemma select_guild_key (db : database) (g : Z) (r : row) :
  select_guild db g = Some r -> row_guild r = g /\ In r db.
Proof.
  unfold select_guild. intros H. apply find_some in H as [I E].
  split; [now apply Z.eqb_eq | assumption].
Qed.

Lemma delete_guild_keys (db : database) (g : Z) (k : Z) :
  In k (map row_guild (delete_guild db g)) <-> In k (map row_guild db) /\ k <> g.
Proof.
  unfold delete_guild. rewrite !in_map_iff. split.
  - intros [r [<- H]]. apply filter_In in H as [I E].
    apply negb_true_iff, Z.eqb_neq in E. split; [eauto | assumption].
  - intros [[r [<- I]] N]. exists r. split; [reflexivity|].
    apply filter_In. split; [assumption|].
    now apply negb_true_iff, Z.eqb_neq.
Qed.

Lemma unique_delete (db : database) (g : Z) :
  unique_guilds db -> unique_guilds (delete_guild db g).
Proof.
  unfold unique_guilds, delete_guild. induction db as [|r db IH]; intros H.
  - constructor.
  - simpl in H. inversion H as [|? ? Hn Hd]; subst. simpl.
    destruct (row_guild r =? g)%Z; simpl; [now apply IH|].
    constructor; [|now apply IH].
    intros F. apply Hn. change (filter _ db) with (delete_guild db g) in F.
    now apply delete_guild_keys in F.
Qed.

Lemma unique_replace (db : database) (r : row) :
  unique_guilds db -> unique_guilds (replace_into db r).
Proof.
  intros H. unfold unique_guilds, replace_into. rewrite map_app. simpl.
  apply NoDup_app_remove_l with (l := []). simpl.
  apply Permutation_NoDup with (row_guild r :: map row_guild (delete_guild db (row_guild r))).
  - apply Permutation_cons_append.
  - constructor; [|now apply unique_delete].
    intros F. apply delete_guild_keys in F. tauto.
Qed.

Lemma delete_guild_idempotent (db : database) (g : Z) :
  delete_guild (delete_guild db g) g = delete_guild db g.
Proof.
  unfold delete_guild. induction db as [|r db IH]; [reflexivity|].
  simpl. destruct (row_guild r =? g)%Z eqn:E; simpl.
  - exact IH.
  - rewrite E. simpl. f_equal. exact IH.
Qed.

Lemma notice_is_no_send (emoji : str) (plain : string) (ctx : Context)
    (content : option str) (to : Z) (text : option str) (card : Embed) :
  notice emoji plain ctx content <> Send to text card.
Proof. unfold notice. destruct (if_str content); discriminate. Qed.

Section Commands.

Variable config : Config.
Variable codec : Codec.
Variable wording : Wording.

Lemma add_database (ctx : Context) (channel : option Channel)
    (content flags : option str) (delivery : option exception) (db : database) :
  database_of (add config codec ctx channel content flags delivery db) = db
  \/ exists r, row_guild r = ctx_guild_id ctx
               /\ database_of (add config codec ctx channel content flags delivery db)
                  = replace_into db r.
Proof.
  unfold add. destruct channel as [channel|]; [|now left].
  destruct (not_in_guild ctx channel); [now left|].
  destruct (Builder_init flags); [now left|].
  right. eexists. split; [|destruct delivery; reflexivity]. reflexivity.
Qed.

Lemma edit_database (ctx : Context) (channel : option Channel)
    (content flags : option str) (delivery : option exception) (db : database) :
  database_of (edit config codec wording ctx channel content flags delivery db) = db
  \/ exists r, row_guild r = ctx_guild_id ctx
               /\ database_of
                    (edit config codec wording ctx channel content flags delivery db)
                  = replace_into db r.
Proof.
  unfold edit. destruct channel as [channel|]; [|now left].
  destruct (not_in_guild ctx channel); [now left|].
  destruct (select_guild db (ctx_guild_id ctx)); [|now left].
  destruct (Builder_init flags); [now left|].
  right. eexists. split; [|destruct delivery; reflexivity]. reflexivity.
Qed.

Lemma view_database (ctx : Context) (db : database) :
  database_of (view config codec wording ctx db) = db.
Proof. unfold view. now destruct (select_guild db (ctx_guild_id ctx)). Qed.

Lemma on_member_database (known : list Z) (member : Member) (db : database) :
  database_of (on_member codec known member db) = db.
Proof.
  unfold on_member. destruct (select_guild db (guild_id (guild member))); [|reflexivity].
  now destruct (existsb (Z.eqb (row_channel r)) known).
Qed.

(** X16.  The commands [add], [edit], [remove] and [view] and the listener
    keep the table with at most one row for a guild. *)
Theorem announcements_keep_one_row_per_guild :
  forall (db : database),
    unique_guilds db ->
    (forall ctx channel content flags delivery,
        unique_guilds
          (database_of (add config codec ctx channel content flags delivery db)))
    /\ (forall ctx channel content flags delivery,
          unique_guilds
            (database_of
               (edit config codec wording ctx channel content flags delivery db)))
    /\ (forall ctx, unique_guilds (database_of (remove config wording ctx db)))
    /\ (forall ctx, unique_guilds (database_of (view config codec wording ctx db)))
    /\ (forall known member,
          unique_guilds (database_of (on_member codec known member db))).
Proof.
  intros db U. split; [|split; [|split; [|split]]].
  - intros ctx channel content flags delivery.
    destruct (add_database ctx channel content flags delivery db)
      as [-> | [r [_ ->]]];
      [assumption | now apply unique_replace].
  - intros ctx channel content flags delivery.
    destruct (edit_database ctx channel content flags delivery db)
      as [-> | [r [_ ->]]];
      [assumption | now apply unique_replace].
  - intros ctx. simpl. now apply unique_delete.
  - intros ctx. now rewrite view_database.
  - intros known member. now rewrite on_member_database.
Qed.

(** X17.  [add], [edit] and [remove] leave the row of every guild other
    than the one of the invocation as it is. *)
Theorem announcements_touch_one_guild :
  forall (db : database) (ctx : Context) (other : Z),
    other <> ctx_guild_id ctx ->
    (forall channel content flags delivery,
        select_guild
          (database_of (add config codec ctx channel content flags delivery db)) other
        = select_guild db other)
    /\ (forall channel content flags delivery,
          select_guild
            (database_of
               (edit config codec wording ctx channel content flags delivery db))
            other
          = select_guild db other)
    /\ select_guild (database_of (remove config wording ctx db)) other
       = select_guild db other.
Proof.
  intros db ctx other N. split; [|split].
  - intros channel content flags delivery.
    destruct (add_database ctx channel content flags delivery db)
      as [-> | [r [K ->]]];
      [reflexivity|]. apply select_replace_other. congruence.
  - intros channel content flags delivery.
    destruct (edit_database ctx channel content flags delivery db)
      as [-> | [r [K ->]]];
      [reflexivity|]. apply select_replace_other. congruence.
  - simpl. now apply select_delete_other.
Qed.

(** X18.  When [add] ends by sending the card, the flags were parsed, the
    card sent is the one rendered for the author, and the row of the guild
    holds the content as given and the dictionary of the card rendered
    without event; [view] in that guild then sends the content and this
    dictionary with the placeholders of the viewer replaced, and the
    listener sends the same for the member to the stored channel when the
    bot finds it. *)
Theorem added_announcement_is_what_is_rendered :
  forall (db db' : database) (ctx : Context) (channel : option Channel)
         (content flags : option str) (delivery : option exception)
         (to : Z) (text : option str) (card : Embed),
    add config codec ctx channel content flags delivery db
    = Done db' (Send to text card) ->
    exists (builder : Builder) (target : Z),
      Builder_init flags = inr builder
      /\ card = create builder (Some (ctx_author ctx)) None None None
      /\ select_guild db' (ctx_guild_id ctx)
         = Some (mkRow (ctx_guild_id ctx) target content
                   (to_dict codec (create builder None None None None)))
      /\ (forall viewer : Context,
            ctx_guild_id viewer = ctx_guild_id ctx ->
            view config codec wording viewer db'
            = Done db'
                (Send (ctx_channel_id viewer)
                   (option_map
                      (fun t => replace_in_str t (user_table (ctx_author viewer)))
                      content)
                   (from_dict codec
                      (replace_placeholders
                         (to_dict codec (create builder None None None None))
                         (user_table (ctx_author viewer))))))
      /\ (forall (known : list Z) (member : Member),
            guild_id (guild member) = ctx_guild_id ctx ->
            In target known ->
            on_member codec known member db'
            = Done db'
                (Send target
                   (option_map (fun t => replace_in_str t (user_table member))
                      content)
                   (from_dict codec
                      (replace_placeholders
                         (to_dict codec (create builder None None None None))
                         (user_table member))))).
Proof.
  intros db db' ctx channel content flags delivery to text card H.
  unfold add in H. destruct channel as [channel|]; [|discriminate].
  destruct (not_in_guild ctx channel).
  { injection H as _ H. now apply notice_is_no_send in H. }
  destruct (Builder_init flags) as [e | builder]; [discriminate|].
  destruct delivery as [e|]; [discriminate|].
  injection H as <- _ _ <-.
  exists builder, (or_int (channel_id channel) (ctx_channel_id ctx)).
  split; [reflexivity|]. split; [reflexivity|].
  set (r := mkRow (ctx_guild_id ctx)
              (or_int (channel_id channel) (ctx_channel_id ctx)) content
              (to_dict codec (create builder None None None None))).
  assert (S : select_guild (replace_into db r) (ctx_guild_id ctx) = Some r)
    by (apply (select_replace_same db r)).
  split; [exact S|]. split.
  - intros viewer G. unfold view. rewrite G, S. reflexivity.
  - intros known member G K. unfold on_member. rewrite G, S.
    assert (E : existsb (Z.eqb (row_channel r)) known = true).
    { apply existsb_exists. exists (row_channel r). split; [exact K|].
      apply Z.eqb_refl. }
    rewrite E. reflexivity.
Qed.


(** X19.  [add] and [edit] leave the table as it is on the ways out
    before the [REPLACE]: without channel ([AttributeError]), on a channel
    that is not of the guild (the alert), on flags [parse] rejects (its
    exception) and, for [edit], without a row of the guild (the denial);
    and a table they changed tells that the channel was of the guild and
    the flags were parsed.  The row is committed before the card for the
    author is built and sent: an exception raised there ends the command
    with the row written and no card sent. *)
Theorem announcement_committed_before_card_sent :
  forall (db : database) (ctx : Context) (channel : option Channel)
         (content flags : option str) (delivery : option exception),
    (channel = None ->
     add config codec ctx channel content flags delivery db
     = Raised AttributeError db
     /\ edit config codec wording ctx channel content flags delivery db
        = Raised AttributeError db)
    /\ (forall c : Channel,
          channel = Some c -> not_in_guild ctx c = true ->
          add config codec ctx channel content flags delivery db
          = Done db
              (alert config ctx
                 (Some (channel_mention c ++ py " is not in this **server!**")))
          /\ edit config codec wording ctx channel content flags delivery db
             = Done db
                 (alert config ctx
                    (Some (channel_mention c ++ py " is not in this **server!**"))))
    /\ (forall (c : Channel) (e : ValueError),
          channel = Some c -> not_in_guild ctx c = false ->
          Builder_init flags = inl e ->
          add config codec ctx channel content flags delivery db
          = Raised (FromParse e) db
          /\ (select_guild db (ctx_guild_id ctx) <> None ->
              edit config codec wording ctx channel content flags delivery db
              = Raised (FromParse e) db))
    /\ (forall c : Channel,
          channel = Some c -> not_in_guild ctx c = false ->
          select_guild db (ctx_guild_id ctx) = None ->
          edit config codec wording ctx channel content flags delivery db
          = Done db
              (deny config ctx
                 (Some (py "No " ++ noun wording ++ py " message to **edit!**"))))
    /\ (database_of (add config codec ctx channel content flags delivery db) <> db ->
        exists (c : Channel) (builder : Builder),
          channel = Some c /\ not_in_guild ctx c = false
          /\ Builder_init flags = inr builder)
    /\ (database_of (edit config codec wording ctx channel content flags delivery db)
        <> db ->
        exists (c : Channel) (builder : Builder) (old : row),
          channel = Some c /\ not_in_guild ctx c = false
          /\ Builder_init flags = inr builder
          /\ select_guild db (ctx_guild_id ctx) = Some old)
    /\ (forall (c : Channel) (builder : Builder) (e : exception),
          channel = Some c -> not_in_guild ctx c = false ->
          Builder_init flags = inr builder ->
          delivery = Some e ->
          let written :=
            mkRow (ctx_guild_id ctx)
              (or_int (channel_id c) (ctx_channel_id ctx)) content
              (to_dict codec (create builder None None None None)) in
          add config codec ctx channel content flags delivery db
          = Raised e (replace_into db written)
          /\ sends_card (add config codec ctx channel content flags delivery db)
             = false
          /\ select_guild
               (database_of (add config codec ctx channel content flags delivery db))
               (ctx_guild_id ctx)
             = Some written
          /\ (forall old : row,
                select_guild db (ctx_guild_id ctx) = Some old ->
                edit config codec wording ctx channel content flags delivery db
                = Raised e
                    (replace_into db
                       (mkRow (ctx_guild_id ctx)
                          (or_int (channel_id c) (row_channel old))
                          (or_str content (row_content old))
                          (to_dict codec (create builder None None None None)))))).
Proof.
  intros db ctx channel content flags delivery.
  split; [|split; [|split; [|split; [|split; [|split]]]]].
  - intros ->. split; reflexivity.
  - intros c -> N. unfold add, edit. rewrite N. split; reflexivity.
  - intros c e -> N B. unfold add, edit. rewrite N, B. split; [reflexivity|].
    intros S. destruct (select_guild db (ctx_guild_id ctx)); [reflexivity | congruence].
  - intros c -> N S. unfold edit. now rewrite N, S.
  - unfold add. destruct channel as [c|]; [|simpl; congruence].
    destruct (not_in_guild ctx c) eqn:N; [simpl; congruence|].
    destruct (Builder_init flags) as [e | builder] eqn:B; [simpl; congruence|].
    intros _. now exists c, builder.
  - unfold edit. destruct channel as [c|]; [|simpl; congruence].
    destruct (not_in_guild ctx c) eqn:N; [simpl; congruence|].
    destruct (select_guild db (ctx_guild_id ctx)) as [old|] eqn:S;
      [|simpl; congruence].
    destruct (Builder_init flags) as [e | builder] eqn:B; [simpl; congruence|].
    intros _. now exists c, builder, old.
  - intros c builder e -> N B -> written.
    assert (A : add config codec ctx (Some c) content flags (Some e) db
                = Raised e (replace_into db written)).
    { unfold add. now rewrite N, B. }
    split; [exact A|]. rewrite A. split; [reflexivity|]. split.
    + apply (select_replace_same db written).
    + intros old S. unfold edit. now rewrite N, S, B.
Qed.

(** X20.  [edit] on a guild with a row stores the channel given (the
    stored one for an identifier [0]), the content given when it is not
    empty and the stored content otherwise, and always the card of the
    flags given: without flags the stored card is replaced by the empty
    card. *)
Theorem edit_merges_channel_and_content_and_replaces_the_card :
  forall (db : database) (ctx : Context) (channel : Channel)
         (content flags : option str) (delivery : option exception)
         (old : row) (builder : Builder),
    not_in_guild ctx channel = false ->
    select_guild db (ctx_guild_id ctx) = Some old ->
    Builder_init flags = inr builder ->
    let db' :=
      database_of
        (edit config codec wording ctx (Some channel) content flags delivery db) in
    select_guild db' (ctx_guild_id ctx)
    = Some (mkRow (ctx_guild_id ctx)
              (or_int (channel_id channel) (row_channel old))
              (or_str content (row_content old))
              (to_dict codec (create builder None None None None)))
    /\ (content = None \/ content = Some [] ->
        or_str content (row_content old) = row_content old)
    /\ (forall text, content = Some text -> text <> [] ->
        or_str content (row_content old) = Some text)
    /\ (flags = None \/ flags = Some [] -> builder = unset).
Proof.
  intros db ctx channel content flags delivery old builder N S B db'. subst db'.
  unfold edit. rewrite N, S, B.
  assert (D : forall (out : sent) (committed : database),
             database_of (match delivery with
                          | Some e => Raised e committed
                          | None => Done committed out
                          end) = committed)
    by (intros; destruct delivery; reflexivity).
  cbv zeta. rewrite D.
  split; [|split; [|split]].
  - apply (select_replace_same db
             (mkRow (ctx_guild_id ctx)
                (or_int (channel_id channel) (row_channel old))
                (or_str content (row_content old))
                (to_dict codec (create builder None None None None)))).
  - intros [-> | ->]; reflexivity.
  - intros text -> T. destruct text; [congruence | reflexivity].
  - intros [-> | ->]; simpl in B; congruence.
Qed.

(** X21.  [remove] always approves; after it the guild has no row, [view]
    in the guild denies, the listener sends nothing, and a second [remove]
    changes nothing. *)
Theorem removed_announcement_is_gone :
  forall (db : database) (ctx : Context),
    let db' := database_of (remove config wording ctx db) in
    remove config wording ctx db
    = Done db' (approve config ctx (Some (removed wording)))
    /\ select_guild db' (ctx_guild_id ctx) = None
    /\ (forall viewer : Context,
          ctx_guild_id viewer = ctx_guild_id ctx ->
          view config codec wording viewer db'
          = Done db'
              (deny config viewer
                 (Some (py "No " ++ noun wording ++ py " message **set**!"))))
    /\ (forall (known : list Z) (member : Member),
          guild_id (guild member) = ctx_guild_id ctx ->
          on_member codec known member db' = Quiet db')
    /\ database_of (remove config wording ctx db') = db'.
Proof.
  intros db ctx db'. subst db'. simpl database_of.
  pose proof (select_delete_same db (ctx_guild_id ctx)) as S.
  split; [reflexivity|]. split; [exact S|]. split; [|split].
  - intros viewer G. unfold view. now rewrite G, S.
  - intros known member G. unfold on_member. now rewrite G, S.
  - apply delete_guild_idempotent.
Qed.

End Commands.

Lemma added_announcement_witness :
  exists db',
    add sample_config sample_codec sample_context
      (Some (mkChannel 11 (py "<#11>"))) (Some (py "Hi {user.mention}"))
      (Some (py "{title: {user.name} joined}")) None []
    = Done db'
        (Send 10 None
           (create (mkBuilder (Some (py "{user.name} joined")) None None None
                      None None None None)
              (Some newcomer) None None None))
    /\ view sample_config sample_codec welcome_wording sample_context db'
       = Done db'
           (Send 10 (Some (py "Hi <@42>"))
              (mkEmbed (Some (py "Ann joined")) None None None None None None None
                 None None [])).
Proof.
  eexists. split; [reflexivity|].
  destruct (added_announcement_is_what_is_rendered sample_config sample_codec
              welcome_wording [] _ sample_context
              (Some (mkChannel 11 (py "<#11>"))) (Some (py "Hi {user.mention}"))
              (Some (py "{title: {user.name} joined}")) None _ _ _ eq_refl)
    as [builder [target [B [_ [_ [V _]]]]]].
  rewrite (V sample_context eq_refl).
  vm_compute in B. injection B as <-. vm_compute. reflexivity.
Defined.

Lemma announcement_committed_witness :
  not_in_guild sample_context (mkChannel 11 (py "<#11>")) = false
  /\ Builder_init (Some (py "{title: Hey}"))
     = inr (mkBuilder (Some (py "Hey")) None None None None None None None)
  /\ add sample_config sample_codec sample_context
       (Some (mkChannel 11 (py "<#11>"))) (Some (py "Hi")) (Some (py "{title: Hey}"))
       (Some AttributeError) []
     = Raised AttributeError
         [mkRow 1 11 (Some (py "Hi"))
            (to_dict sample_codec
               (create (mkBuilder (Some (py "Hey")) None None None None None None
                          None)
                  None None None None))]
  /\ add sample_config sample_codec sample_context None None None None []
     = Raised AttributeError [].
Proof.
  assert (N : not_in_guild sample_context (mkChannel 11 (py "<#11>")) = false)
    by reflexivity.
  assert (B : Builder_init (Some (py "{title: Hey}"))
              = inr (mkBuilder (Some (py "Hey")) None None None None None None None))
    by (vm_compute; reflexivity).
  split; [exact N|]. split; [exact B|]. split.
  - exact (proj1 (proj2 (proj2 (proj2 (proj2 (proj2 (proj2
             (announcement_committed_before_card_sent sample_config sample_codec
                welcome_wording [] sample_context
                (Some (mkChannel 11 (py "<#11>"))) (Some (py "Hi"))
                (Some (py "{title: Hey}")) (Some AttributeError)))))))
             (mkChannel 11 (py "<#11>")) _ AttributeError eq_refl N B eq_refl)).
  - exact (proj1 (proj1 (announcement_committed_before_card_sent sample_config
                    sample_codec welcome_wording [] sample_context
                    None None None None) eq_refl)).
Defined.

Lemma edit_merges_witness :
  not_in_guild sample_context (mkChannel 11 (py "<#11>")) = false
  /\ select_guild [mkRow 1 10 (Some (py "old text")) (VStr (py "old card"))] 1
     = Some (mkRow 1 10 (Some (py "old text")) (VStr (py "old card")))
  /\ Builder_init None = inr unset
  /\ select_guild
       (database_of
          (edit sample_config sample_codec welcome_wording sample_context
             (Some (mkChannel 11 (py "<#11>"))) None None None
             [mkRow 1 10 (Some (py "old text")) (VStr (py "old card"))]))
       1
     = Some (mkRow 1 11 (Some (py "old text"))
               (to_dict sample_codec (create unset None None None None))).
Proof.
  split; [reflexivity|]. split; [reflexivity|]. split; [reflexivity|].
  apply (proj1 (edit_merges_channel_and_content_and_replaces_the_card
                  sample_config sample_codec welcome_wording
                  [mkRow 1 10 (Some (py "old text")) (VStr (py "old card"))]
                  sample_context (mkChannel 11 (py "<#11>")) None None None
                  (mkRow 1 10 (Some (py "old text")) (VStr (py "old card")))
                  unset eq_refl eq_refl eq_refl)).
Defined.

Lemma removed_announcement_witness :
  sample_context.(ctx_guild_id) = 1%Z
  /\ view sample_config sample_codec goodbye_wording sample_context
       (database_of
          (remove sample_config goodbye_wording sample_context
             [mkRow 1 10 (Some (py "bye")) (VStr (py "card"))]))
     = Done []
         (ReplyNotice (py "- <@42> No goodbye message **set**!") 2764081).
Proof.
  split; [reflexivity|].
  pose proof (proj1 (proj2 (proj2 (removed_announcement_is_gone sample_config
                   sample_codec goodbye_wording
                   [mkRow 1 10 (Some (py "bye")) (VStr (py "card"))]
                   sample_context))) sample_context eq_refl) as V.
  refine (eq_trans V _). vm_compute. reflexivity.
Defined.

Lemma announcements_keep_one_row_witness :
  unique_guilds [mkRow 1 10 (Some (py "old")) (VStr (py "card"));
                 mkRow 2 20 None (VStr (py "other"))]
  /\ unique_guilds
       (database_of
          (add sample_config sample_codec sample_context
             (Some (mkChannel 11 (py "<#11>"))) (Some (py "new"))
             (Some (py "{title: Hey}")) None
             [mkRow 1 10 (Some (py "old")) (VStr (py "card"));
              mkRow 2 20 None (VStr (py "other"))])).
Proof.
  assert (U : unique_guilds [mkRow 1 10 (Some (py "old")) (VStr (py "card"));
                             mkRow 2 20 None (VStr (py "other"))]).
  { unfold unique_guilds. simpl.
    constructor; [simpl; intros [E | []]; discriminate E|].
    constructor; [simpl; tauto | constructor]. }
  split; [exact U|].
  exact (proj1 (announcements_keep_one_row_per_guild sample_config sample_codec
                  welcome_wording _ U)
           sample_context (Some (mkChannel 11 (py "<#11>"))) (Some (py "new"))
           (Some (py "{title: Hey}")) None).
Defined.

Lemma announcements_touch_one_guild_witness :
  2%Z <> ctx_guild_id sample_context
  /\ select_guild
       (database_of
          (remove sample_config goodbye_wording sample_context
             [mkRow 1 10 (Some (py "old")) (VStr (py "card"));
              mkRow 2 20 None (VStr (py "other"))])) 2
     = Some (mkRow 2 20 None (VStr (py "other"))).
Proof.
  assert (N : 2%Z <> ctx_guild_id sample_context) by (simpl; lia).
  split; [exact N|].
  pose proof (proj2 (proj2 (announcements_touch_one_guild sample_config sample_codec
                 goodbye_wording
                 [mkRow 1 10 (Some (py "old")) (VStr (py "card"));
                  mkRow 2 20 None (VStr (py "other"))]
                 sample_context 2%Z N))) as R.
  refine (eq_trans R _). reflexivity.
Defined.
